(** * Soft and arg-max decoding loops of gpt-playground

    A shallow embedding of [src/greedy_decoding.py] and [src/utils.py].

    Tensors are modelled the way the numeric library stores them: a shape
    and a row-major flat storage.  Library calls that can fail return a
    [result] carrying the Python exception class; code that prints threads
    the printed values through a small output-and-exception monad.  The
    pretrained network, its embedding table, the detokenizer and the index
    a top-k selection returns among equal scores are external: they are
    parameters of the development.  Transcript reconstruction is embedded a
    second time on a store of shared tensor storages. *)

From Stdlib Require Import String Ascii.
From Stdlib Require Import List ZArith Lia Bool Arith Reals Lra.
Import ListNotations.

Set Implicit Arguments.

(** ** Exceptions and results *)

Inductive exn : Type :=
| IndexError
| RuntimeError
| AttributeError
| ValueError
| TypeError.

Inductive result (A : Type) : Type :=
| Ok (a : A)
| Raise (e : exn).

Arguments Ok {A} a.
Arguments Raise {A} e.

Definition rbind {A B} (r : result A) (f : A -> result B) : result B :=
  match r with
  | Ok a => f a
  | Raise e => Raise e
  end.

(** ** Tensors *)

Record tensor (A : Type) : Type := Tensor { shape : list nat; data : list A }.

Definition numel (sh : list nat) : nat := fold_right Nat.mul 1 sh.

Definition rank {A} (t : tensor A) : nat := length (shape t).

(** A tensor of the library always stores as many elements as its shape
    announces. *)
Definition wf {A} (t : tensor A) : Prop := length (data t) = numel (shape t).

(** [chunk n i l] is the [i]-th block of [n] consecutive elements of [l]. *)
Definition chunk {A} (n i : nat) (l : list A) : list A :=
  firstn n (skipn (i * n) l).

Definition tmap {A B} (f : A -> B) (t : tensor A) : tensor B :=
  Tensor (shape t) (map f (data t)).

(** [t.unsqueeze(dim)]: a new axis of size one at position [dim]; negative
    positions count from the end. *)
Definition unsqueeze {A} (dim : Z) (t : tensor A) : result (tensor A) :=
  let r := Z.of_nat (rank t) in
  if ((dim <? - (r + 1)) || (r <? dim))%Z then Raise IndexError
  else
    let d := Z.to_nat (if (dim <? 0)%Z then dim + r + 1 else dim)%Z in
    Ok (Tensor (firstn d (shape t) ++ 1 :: skipn d (shape t)) (data t)).

(** In-place update of one cell of the flat storage. *)
Fixpoint update {A} (l : list A) (i : nat) (v : A) : list A :=
  match l, i with
  | [], _ => []
  | _ :: l', 0 => v :: l'
  | x :: l', S i' => x :: update l' i' v
  end.

(** ** One-hot construction *)

(** [while len(tensor.shape) < 2: tensor = tensor.unsqueeze(0)], with the
    number of iterations bounded by [fuel]; [None] when the bound is hit
    before the loop condition turns false. *)
Fixpoint one_hot_loop (fuel : nat) (t : tensor Z) : option (tensor Z) :=
  if rank t <? 2 then
    match fuel with
    | 0 => None
    | S fuel' =>
        match unsqueeze 0 t with
        | Ok t' => one_hot_loop fuel' t'
        | Raise _ => None
        end
    end
  else Some t.

(** [torch.LongTensor(a, b, dimension)] followed by [zero_()]. *)
Definition zeros_long (a b : nat) (dimension : Z) : result (tensor Z) :=
  if (dimension <? 0)%Z then Raise RuntimeError
  else
    let d := Z.to_nat dimension in
    Ok (Tensor [a; b; d] (repeat 0%Z (a * b * d))).

(** One write of [scatter_] along axis 2: the cell of [index] at flat
    position [p] (coordinates [i], [j], [k] in a block of shape
    [a'; b'; c']) names the column of [self] to overwrite in row [(i, j)]. *)
Definition scatter_cell (b d b' c' : nat) (index : list Z) (v : Z)
    (acc : result (list Z)) (p : nat) : result (list Z) :=
  rbind acc (fun cur =>
    let x := nth p index 0%Z in
    if ((x <? 0) || (Z.of_nat d <=? x))%Z then Raise RuntimeError
    else
      let i := p / (b' * c') in
      let j := (p / c') mod b' in
      Ok (update cur ((i * b + j) * d + Z.to_nat x) v)).

(** [self.scatter_(2, index, v)] on a tensor of rank three. *)
Definition scatter_2 (self index : tensor Z) (v : Z) : result (tensor Z) :=
  if numel (shape index) =? 0 then Ok self
  else
    match shape self, shape index with
    | [a; b; d], [a'; b'; c'] =>
        if (a' <=? a) && (b' <=? b) then
          rbind
            (fold_left (scatter_cell b d b' c' (data index) v)
               (seq 0 (a' * b' * c')) (Ok (data self)))
            (fun cur => Ok (Tensor [a; b; d] cur))
        else Raise RuntimeError
    | _, _ => Raise RuntimeError
    end.

(** [one_hot].  Two iterations of the padding loop always suffice, so the
    bound on it is never hit. *)
Definition one_hot (t : tensor Z) (dimension : Z) : result (tensor Z) :=
  match one_hot_loop 2 t with
  | None => Raise RuntimeError
  | Some t2 =>
      match shape t2 with
      | a :: b :: _ =>
          rbind (zeros_long a b dimension) (fun onehot =>
          rbind (unsqueeze (-1) t2) (fun index =>
          scatter_2 onehot index 1%Z))
      | _ => Raise IndexError
      end
  end.

(** Entry [(i, j, k)] of a rank-three tensor and entry [(i, j)] of a
    rank-two tensor, read from the flat storage. *)
Definition get3 (t : tensor Z) (i j k : nat) : Z :=
  match shape t with
  | [_; b; d] => nth ((i * b + j) * d + k) (data t) 0%Z
  | _ => 0%Z
  end.

Definition get2 (t : tensor Z) (i j : nat) : Z :=
  match shape t with
  | [_; b] => nth (i * b + j) (data t) 0%Z
  | _ => 0%Z
  end.

Definition in_vocab (dimension : Z) (t : tensor Z) : Prop :=
  Forall (fun x => (0 <= x < dimension)%Z) (data t).

(** The indicator row of a token among [d] vocabulary entries. *)
Definition indicator (d : nat) (x : Z) : list Z :=
  map (fun k => if (Z.of_nat k =? x)%Z then 1%Z else 0%Z) (seq 0 d).

(** The reading of one-hot construction as adding one trailing axis to a
    tensor of any rank. *)
Definition appends_vocab_axis (t : tensor Z) (dimension : Z) : Prop :=
  exists r, one_hot t dimension = Ok r /\
            shape r = shape t ++ [Z.to_nat dimension].

(** ** Output-and-exception monad

    A computation prints a sequence of values and then either returns or
    raises; what was printed before an exception stays printed. *)

Definition M (O A : Type) : Type := (list O * result A)%type.

Definition ret {O A} (a : A) : M O A := ([], Ok a).

Definition bind {O A B} (m : M O A) (f : A -> M O B) : M O B :=
  match m with
  | (out, Ok a) => let (out', r) := f a in (out ++ out', r)
  | (out, Raise e) => (out, Raise e)
  end.

Definition print {O} (v : O) : M O unit := ([v], Ok tt).

Definition lift {O A} (r : result A) : M O A := ([], r).

Definition printed {O A} (m : M O A) : list O := fst m.
Definition outcome {O A} (m : M O A) : result A := snd m.

Declare Scope monad_scope.
Delimit Scope monad_scope with monad.
Notation "x <- c ;; k" := (bind c (fun x => k))
  (at level 61, c at next level, right associativity) : monad_scope.
Notation "x <~ c ;; k" := (rbind c (fun x => k))
  (at level 61, c at next level, right associativity) : monad_scope.
Open Scope monad_scope.

(** [for _ in range(n)]: the body is run [n] times on the loop state. *)
Fixpoint for_range {O S} (n : nat) (body : S -> M O S) (s : S) : M O S :=
  match n with
  | 0 => ret s
  | S n' => s' <- body s ;; for_range n' body s'
  end.

(** [for i in range(n)] for a body that cannot print. *)
Fixpoint for_index {S} (idx : list nat) (body : nat -> S -> result S) (s : S)
    : result S :=
  match idx with
  | [] => Ok s
  | i :: idx' => s' <~ body i s ;; for_index idx' body s'
  end.

(** ** Scalars

    The arithmetic of tensor elements.  The loops are generic in it; it is
    instantiated with the real numbers for the numeric laws and with a
    computable arithmetic for running the loops. *)

Class Scalar (F : Type) : Type := {
  fzero : F;
  fadd : F -> F -> F;
  fmul : F -> F -> F;
  fdiv : F -> F -> F;
  fneg : F -> F;
  fexp : F -> F;
  flog : F -> F;
  fleb : F -> F -> bool;
  of_long : Z -> F
}.

(** [torch.topk(xs, k=1)] on one row.  The library returns the index of a
    greatest element and leaves open which one when several elements are
    equal, so the selected index is a parameter of the development. *)
Class TopK (F : Type) : Type := {
  topk_index : list F -> nat
}.

(** What the library promises of the selected index: it is an index of
    the row, and no element of the row is greater. *)
Definition topk_in_range {F : Type} (K : TopK F) : Prop :=
  forall xs : list F, xs <> [] -> @topk_index F K xs < length xs.

Definition topk_greatest {F : Type} `{Scalar F} (K : TopK F) : Prop :=
  forall (xs : list F) (j : nat),
    j < length xs ->
    fleb (nth j xs fzero) (nth (@topk_index F K xs) xs fzero) = true.

(** [text.replace('\n', ' ')] *)
Fixpoint replace_newline (s : string) : string :=
  match s with
  | EmptyString => EmptyString
  | String c s' =>
      String (if Ascii.eqb c "010"%char then " "%char else c)
             (replace_newline s')
  end.

(** ** Generic tensor operations *)

Section TensorOps.
Context {A : Type}.

(** The rows along the last axis. A tensor of rank zero is one row of one
    element. *)
Definition rows (t : tensor A) : list (list A) :=
  let v := last (shape t) 1 in
  map (fun r => chunk v r (data t))
      (seq 0 (numel (removelast (shape t)))).

(** [t[:, -1, :]] *)
Definition select_last_1 (t : tensor A) : result (tensor A) :=
  match shape t with
  | b :: s :: v :: rest =>
      if s =? 0 then Raise IndexError
      else
        let inner := numel (v :: rest) in
        Ok (Tensor (b :: v :: rest)
              (concat (map (fun i => chunk inner (i * s + (s - 1)) (data t))
                           (seq 0 b))))
  | _ => Raise IndexError
  end.

(** [t[i, :]] for a non-negative [i] *)
Definition select_0 (i : nat) (t : tensor A) : result (tensor A) :=
  match shape t with
  | n :: c :: rest =>
      if i <? n then
        Ok (Tensor (c :: rest) (chunk (numel (c :: rest)) i (data t)))
      else Raise IndexError
  | _ => Raise IndexError
  end.

(** [t[k]] for a Python integer [k] *)
Definition index_0 (k : Z) (t : tensor A) : result (tensor A) :=
  match shape t with
  | n :: rest =>
      let k' := (if k <? 0 then k + Z.of_nat n else k)%Z in
      if ((k' <? 0) || (Z.of_nat n <=? k'))%Z then Raise IndexError
      else Ok (Tensor rest (chunk (numel rest) (Z.to_nat k') (data t)))
  | [] => Raise IndexError
  end.

(** [t.item()] *)
Definition item (t : tensor A) : result A :=
  match data t with
  | [x] => if numel (shape t) =? 1 then Ok x else Raise RuntimeError
  | _ => Raise RuntimeError
  end.

(** [t.shape[0]] *)
Definition size_0 (t : tensor A) : result nat :=
  match shape t with
  | n :: _ => Ok n
  | [] => Raise IndexError
  end.

(** [torch.cat((t1, t2), dim)] for a non-negative [dim].  A tensor of
    shape [(0,)] is skipped, as the library does. *)
Definition cat (dim : nat) (t1 t2 : tensor A) : result (tensor A) :=
  if list_eq_dec Nat.eq_dec (shape t1) [0] then Ok t2
  else if list_eq_dec Nat.eq_dec (shape t2) [0] then Ok t1
  else if negb (dim <? rank t1) || negb (dim <? rank t2) then Raise IndexError
  else if negb (rank t1 =? rank t2) then Raise RuntimeError
  else if list_eq_dec Nat.eq_dec (firstn dim (shape t1)) (firstn dim (shape t2))
  then
    if list_eq_dec Nat.eq_dec (skipn (S dim) (shape t1))
                              (skipn (S dim) (shape t2))
    then
      let outer := numel (firstn dim (shape t1)) in
      let inner := numel (skipn (S dim) (shape t1)) in
      let s1 := nth dim (shape t1) 0 in
      let s2 := nth dim (shape t2) 0 in
      Ok (Tensor (firstn dim (shape t1) ++ (s1 + s2) :: skipn (S dim) (shape t1))
            (concat (map (fun o => chunk (s1 * inner) o (data t1) ++
                                   chunk (s2 * inner) o (data t2))
                         (seq 0 outer))))
    else Raise RuntimeError
  else Raise RuntimeError.

(** [t.tolist()] handed to a consumer of flat sequences *)
Definition tolist (t : tensor A) : result (list A) :=
  match shape t with
  | [_] => Ok (data t)
  | _ => Raise TypeError
  end.
End TensorOps.

(** ** Numeric operations *)

Section Numeric.
Context {F : Type} `{Scalar F}.

Definition fsum (l : list F) : F := fold_left fadd l fzero.

(** [softmax(x)_i = exp(x_i) / sum_j exp(x_j)] *)
Definition softmax_row (xs : list F) : list F :=
  let es := map fexp xs in
  map (fun e => fdiv e (fsum es)) es.

Definition log_softmax_row (xs : list F) : list F :=
  map flog (softmax_row xs).

(** [F.softmax(t, dim=-1)] and [t.log_softmax(-1)] *)
Definition softmax (t : tensor F) : tensor F :=
  Tensor (shape t) (concat (map softmax_row (rows t))).

Definition log_softmax (t : tensor F) : tensor F :=
  Tensor (shape t) (concat (map log_softmax_row (rows t))).

(** [nn.Embedding]: a table of [num_embeddings] rows of [embedding_dim]
    scalars each. *)
Record embedding : Type := Embedding {
  num_embeddings : nat;
  embedding_dim : nat;
  weight : list F
}.

Definition wf_embedding (e : embedding) : Prop :=
  length (weight e) = num_embeddings e * embedding_dim e.

Definition dot (xs ys : list F) : F :=
  fsum (map (fun p => fmul (fst p) (snd p)) (combine xs ys)).

Definition column (e : embedding) (j : nat) : list F :=
  map (fun i => nth (i * embedding_dim e + j) (weight e) fzero)
      (seq 0 (num_embeddings e)).

Definition vecmat (p : list F) (e : embedding) : list F :=
  map (fun j => dot p (column e j)) (seq 0 (embedding_dim e)).

(** [torch.matmul(probs, embedding.weight)] *)
Definition matmul (probs : tensor F) (e : embedding) : result (tensor F) :=
  match shape probs with
  | [] => Raise RuntimeError
  | _ :: _ =>
      if last (shape probs) 0 =? num_embeddings e then
        Ok (Tensor (removelast (shape probs) ++ [embedding_dim e])
              (concat (map (fun p => vecmat p e) (rows probs))))
      else Raise RuntimeError
  end.

(** [torch.sum(- probs * torch.log(probs))] *)
Definition entropy (probs : tensor F) : F :=
  fsum (map (fun p => fmul (fneg p) (flog p)) (data probs)).

(** [embed_inputs]; moving [probs] to a device changes neither its shape
    nor its elements and is left out. *)
Definition embed_inputs (e : embedding) (logits : tensor F)
    (print_entropy : bool) : M F (tensor F) :=
  let probs := softmax logits in
  _ <- (if print_entropy then print (entropy probs) else ret tt) ;;
  lift (matmul probs e).

(** Index of the first greatest element. *)
Fixpoint argmax_from (best_i : nat) (best : F) (i : nat) (xs : list F)
    : nat :=
  match xs with
  | [] => best_i
  | x :: xs' =>
      if fleb x best then argmax_from best_i best (S i) xs'
      else argmax_from i x (S i) xs'
  end.

Definition argmax_list (xs : list F) : option nat :=
  match xs with
  | [] => None
  | x :: xs' => Some (argmax_from 0 x 1 xs')
  end.

Definition top1 (xs : list F) : Z :=
  match argmax_list xs with
  | Some i => Z.of_nat i
  | None => 0%Z
  end.

(** [torch.argmax(t)]: the index into the flattened tensor, as a tensor
    of rank zero. *)
Definition argmax (t : tensor F) : result (tensor Z) :=
  match argmax_list (data t) with
  | Some i => Ok (Tensor [] [Z.of_nat i])
  | None => Raise IndexError
  end.

(** Two selections a top-k may make among equal scores: the first and
    the last index of a greatest one. *)
Definition first_greatest : TopK F :=
  {| topk_index := fun xs => Z.to_nat (top1 xs) |}.

Definition last_greatest : TopK F :=
  {| topk_index := fun xs => length xs - 1 - Z.to_nat (top1 (rev xs)) |}.

Context {K : TopK F}.

(** [_greedy]: the index part of [torch.topk(logits, k=1, dim=-1)]. *)
Definition _greedy (logits : tensor F) : result (tensor Z) :=
  match shape logits with
  | [] => Ok (Tensor [] [0%Z])
  | _ :: _ =>
      if last (shape logits) 0 =? 0 then Raise RuntimeError
      else Ok (Tensor (removelast (shape logits) ++ [1])
                 (map (fun row => Z.of_nat (topk_index row)) (rows logits)))
  end.

(** *** Transcript reconstruction *)

Record text_state : Type := TextState {
  output_so_far : option (tensor Z);
  logp : F
}.

Definition text_body (logits : tensor F) (i : nat) (st : text_state)
    : result text_state :=
  row <~ select_0 i logits ;;
  last <~ _greedy row ;;
  out <~ match output_so_far st with
         | None => Ok last
         | Some acc => cat 0 acc last
         end ;;
  k <~ item last ;;
  lp <~ index_0 k (log_softmax row) ;;
  x <~ item lp ;;
  Ok (TextState (Some out) (fadd (logp st) x)).

Definition get_text_from_logits (logits : tensor F)
    (decode : list Z -> string) : result (string * F * tensor Z) :=
  n <~ size_0 logits ;;
  st <~ for_index (seq 0 n) (text_body logits) (TextState None fzero) ;;
  let nll := fneg (logp st) in
  match output_so_far st with
  | None => Raise AttributeError
  | Some out =>
      ids <~ tolist out ;;
      let text := decode ids in
      let text := replace_newline text in
      Ok (text, nll, out)
  end.

(** *** The external language model *)

Section Model.
Variable Past : Type.

Inductive model_input : Type :=
| InputIds (input_ids : tensor Z)
| InputsEmbeds (inputs_embeds : tensor F).

Record model_outputs : Type := ModelOutputs {
  logits : tensor F;
  past_key_values : option Past
}.

Record lm : Type := LM {
  forward : option Past -> model_input -> result model_outputs;
  get_input_embeddings : embedding
}.

Definition div_by (temperature : F) (t : tensor F) : tensor F :=
  tmap (fun x => fdiv x temperature) t.

Definition to_float (t : tensor Z) : tensor F := tmap of_long t.

Record soft_state : Type := SoftState {
  past : option Past;
  inputs_embeds1 : option (tensor F);
  logits_so_far : option (tensor F)
}.

Definition soft_init : soft_state := SoftState None None None.

Definition call_embeds (model : lm) (p : option Past)
    (e : option (tensor F)) : result model_outputs :=
  match e with
  | None => Raise ValueError
  | Some e => forward model p (InputsEmbeds e)
  end.

(** The part of the loop body shared by the three soft loops: from the
    forward pass to the end of the iteration. *)
Definition soft_tail (model : lm) (temperature : F) (p : option Past)
    (e : option (tensor F)) (acc : option (tensor F))
    : M F soft_state :=
  model_outputs <- lift (call_embeds model p e) ;;
  let past := past_key_values model_outputs in
  l <- lift (select_last_1 (logits model_outputs)) ;;
  let l := div_by temperature l in
  l <- lift (unsqueeze 1 l) ;;
  acc' <- lift (match acc with
                | None => Ok l
                | Some a => cat 1 a l
                end) ;;
  e' <- embed_inputs (get_input_embeddings model) l false ;;
  ret (SoftState past (Some e') (Some acc')).

(** Body of the loop of [decode_with_embeddings] (and of
    [decode_with_one_hot], which has the same text). *)
Definition soft_body (model : lm) (input_one_hot1 : tensor Z)
    (temperature : F) (st : soft_state) : M F soft_state :=
  e <- match past st with
       | None =>
           e <- embed_inputs (get_input_embeddings model)
                  (div_by temperature (to_float input_one_hot1)) true ;;
           ret (Some e)
       | Some _ => ret (inputs_embeds1 st)
       end ;;
  soft_tail model temperature (past st) e (logits_so_far st).

Definition decode_with_embeddings (model : lm) (length : Z)
    (input_one_hot1 : tensor Z) (temperature : F)
    : M F (option (tensor F)) :=
  st <- for_range (Z.to_nat length)
          (soft_body model input_one_hot1 temperature) soft_init ;;
  ret (logits_so_far st).

Definition decode_with_one_hot (model : lm) (length : Z)
    (input_one_hot1 : tensor Z) (temperature : F)
    : M F (option (tensor F)) :=
  st <- for_range (Z.to_nat length)
          (soft_body model input_one_hot1 temperature) soft_init ;;
  ret (logits_so_far st).

(** Body of the loop of [decode_with_embedding]: the prompt arrives
    already embedded. *)
Definition embedding_body (model : lm) (temperature : F)
    (prompt_embedding : tensor F) (st : soft_state) : M F soft_state :=
  let e := match past st with
           | None => Some prompt_embedding
           | Some _ => inputs_embeds1 st
           end in
  soft_tail model temperature (past st) e (logits_so_far st).

Definition decode_with_embedding (model : lm) (length : Z)
    (temperature : F) (prompt_embedding : tensor F)
    : M F (option (tensor F)) :=
  st <- for_range (Z.to_nat length)
          (embedding_body model temperature prompt_embedding) soft_init ;;
  ret (logits_so_far st).

(** *** Arg-max decoding *)

Record argmax_state : Type := ArgmaxState {
  input_ids1 : tensor Z;
  am_logits_so_far : option (tensor F)
}.

Definition argmax_body (model : lm) (st : argmax_state)
    : M F argmax_state :=
  model_outputs <- lift (forward model None (InputIds (input_ids1 st))) ;;
  l <- lift (select_last_1 (logits model_outputs)) ;;
  l <- lift (unsqueeze 1 l) ;;
  acc' <- lift (match am_logits_so_far st with
                | None => Ok l
                | Some a => cat 1 a l
                end) ;;
  next_token <- lift (argmax l) ;;
  t1 <- lift (unsqueeze 0 next_token) ;;
  t2 <- lift (unsqueeze 0 t1) ;;
  ids <- lift (cat 1 (input_ids1 st) t2) ;;
  ret (ArgmaxState ids (Some acc')).

Definition decode_with_argmax (model : lm) (length : Z)
    (input_ids : tensor Z) : M F (option (tensor F)) :=
  st <- for_range (Z.to_nat length) (argmax_body model)
          (ArgmaxState input_ids None) ;;
  ret (am_logits_so_far st).
End Model.
End Numeric.

(** ** Instances of the scalar arithmetic *)

(** Exact real arithmetic: the arithmetic the numeric laws are stated in.
    The tensors of the code hold rounded floating-point numbers; rounding,
    underflow, infinities and not-a-number values are not part of this
    arithmetic, and a division by zero gives zero here. *)
#[export] Instance RScalar : Scalar R := {|
  fzero := 0%R;
  fadd := Rplus;
  fmul := Rmult;
  fdiv := Rdiv;
  fneg := Ropp;
  fexp := exp;
  flog := ln;
  fleb := fun x y => if Rle_dec x y then true else false;
  of_long := IZR
|}.

(** A computable arithmetic on the integers, with base-two exponential and
    logarithm and truncating division, on which the loops can be run. *)
#[export] Instance ZScalar : Scalar Z := {|
  fzero := 0%Z;
  fadd := Z.add;
  fmul := Z.mul;
  fdiv := Z.div;
  fneg := Z.opp;
  fexp := fun x => (2 ^ x)%Z;
  flog := Z.log2;
  fleb := Z.leb;
  of_long := fun x => x
|}.

(** ** The probability-weighted sum of the rows of an embedding table *)

Section WeightedSum.
Context {F : Type} `{Scalar F}.

Definition table_rows (e : embedding) : list (list F) :=
  map (fun i => chunk (embedding_dim e) i (weight e))
      (seq 0 (num_embeddings e)).

Definition vadd (xs ys : list F) : list F :=
  map (fun p => fadd (fst p) (snd p)) (combine xs ys).

Definition scale (c : F) (xs : list F) : list F := map (fmul c) xs.

(** [p_0 * row_0 + p_1 * row_1 + ...], accumulated from the zero vector. *)
Definition weighted_sum (d : nat) (p : list F) (table : list (list F))
    : list F :=
  fold_left (fun acc pr => vadd acc (scale (fst pr) (snd pr)))
            (combine p table) (repeat fzero d).
End WeightedSum.

(** ** The transcript of a logits sequence, step by step *)

Section Transcript.
Context {F : Type} `{Scalar F} {K : TopK F}.

(** The log-probability of the top-1 token of a step under the softmax
    distribution of that step. *)
Definition step_log_prob (row : list F) : F :=
  flog (nth (topk_index row) (softmax_row row) fzero).

Definition transcript_tokens (steps : list (list F)) : list Z :=
  map (fun row => Z.of_nat (topk_index row)) steps.

Definition transcript_nll (steps : list (list F)) : F :=
  fneg (fold_left fadd (map step_log_prob steps) fzero).

Definition transcript_text (decode : list Z -> string)
    (steps : list (list F)) : string :=
  replace_newline (decode (transcript_tokens steps)).

(** The accumulated token ids as the loop holds them: nothing before the
    first step, a tensor of rank one afterwards. *)
Definition as_output (toks : list Z) : option (tensor Z) :=
  match toks with
  | [] => None
  | _ :: _ => Some (Tensor [length toks] toks)
  end.
End Transcript.

Definition newline : ascii := "010"%char.

(** ** The decoding loops, step by step *)

Section DecodingSteps.
Context {F : Type} `{Scalar F} {Past : Type}.
Variable model : @lm F Past.

Definition append_step (acc : option (tensor F)) (l : tensor F)
    : result (tensor F) :=
  match acc with
  | None => Ok l
  | Some a => cat 1 a l
  end.

(** Soft decoding from a current embedded input [x] and a cached state
    [p]: forward pass; the last-position logits, divided by the
    temperature, are appended; the appended logits are embedded again,
    with no further scaling, and are the next embedded input. *)
Fixpoint soft_steps (temperature : F) (n : nat) (p : option Past)
    (x : tensor F) (acc : option (tensor F)) : result (option (tensor F)) :=
  match n with
  | 0 => Ok acc
  | S n' =>
      out <~ forward model p (InputsEmbeds x) ;;
      last <~ select_last_1 (logits out) ;;
      scaled <~ unsqueeze 1 (div_by temperature last) ;;
      acc' <~ append_step acc scaled ;;
      x' <~ outcome (embed_inputs (get_input_embeddings model) scaled false) ;;
      soft_steps temperature n' (past_key_values out) x' (Some acc')
  end.

(** Soft decoding whose step 0 divides the prompt representation by the
    temperature and projects it into embedding space. *)
Definition soft_decoding_spec (temperature : F) (n : nat)
    (prompt : tensor F) : result (option (tensor F)) :=
  x0 <~ outcome (embed_inputs (get_input_embeddings model)
                   (div_by temperature prompt) true) ;;
  soft_steps temperature n None x0 None.

(** A model that hands back a cached state from every forward pass. *)
Definition returns_cache : Prop :=
  forall p x out, forward model p x = Ok out -> past_key_values out <> None.

(** The last-position logits of a forward pass, without cached state, on
    a full token-id sequence. *)
Definition next_logits (ids : list Z) : list F :=
  match forward model None (InputIds (Tensor [1; length ids] ids)) with
  | Ok out => last (rows (logits out)) []
  | Raise _ => []
  end.

(** Arg-max decoding: the logits appended by [n] steps from the token ids
    [ids], and the token ids after these steps. *)
Fixpoint greedy_steps (n : nat) (ids : list Z) : list (list F) :=
  match n with
  | 0 => []
  | S n' =>
      let row := next_logits ids in
      row :: greedy_steps n' (ids ++ [top1 row])
  end.

Fixpoint greedy_ids (n : nat) (ids : list Z) : list Z :=
  match n with
  | 0 => ids
  | S n' => greedy_ids n' (ids ++ [top1 (next_logits ids)])
  end.

(** The logits-so-far as the loops hold them: nothing before the first
    step, afterwards a tensor with one position per step. *)
Definition as_logits (V : nat) (steps : list (list F))
    : option (tensor F) :=
  match steps with
  | [] => None
  | _ :: _ => Some (Tensor [1; length steps; V] (concat steps))
  end.
End DecodingSteps.

(** ** A small language model

    A stand-in for the external network, used to run the loops: its logits
    are all zero over a vocabulary of the size of its embedding table, and
    every forward pass hands back a cached state. *)

Section ZeroModel.
Context {F : Type} `{Scalar F}.

Definition zero_logits (e : @embedding F) (input : @model_input F)
    : tensor F :=
  let sh := match input with
            | InputIds ids => shape ids
            | InputsEmbeds x => removelast (shape x)
            end in
  Tensor (sh ++ [num_embeddings e])
         (repeat fzero (numel sh * num_embeddings e)).

Definition zero_model (e : @embedding F) : @lm F unit :=
  LM (fun _ input => Ok (ModelOutputs (zero_logits e input) (Some tt))) e.
End ZeroModel.

(** A model over the integers whose logits depend on its input: at every
    position the scores are [x; 5 - x; 1], where [x] is the token id, or
    the first coordinate of the embedded input. *)
Definition ramp_model (e : @embedding Z) : @lm Z unit :=
  LM (fun _ input =>
        match input with
        | InputIds ids =>
            Ok (ModelOutputs
                  (Tensor (shape ids ++ [3])
                     (flat_map (fun x => [x; 5 - x; 1]%Z) (data ids)))
                  (Some tt))
        | InputsEmbeds x =>
            let d := last (shape x) 1 in
            Ok (ModelOutputs
                  (Tensor (removelast (shape x) ++ [3])
                     (flat_map
                        (fun r => let v := nth 0 (chunk d r (data x)) 0%Z in
                                  [v; 5 - v; 1]%Z)
                        (seq 0 (numel (removelast (shape x))))))
                  (Some tt))
        end) e.

Definition ramp_table : @embedding Z := Embedding 3 2 [4; 0; 0; 1; 1; 1]%Z.

(** ** What the loops expect from the external model *)

Section ModelInterface.
Context {F : Type} `{Scalar F} {Past : Type}.
Variable model : @lm F Past.

(** On embedded inputs of batch size [B] the forward pass returns logits
    over a vocabulary of [V] entries for every input position. *)
Definition respects_embeds_shape (B V : nat) : Prop :=
  forall p x s,
    shape x = [B; s; embedding_dim (get_input_embeddings model)] ->
    wf x -> 0 < s ->
    exists out,
      forward model p (InputsEmbeds x) = Ok out /\
      shape (logits out) = [B; s; V] /\
      wf (logits out).

(** The same on a single sequence of token ids, without cached state. *)
Definition respects_ids_shape (V : nat) : Prop :=
  forall ids s,
    shape ids = [1; s] -> wf ids -> 0 < s ->
    exists out,
      forward model None (InputIds ids) = Ok out /\
      shape (logits out) = [1; s; V] /\
      wf (logits out).

(** The logits-so-far hold one position per step taken. *)
Definition records_steps (B V k : nat) (acc : option (tensor F)) : Prop :=
  match acc with
  | None => k = 0
  | Some t => 0 < k /\ shape t = [B; k; V] /\ wf t
  end.

(** What holds of the state of a soft decoding loop after [k] iterations:
    the steps are recorded, no cached state is held before the first one,
    and afterwards the next embedded input has one position. *)
Definition soft_inv (B V k : nat) (st : @soft_state F Past) : Prop :=
  records_steps B V k (logits_so_far st) /\
  (k = 0 -> past st = None) /\
  (0 < k ->
   exists x, inputs_embeds1 st = Some x /\
             shape x = [B; 1; embedding_dim (get_input_embeddings model)] /\
             wf x).
End ModelInterface.

(** ** The callers of the loops *)

(** [t[i, :, :]] for a non-negative [i] *)
Definition select_0_2 {A} (i : nat) (t : tensor A) : result (tensor A) :=
  match shape t with
  | n :: a :: b :: rest =>
      if i <? n then
        Ok (Tensor (a :: b :: rest) (chunk (numel (a :: b :: rest)) i (data t)))
      else Raise IndexError
  | _ => Raise IndexError
  end.

Section Callers.
Context {F : Type} `{Scalar F} {K : TopK F} {Past : Type}.

(** [get_text_from_logits(logits_so_far[0, :, :], tokenizer)], on what a
    decoding loop returned. *)
Definition first_transcript (logits_so_far : option (tensor F))
    (decode : list Z -> string) : result (string * F * tensor Z) :=
  match logits_so_far with
  | None => Raise TypeError
  | Some t =>
      first <~ select_0_2 0 t ;;
      get_text_from_logits first decode
  end.

(** The two calls in the body of the loop of [experiment1], for one
    temperature, and the two calls of [experiment2]; the length of the
    generation is a parameter. *)
Definition soft_transcript (model : @lm F Past) (length : Z)
    (input_one_hot : tensor Z) (temperature : F)
    (decode : list Z -> string) : M F (string * F * tensor Z) :=
  logits_so_far <- decode_with_embeddings model length input_one_hot
                     temperature ;;
  lift (first_transcript logits_so_far decode).

Definition argmax_transcript (model : @lm F Past) (length : Z)
    (input_ids : tensor Z) (decode : list Z -> string)
    : M F (string * F * tensor Z) :=
  logits_so_far <- decode_with_argmax model length input_ids ;;
  lift (first_transcript logits_so_far decode).

(** [input_embeddings2] of [query_via_embeddings]: the one-hot tensor of
    the token ids, projected by [embed_inputs]. *)
Definition input_embeddings2 (e : @embedding F) (input_ids : tensor Z)
    (vocab_size : Z) : M F (tensor F) :=
  input_ids_one_hot <- lift (one_hot input_ids vocab_size) ;;
  embed_inputs e (to_float input_ids_one_hot) false.

(** [embedding(input_ids)]: the rows of the table at the token ids. *)
Definition lookup (e : @embedding F) (input_ids : tensor Z)
    : result (tensor F) :=
  if forallb (fun x => (0 <=? x)%Z && (x <? Z.of_nat (num_embeddings e))%Z)
             (data input_ids)
  then
    Ok (Tensor (shape input_ids ++ [embedding_dim e])
          (flat_map (fun x => chunk (embedding_dim e) (Z.to_nat x) (weight e))
                    (data input_ids)))
  else Raise IndexError.

(** [t.squeeze()]: every axis of size one is dropped. *)
Definition squeeze (t : tensor F) : tensor F :=
  Tensor (filter (fun n => negb (n =? 1)) (shape t)) (data t).

(** [inputs_embeds] of [query_via_embeddings]:
    [model.transformer.wte(input_ids).squeeze()]. *)
Definition inputs_embeds_squeezed (e : @embedding F) (input_ids : tensor Z)
    : result (tensor F) :=
  x <~ lookup e input_ids ;;
  Ok (squeeze x).

(** A model run without cached state: its forward pass, with
    [past_key_values] left out of what it returns. *)
Definition without_cache (model : @lm F Past) : @lm F Past :=
  LM (fun p input =>
        o <~ forward model p input ;;
        Ok (ModelOutputs (logits o) None))
     (get_input_embeddings model).
End Callers.

(** ** Tensors as stored objects

    A tensor of the library is an object on a storage, and several tensors
    can share one: indexing returns a view on the storage of its argument,
    an in-place operation writes to it, and every other operation
    allocates the storage of its result.  Transcript reconstruction is
    embedded a second time on such a store, to follow what it does to the
    tensors it is given. *)

Module Stored.
Section Store.
Context {F : Type} `{Scalar F} {K : TopK F}.

Inductive storage : Type :=
| FloatStorage (xs : list F)
| LongStorage (xs : list Z).

(** The storages allocated so far, by address; an allocation appends. *)
Definition store : Type := list storage.

(** A tensor object: the address of its storage, the offset of its first
    element there, and its shape. *)
Record tref : Type := TRef {
  base : nat;
  offset : nat;
  view_shape : list nat
}.

Definition ST (A : Type) : Type := store -> store * result A.

Definition sret {A} (a : A) : ST A := fun s => (s, Ok a).

Definition sbind {A B} (m : ST A) (f : A -> ST B) : ST B :=
  fun s =>
    match m s with
    | (s', Ok a) => f a s'
    | (s', Raise e) => (s', Raise e)
    end.

Definition slift {A} (r : result A) : ST A := fun s => (s, r).

Notation "x <-- c ;; k" := (sbind c (fun x => k))
  (at level 61, c at next level, right associativity) : monad_scope.

(** The elements of a storage that a tensor object covers. *)
Definition window {A} (r : tref) (xs : list A) : tensor A :=
  Tensor (view_shape r) (firstn (numel (view_shape r)) (skipn (offset r) xs)).

Definition read_float (r : tref) : ST (tensor F) :=
  fun s =>
    (s, match nth_error s (base r) with
        | Some (FloatStorage xs) => Ok (window r xs)
        | _ => Raise RuntimeError
        end).

Definition read_long (r : tref) : ST (tensor Z) :=
  fun s =>
    (s, match nth_error s (base r) with
        | Some (LongStorage xs) => Ok (window r xs)
        | _ => Raise RuntimeError
        end).

Definition new_float (t : tensor F) : ST tref :=
  fun s => (s ++ [FloatStorage (data t)], Ok (TRef (length s) 0 (shape t))).

Definition new_long (t : tensor Z) : ST tref :=
  fun s => (s ++ [LongStorage (data t)], Ok (TRef (length s) 0 (shape t))).

(** [r[i, :]] and [r[k]]: views, on the storage of [r]. *)
Definition view_select_0 (i : nat) (r : tref) : result tref :=
  match view_shape r with
  | n :: c :: rest =>
      if i <? n then
        Ok (TRef (base r) (offset r + i * numel (c :: rest)) (c :: rest))
      else Raise IndexError
  | _ => Raise IndexError
  end.

Definition view_index_0 (k : Z) (r : tref) : result tref :=
  match view_shape r with
  | n :: rest =>
      let k' := (if k <? 0 then k + Z.of_nat n else k)%Z in
      if ((k' <? 0) || (Z.of_nat n <=? k'))%Z then Raise IndexError
      else Ok (TRef (base r) (offset r + Z.to_nat k' * numel rest) rest)
  | [] => Raise IndexError
  end.

Definition size_0 (r : tref) : result nat :=
  match view_shape r with
  | n :: _ => Ok n
  | [] => Raise IndexError
  end.

(** [r.zero_()]: zeros are written to the cells of the storage that [r]
    covers. *)
Definition zero_cells {A} (z : A) (r : tref) (xs : list A) : list A :=
  firstn (offset r) xs ++
  map (fun _ => z) (firstn (numel (view_shape r)) (skipn (offset r) xs)) ++
  skipn (offset r + numel (view_shape r)) xs.

Definition zero_ (r : tref) : ST unit :=
  fun s =>
    match nth_error s (base r) with
    | Some (FloatStorage xs) =>
        (update s (base r) (FloatStorage (zero_cells fzero r xs)), Ok tt)
    | Some (LongStorage xs) =>
        (update s (base r) (LongStorage (zero_cells 0%Z r xs)), Ok tt)
    | None => (s, Raise RuntimeError)
    end.

(** The library calls of transcript reconstruction: each reads its
    arguments and allocates its result. *)
Definition _greedy (logits : tref) : ST tref :=
  t <-- read_float logits ;;
  last <-- slift (_greedy t) ;;
  new_long last.

Definition cat (dim : nat) (r1 r2 : tref) : ST tref :=
  t1 <-- read_long r1 ;;
  t2 <-- read_long r2 ;;
  t <-- slift (cat dim t1 t2) ;;
  new_long t.

Definition log_softmax (r : tref) : ST tref :=
  t <-- read_float r ;;
  new_float (log_softmax t).

Definition item_long (r : tref) : ST Z :=
  t <-- read_long r ;;
  slift (item t).

Definition item_float (r : tref) : ST F :=
  t <-- read_float r ;;
  slift (item t).

Definition tolist (r : tref) : ST (list Z) :=
  t <-- read_long r ;;
  slift (tolist t).

Fixpoint for_index {S} (idx : list nat) (body : nat -> S -> ST S) (s : S)
    : ST S :=
  match idx with
  | [] => sret s
  | i :: idx' => s' <-- body i s ;; for_index idx' body s'
  end.

Record text_state : Type := TextState {
  output_so_far : option tref;
  logp : F
}.

Definition text_body (logits : tref) (i : nat) (st : text_state)
    : ST text_state :=
  row <-- slift (view_select_0 i logits) ;;
  last <-- _greedy row ;;
  out <-- match output_so_far st with
          | None => sret last
          | Some acc => cat 0 acc last
          end ;;
  row' <-- slift (view_select_0 i logits) ;;
  lsm <-- log_softmax row' ;;
  k <-- item_long last ;;
  lp <-- slift (view_index_0 k lsm) ;;
  x <-- item_float lp ;;
  sret (TextState (Some out) (fadd (logp st) x)).

Definition get_text_from_logits (logits : tref)
    (decode : list Z -> string) : ST (string * F * tref) :=
  n <-- slift (size_0 logits) ;;
  st <-- for_index (seq 0 n) (text_body logits) (TextState None fzero) ;;
  let nll := fneg (logp st) in
  match output_so_far st with
  | None => slift (Raise AttributeError)
  | Some out =>
      ids <-- tolist out ;;
      let text := decode ids in
      let text := replace_newline text in
      sret (text, nll, out)
  end.

(** A run on the store returns what a computation on tensor values
    returns: the same text and likelihood and a tensor object holding the
    same token ids, or the same exception. *)
Definition returns_as (s : store) (r : result (string * F * tref))
    (v : result (string * F * tensor Z)) : Prop :=
  match r, v with
  | Ok (text, nll, out), Ok (text', nll', ids) =>
      text = text' /\ nll = nll' /\ snd (read_long out s) = Ok ids
  | Raise e, Raise e' => e = e'
  | _, _ => False
  end.
End Store.
End Stored.

Section StoredValues.
Context {F : Type} `{Scalar F}.

(** The state of the loop on the store holds what the state of the loop
    on tensor values holds. *)
Definition holds_state (s : @Stored.store F) (st : @Stored.text_state F)
    (v : @text_state F) : Prop :=
  Stored.logp st = logp v /\
  match Stored.output_so_far st, output_so_far v with
  | None, None => True
  | Some out, Some t =>
      snd (Stored.read_long out s) = Ok t /\
      length (data t) <= numel (shape t)
  | _, _ => False
  end.
End StoredValues.

(** * Properties *)

Unset Implicit Arguments.

(** ** Lists, blocks and the flat storage *)

Lemma update_app_r {A} (l1 l2 : list A) k v :
  update (l1 ++ l2) (length l1 + k) v = l1 ++ update l2 k v.
Proof.
  induction l1 as [|x l1 IH]; simpl; [reflexivity | now rewrite IH].
Qed.

Lemma update_app_l {A} (l1 l2 : list A) k v :
  k < length l1 -> update (l1 ++ l2) k v = update l1 k v ++ l2.
Proof.
  revert k; induction l1 as [|x l1 IH]; intros [|k] Hk; simpl in *;
    try lia; [reflexivity | now rewrite IH by lia].
Qed.

Lemma concat_length_uniform {A} (ls : list (list A)) n :
  Forall (fun l => length l = n) ls ->
  length (concat ls) = length ls * n.
Proof.
  induction 1 as [|l ls Hl _ IH]; simpl; [reflexivity|].
  rewrite length_app, IH, Hl; reflexivity.
Qed.

Lemma nth_concat_uniform {A} (ls : list (list A)) n p k (d : A) :
  Forall (fun l => length l = n) ls ->
  k < n ->
  nth (p * n + k) (concat ls) d = nth k (nth p ls []) d.
Proof.
  intros Hall Hk; revert p; induction Hall as [|l ls Hl _ IH]; intros p.
  - simpl; destruct (p * n + k), p, k; reflexivity.
  - destruct p as [|p]; simpl.
    + rewrite app_nth1 by lia; reflexivity.
    + rewrite app_nth2 by lia.
      replace (n + p * n + k - length l) with (p * n + k) by lia.
      apply IH.
Qed.

Lemma firstn_snoc {A} m (l : list A) (d : A) :
  m < length l -> firstn (S m) l = firstn m l ++ [nth m l d].
Proof.
  revert m; induction l as [|x l IH]; intros m Hm; simpl in Hm; [lia|].
  destruct m as [|m]; [reflexivity|].
  cbn [firstn nth app]; f_equal; apply IH; lia.
Qed.

Lemma chunk_length {A} n i (l : list A) :
  (i + 1) * n <= length l -> length (chunk n i l) = n.
Proof.
  intros Hl; unfold chunk.
  rewrite length_firstn, length_skipn; lia.
Qed.

Lemma chunk_concat_uniform {A} (ls : list (list A)) n p :
  Forall (fun l => length l = n) ls ->
  p < length ls ->
  chunk n p (concat ls) = nth p ls [].
Proof.
  intros Hall; revert p; induction Hall as [|l ls Hl Hall IH]; intros p Hp.
  - simpl in Hp; lia.
  - unfold chunk in *; destruct p as [|p]; simpl concat; simpl nth.
    + simpl; rewrite firstn_app, <- Hl, firstn_all, Nat.sub_diag.
      simpl; apply app_nil_r.
    + replace (S p * n) with (length l + p * n) by (simpl; lia).
      rewrite skipn_app, skipn_all2 by lia.
      replace (length l + p * n - length l) with (p * n) by lia.
      simpl in Hp; apply IH; lia.
Qed.

Lemma chunk_0_all {A} n (l : list A) : length l = n -> chunk n 0 l = l.
Proof.
  intros <-; unfold chunk; simpl; apply firstn_all.
Qed.

(** ** One-hot construction *)

Example one_hot_123 :
  one_hot (Tensor [1; 3] [1; 2; 3]%Z) 5 =
  Ok (Tensor [1; 3; 5]
        [0; 1; 0; 0; 0;
         0; 0; 1; 0; 0;
         0; 0; 0; 1; 0]%Z).
Proof. reflexivity. Qed.

Lemma indicator_length d x : length (indicator d x) = d.
Proof. unfold indicator; now rewrite length_map, length_seq. Qed.

Lemma nth_indicator d x k :
  k < d -> nth k (indicator d x) 0%Z = if (Z.of_nat k =? x)%Z then 1%Z else 0%Z.
Proof.
  intros Hk; unfold indicator.
  set (f := fun k => if (Z.of_nat k =? x)%Z then 1%Z else 0%Z).
  rewrite (nth_indep _ 0%Z (f 0)) by (now rewrite length_map, length_seq).
  rewrite map_nth, seq_nth by assumption; reflexivity.
Qed.

Lemma indicator_miss (x : Z) s d :
  (x < Z.of_nat s)%Z ->
  map (fun k => if (Z.of_nat k =? x)%Z then 1%Z else 0%Z) (seq s d) =
  repeat 0%Z d.
Proof.
  revert s; induction d as [|d IH]; intros s Hs; simpl; [reflexivity|].
  destruct (Z.eqb_spec (Z.of_nat s) x); [lia|].
  f_equal; apply IH; lia.
Qed.

Lemma update_repeat_from n s d :
  n < d ->
  update (repeat 0%Z d) n 1%Z =
  map (fun k => if (Z.of_nat k =? Z.of_nat (s + n))%Z then 1%Z else 0%Z)
      (seq s d).
Proof.
  revert n s; induction d as [|d IH]; intros n s Hn; [lia|].
  destruct n as [|n]; simpl.
  - rewrite Nat.add_0_r, Z.eqb_refl; f_equal.
    symmetry; apply indicator_miss; lia.
  - destruct (Z.eqb_spec (Z.of_nat s) (Z.of_nat (s + S n))); [lia|].
    f_equal; rewrite (IH n (S s)) by lia.
    replace (S s + n) with (s + S n) by lia; reflexivity.
Qed.

Lemma update_repeat_indicator d x :
  (0 <= x < Z.of_nat d)%Z ->
  update (repeat 0%Z d) (Z.to_nat x) 1%Z = indicator d x.
Proof.
  intros Hx; unfold indicator.
  rewrite (@update_repeat_from _ 0) by lia; simpl.
  now rewrite Z2Nat.id by lia.
Qed.

Lemma one_hot_loop_rank2 a b rest l :
  one_hot_loop 2 (Tensor (a :: b :: rest) l) = Some (Tensor (a :: b :: rest) l).
Proof. reflexivity. Qed.

(** The loop that pads the rank always leaves within its bound. *)
Lemma one_hot_loop_exits (t : tensor Z) :
  exists t', one_hot_loop 2 t = Some t' /\ 2 <= rank t' /\ data t' = data t.
Proof.
  destruct t as [[|a [|b rest]] l]; eexists; (split; [reflexivity|]);
    cbn; split; (lia || reflexivity).
Qed.

Lemma scatter_cell_rows b d idx v cur p :
  0 < b ->
  scatter_cell b d b 1 idx v (Ok cur) p =
  (let x := nth p idx 0%Z in
   if ((x <? 0) || (Z.of_nat d <=? x))%Z then Raise RuntimeError
   else Ok (update cur (p * d + Z.to_nat x) v)).
Proof.
  intros Hb; unfold scatter_cell, rbind.
  rewrite Nat.mul_1_r, Nat.div_1_r.
  replace (p / b * b + p mod b) with p; [reflexivity|].
  rewrite (Nat.div_mod_eq p b) at 1; lia.
Qed.

Lemma scatter_fold b d (idx : list Z) m :
  0 < b ->
  Forall (fun x => (0 <= x < Z.of_nat d)%Z) idx ->
  m <= length idx ->
  fold_left (scatter_cell b d b 1 idx 1%Z) (seq 0 m)
    (Ok (repeat 0%Z (length idx * d))) =
  Ok (concat (map (indicator d) (firstn m idx)) ++
      repeat 0%Z ((length idx - m) * d)).
Proof.
  intros Hb Hall; induction m as [|m IH]; intros Hm.
  - simpl; now rewrite Nat.sub_0_r.
  - rewrite seq_S, fold_left_app, IH by lia; cbn [fold_left Nat.add].
    rewrite scatter_cell_rows by assumption; cbv zeta.
    assert (Hx : (0 <= nth m idx 0 < Z.of_nat d)%Z).
    { rewrite Forall_forall in Hall; apply Hall, nth_In; lia. }
    destruct (Z.ltb_spec (nth m idx 0%Z) 0); [lia|].
    destruct (Z.leb_spec (Z.of_nat d) (nth m idx 0%Z)); [lia|]; simpl orb.
    cbv iota; f_equal.
    assert (Hlen : length (concat (map (indicator d) (firstn m idx))) = m * d).
    { rewrite (@concat_length_uniform _ _ d).
      - rewrite length_map, length_firstn; f_equal; lia.
      - apply Forall_map, Forall_forall; intros; apply indicator_length. }
    rewrite <- Hlen at 1.
    rewrite update_app_r.
    replace ((length idx - m) * d) with (d + (length idx - S m) * d) by nia.
    rewrite repeat_app, update_app_l by (rewrite repeat_length; lia).
    rewrite update_repeat_indicator by assumption.
    rewrite app_assoc; f_equal.
    rewrite (@firstn_snoc _ m idx 0%Z) by lia.
    rewrite map_app, concat_app; simpl; now rewrite app_nil_r.
Qed.

Lemma one_hot_rank2 a b (l : list Z) (d : Z) :
  length l = a * b ->
  (0 <= d)%Z ->
  Forall (fun x => (0 <= x < d)%Z) l ->
  one_hot (Tensor [a; b] l) d =
  Ok (Tensor [a; b; Z.to_nat d] (concat (map (indicator (Z.to_nat d)) l))).
Proof.
  intros Hl Hd Hall.
  unfold one_hot; rewrite one_hot_loop_rank2; cbn [shape].
  unfold zeros_long; destruct (Z.ltb_spec d 0) as [|_]; [lia|].
  cbn [rbind].
  change (unsqueeze (-1) (Tensor [a; b] l)) with (Ok (Tensor [a; b; 1] l)).
  cbn [rbind]; unfold scatter_2; cbn [shape data numel fold_right].
  rewrite !Nat.mul_1_r.
  destruct (Nat.eqb_spec (a * b) 0) as [E|E].
  - rewrite E in Hl; destruct l; [|discriminate].
    now rewrite E.
  - rewrite !Nat.leb_refl; cbn [andb].
    assert (Hb : 0 < b) by nia.
    rewrite <- Hl.
    rewrite scatter_fold; try assumption; try lia.
    + cbn [rbind]; rewrite Nat.sub_diag, firstn_all; simpl repeat.
      now rewrite app_nil_r.
    + eapply Forall_impl; [|exact Hall]; cbv beta; intros; lia.
Qed.

(** C3, as the code has it: on a token-id tensor of rank two with ids
    inside the vocabulary, one-hot construction returns a tensor with one
    more, trailing axis of the vocabulary size, holding at every position
    a single 1, at the token's index, and 0 elsewhere.  A tensor of rank
    zero or one is first given leading axes of size one up to rank two, so
    its result has rank three.  On [[1,2,3]] with vocabulary size 5 the
    result is the 1x3x5 tensor with ones at (0,0,1), (0,1,2), (0,2,3). *)
Theorem one_hot_correct (t : tensor Z) (d : Z) (a b : nat)
    (Hshape : shape t = [a; b]) (Hwf : wf t) (Hd : (0 <= d)%Z)
    (Hvocab : in_vocab d t) :
  (exists r,
     one_hot t d = Ok r /\
     shape r = shape t ++ [Z.to_nat d] /\
     wf r /\
     forall i j, i < a -> j < b ->
       Z.to_nat (get2 t i j) < Z.to_nat d /\
       forall k, k < Z.to_nat d ->
         get3 r i j k = if (Z.of_nat k =? get2 t i j)%Z then 1%Z else 0%Z) /\
  (forall n l, one_hot (Tensor [n] l) d = one_hot (Tensor [1; n] l) d) /\
  (forall l, one_hot (Tensor [] l) d = one_hot (Tensor [1; 1] l) d) /\
  (exists r,
     one_hot (Tensor [1; 3] [1; 2; 3]%Z) 5 = Ok r /\
     shape r = [1; 3; 5] /\
     forall i j k, i < 1 -> j < 3 -> k < 5 ->
       get3 r i j k =
       if ((i =? 0) && (j =? 0) && (k =? 1)) ||
          ((i =? 0) && (j =? 1) && (k =? 2)) ||
          ((i =? 0) && (j =? 2) && (k =? 3)) then 1%Z else 0%Z).
Proof.
  destruct t as [sh l]; unfold wf, in_vocab in *; cbn [shape data] in *.
  subst sh; cbn [numel fold_right] in Hwf; rewrite Nat.mul_1_r in Hwf.
  split; [|split; [|split]].
  - rewrite one_hot_rank2 by assumption.
    eexists; split; [reflexivity|]; split; [reflexivity|].
    assert (Hblocks : Forall (fun r => length r = Z.to_nat d)
                        (map (indicator (Z.to_nat d)) l))
      by (apply Forall_map, Forall_forall; intros; apply indicator_length).
    split.
    + unfold wf; cbn [shape data numel fold_right].
      rewrite (concat_length_uniform _ _ Hblocks), length_map; nia.
    + intros i j Hi Hj.
      assert (Hp : i * b + j < length l) by nia.
      assert (Hx : (0 <= nth (i * b + j) l 0 < d)%Z).
      { rewrite Forall_forall in Hvocab; apply Hvocab, nth_In, Hp. }
      unfold get2, get3; cbn [shape data].
      split; [lia|]; intros k Hk.
      rewrite (nth_concat_uniform _ _ _ _ _ Hblocks) by assumption.
      rewrite (nth_indep _ [] (indicator (Z.to_nat d) 0%Z))
        by (now rewrite length_map).
      rewrite map_nth; apply nth_indicator; assumption.
  - reflexivity.
  - reflexivity.
  - eexists; split; [reflexivity|]; split; [reflexivity|].
    intros i j k Hi Hj Hk.
    destruct i as [|i]; [|lia].
    do 3 (destruct j as [|j]; [do 5 (destruct k as [|k]; [reflexivity|]); lia|]).
    lia.
Qed.

Lemma one_hot_correct_witness :
  exists r,
    one_hot (Tensor [2; 2] [0; 2; 1; 1]%Z) 3 = Ok r /\
    shape r = [2; 2; 3] /\
    get3 r 1 0 1 = 1%Z /\ get3 r 1 0 0 = 0%Z /\ get3 r 0 1 2 = 1%Z.
Proof.
  destruct (@one_hot_correct (Tensor [2; 2] [0; 2; 1; 1]%Z) 3 2 2)
    as [[r (Hr & Hs & _ & Hget)] _].
  - reflexivity.
  - reflexivity.
  - lia.
  - unfold in_vocab; cbn [data]; repeat constructor; lia.
  - exists r; split; [exact Hr|]; split; [exact Hs|].
    destruct (Hget 1 0) as [_ G10]; try lia.
    destruct (Hget 0 1) as [_ G01]; try lia.
    rewrite (G10 1), (G10 0), (G01 2) by (simpl; lia).
    repeat split.
Defined.

(** C3, as stated, fails on a tensor of rank one: the result gains a leading
    axis as well as the trailing one. *)
Lemma one_hot_rank1_counterexample :
  one_hot (Tensor [3] [1; 2; 3]%Z) 5 =
    Ok (Tensor [1; 3; 5]
          [0; 1; 0; 0; 0;
           0; 0; 1; 0; 0;
           0; 0; 0; 1; 0]%Z) /\
  ~ appends_vocab_axis (Tensor [3] [1; 2; 3]%Z) 5.
Proof.
  split; [reflexivity|].
  intros [r [Hr Hs]].
  change (one_hot (Tensor [3] [1; 2; 3]%Z) 5) with
    (Ok (Tensor [1; 3; 5]
          [0; 1; 0; 0; 0; 0; 0; 1; 0; 0; 0; 0; 0; 1; 0]%Z)) in Hr.
  inversion Hr; subst r; discriminate Hs.
Qed.

(** ** The output-and-exception monad *)

Lemma bind_ret_l {O A B} (a : A) (f : A -> M O B) : bind (ret a) f = f a.
Proof. unfold bind, ret; destruct (f a); reflexivity. Qed.

Lemma outcome_bind {O A B} (m : M O A) (f : A -> M O B) :
  outcome (bind m f) = rbind (outcome m) (fun a => outcome (f a)).
Proof.
  destruct m as [out [a|e]]; unfold bind, outcome; simpl; [|reflexivity].
  destruct (f a); reflexivity.
Qed.

Lemma outcome_lift {O A} (r : result A) : outcome (lift (O := O) r) = r.
Proof. reflexivity. Qed.

Lemma outcome_ret {O A} (a : A) : outcome (ret (O := O) a) = Ok a.
Proof. reflexivity. Qed.

Lemma outcome_for_range_S {O S} n (body : S -> M O S) s :
  outcome (for_range (Datatypes.S n) body s) =
  rbind (outcome (body s)) (fun s' => outcome (for_range n body s')).
Proof. simpl; apply outcome_bind. Qed.

(** A loop of [n + m] iterations is a loop of [n] iterations followed by a
    loop of [m]: the state after [n] iterations is an intermediate state of
    every longer run. *)
Lemma outcome_for_range_add {O S} n m (body : S -> M O S) s :
  outcome (for_range (n + m) body s) =
  rbind (outcome (for_range n body s))
        (fun s' => outcome (for_range m body s')).
Proof.
  revert s; induction n as [|n IH]; intros s.
  - reflexivity.
  - cbn [Nat.add]; rewrite !outcome_for_range_S.
    destruct (outcome (body s)) as [s'|e]; simpl; [apply IH | reflexivity].
Qed.

(** ** Shapes and rows *)

Lemma numel_app sh v : numel (sh ++ [v]) = numel sh * v.
Proof.
  induction sh as [|a sh IH]; simpl; [lia|].
  rewrite IH; lia.
Qed.

Lemma rows_shape {A} (t : tensor A) sh v :
  shape t = sh ++ [v] ->
  rows t = map (fun r => chunk v r (data t)) (seq 0 (numel sh)).
Proof.
  intros Hs; unfold rows; now rewrite Hs, last_last, removelast_last.
Qed.

Lemma rows_length {A} (t : tensor A) sh v :
  shape t = sh ++ [v] -> length (rows t) = numel sh.
Proof.
  intros Hs; rewrite (rows_shape _ _ _ Hs); now rewrite length_map, length_seq.
Qed.

Lemma rows_uniform {A} (t : tensor A) sh v :
  shape t = sh ++ [v] -> wf t ->
  Forall (fun r => length r = v) (rows t).
Proof.
  intros Hs Hwf; rewrite (rows_shape _ _ _ Hs).
  apply Forall_map, Forall_forall; intros r Hr; apply in_seq in Hr.
  apply chunk_length; unfold wf in Hwf; rewrite Hwf, Hs, numel_app; nia.
Qed.

Lemma map_nth_seq {A} (l : list A) d :
  map (fun i => nth i l d) (seq 0 (length l)) = l.
Proof.
  induction l as [|x l IH]; [reflexivity|].
  cbn [length seq map nth]; f_equal.
  rewrite <- seq_shift, map_map; exact IH.
Qed.

Lemma rows_concat {A} (ls : list (list A)) sh v :
  Forall (fun r => length r = v) ls ->
  length ls = numel sh ->
  rows (Tensor (sh ++ [v]) (concat ls)) = ls.
Proof.
  intros Hall Hlen.
  rewrite (@rows_shape _ _ sh v) by reflexivity; cbn [data].
  rewrite <- Hlen.
  transitivity (map (fun i => nth i ls []) (seq 0 (length ls)));
    [| apply map_nth_seq].
  apply map_ext_in; intros r Hr; apply in_seq in Hr.
  apply chunk_concat_uniform; [assumption | lia].
Qed.

(** ** Embedding projection *)

Section EmbedInputs.
Context {F : Type} `{Scalar F}.

Lemma softmax_row_length (xs : list F) :
  length (softmax_row xs) = length xs.
Proof. unfold softmax_row; now rewrite !length_map. Qed.

Lemma softmax_rows (t : tensor F) sh v :
  shape t = sh ++ [v] -> wf t ->
  rows (softmax t) = map softmax_row (rows t).
Proof.
  intros Hs Hwf; unfold softmax; rewrite Hs.
  apply rows_concat.
  - apply Forall_map.
    eapply Forall_impl; [|exact (rows_uniform _ _ _ Hs Hwf)].
    cbv beta; intros r Hr; now rewrite softmax_row_length.
  - rewrite length_map; exact (rows_length _ _ _ Hs).
Qed.

Lemma vecmat_length (p : list F) (e : embedding) :
  length (vecmat p e) = embedding_dim e.
Proof. unfold vecmat; now rewrite length_map, length_seq. Qed.

Lemma matmul_ok (probs : tensor F) (e : embedding) sh :
  shape probs = sh ++ [num_embeddings e] ->
  matmul probs e =
  Ok (Tensor (sh ++ [embedding_dim e])
        (concat (map (fun p => vecmat p e) (rows probs)))).
Proof.
  intros Hs; unfold matmul; rewrite Hs.
  destruct (sh ++ [num_embeddings e]) as [|a l] eqn:E.
  - destruct sh; discriminate.
  - rewrite <- E, last_last, removelast_last, Nat.eqb_refl; reflexivity.
Qed.

Lemma embed_inputs_outcome (e : embedding) (logits : tensor F) pe sh :
  shape logits = sh ++ [num_embeddings e] ->
  outcome (embed_inputs e logits pe) =
  Ok (Tensor (sh ++ [embedding_dim e])
        (concat (map (fun p => vecmat p e) (rows (softmax logits))))).
Proof.
  intros Hs; unfold embed_inputs.
  rewrite outcome_bind, outcome_lift, (matmul_ok _ _ sh) by exact Hs.
  destruct pe; reflexivity.
Qed.

Lemma embed_inputs_wf (e : embedding) (t : tensor F) sh :
  shape t = sh ++ [num_embeddings e] ->
  wf (Tensor (sh ++ [embedding_dim e])
        (concat (map (fun p => vecmat p e) (rows (softmax t))))).
Proof.
  intros Hs; unfold wf; cbn [shape data].
  rewrite (concat_length_uniform _ (embedding_dim e)).
  - rewrite length_map, (rows_length (softmax t) sh (num_embeddings e) Hs).
    now rewrite numel_app.
  - apply Forall_map, Forall_forall; intros; apply vecmat_length.
Qed.

(** *** The product with the table is the weighted sum of its rows *)

Lemma nth_chunk {A} n i (l : list A) j d :
  j < n -> nth j (chunk n i l) d = nth (i * n + j) l d.
Proof.
  intros Hj; unfold chunk.
  rewrite nth_firstn.
  destruct (Nat.ltb_spec j n); [|lia].
  now rewrite nth_skipn.
Qed.

Lemma column_table_rows (e : embedding) j :
  j < embedding_dim e ->
  column e j = map (fun row => nth j row fzero) (table_rows e).
Proof.
  intros Hj; unfold column, table_rows; rewrite map_map.
  apply map_ext; intros i; now rewrite nth_chunk.
Qed.

Lemma vadd_length (xs ys : list F) :
  length xs = length ys -> length (vadd xs ys) = length xs.
Proof.
  intros E; unfold vadd; rewrite length_map, length_combine; lia.
Qed.

Lemma nth_vadd_scale (acc row : list F) c j :
  j < length acc -> j < length row ->
  nth j (vadd acc (scale c row)) fzero =
  fadd (nth j acc fzero) (fmul c (nth j row fzero)).
Proof.
  revert acc row; induction j as [|j IH]; intros [|a acc] [|r row] Ha Hr;
    simpl in *; try lia; [reflexivity|].
  apply IH; lia.
Qed.

Lemma weighted_sum_fold d (prs : list (F * list F)) (acc : list F) :
  length acc = d ->
  Forall (fun pr => length (snd pr) = d) prs ->
  fold_left (fun acc pr => vadd acc (scale (fst pr) (snd pr))) prs acc =
  map (fun j =>
         fold_left fadd
           (map (fun pr => fmul (fst pr) (nth j (snd pr) fzero)) prs)
           (nth j acc fzero))
      (seq 0 d).
Proof.
  intros Hacc Hall; revert acc Hacc.
  induction Hall as [|[c row] prs Hrow _ IH]; intros acc Hacc.
  - simpl; subst d; symmetry; apply map_nth_seq.
  - cbn [fold_left map fst snd] in *.
    rewrite IH
      by (rewrite vadd_length; [assumption |
          unfold scale; rewrite length_map; congruence]).
    apply map_ext_in; intros j Hj; apply in_seq in Hj.
    rewrite nth_vadd_scale by lia; reflexivity.
Qed.

Lemma nth_repeat_zero d j : nth j (repeat (fzero : F) d) fzero = fzero.
Proof.
  revert j; induction d as [|d IH]; intros [|j]; simpl; auto.
Qed.

Lemma combine_map_r {A B C} (f : B -> C) (xs : list A) (ys : list B) :
  combine xs (map f ys) = map (fun p => (fst p, f (snd p))) (combine xs ys).
Proof.
  revert ys; induction xs as [|x xs IH]; intros [|y ys]; simpl;
    [reflexivity .. |]; now rewrite IH.
Qed.

Lemma vecmat_weighted_sum (p : list F) (e : embedding) :
  wf_embedding e ->
  vecmat p e = weighted_sum (embedding_dim e) p (table_rows e).
Proof.
  intros Hwf; unfold weighted_sum.
  rewrite (weighted_sum_fold (embedding_dim e)).
  - unfold vecmat; apply map_ext_in; intros j Hj; apply in_seq in Hj.
    rewrite nth_repeat_zero, column_table_rows by lia.
    unfold dot, fsum; rewrite combine_map_r, map_map; reflexivity.
  - apply repeat_length.
  - apply Forall_forall; intros [c row] Hin; cbn [snd].
    apply in_combine_r in Hin; unfold table_rows in Hin.
    apply in_map_iff in Hin; destruct Hin as [i [<- Hi]].
    apply in_seq in Hi; apply chunk_length.
    unfold wf_embedding in Hwf; rewrite Hwf; nia.
Qed.

(** C9: the value returned by the embedding projection does not depend on
    the [print_entropy] flag; the flag decides only whether the entropy of
    the distribution is printed. *)
Theorem embed_inputs_print_entropy_irrelevant
    (e : embedding) (logits : tensor F) :
  outcome (embed_inputs e logits true) =
    outcome (embed_inputs e logits false) /\
  printed (embed_inputs e logits false) = [] /\
  printed (embed_inputs e logits true) = [entropy (softmax logits)].
Proof.
  unfold embed_inputs, bind, print, ret, lift, outcome, printed.
  destruct (matmul (softmax logits) e); repeat split.
Qed.
End EmbedInputs.

(** *** Softmax rows over the reals *)

Section SoftmaxReal.
Local Open Scope R_scope.

Lemma fsum_shift (l : list R) (a : R) :
  fold_left Rplus l a = a + fold_left Rplus l 0.
Proof.
  revert a; induction l as [|x l IH]; intros a; simpl.
  - lra.
  - rewrite (IH (a + x)), (IH (0 + x)); lra.
Qed.

Lemma fsum_cons (x : R) (l : list R) : fsum (x :: l) = x + fsum l.
Proof.
  unfold fsum; simpl; rewrite fsum_shift; lra.
Qed.

Lemma fsum_div (l : list R) (s : R) :
  fsum (map (fun x => x / s) l) = fsum l / s.
Proof.
  induction l as [|x l IH].
  - unfold fsum; simpl; lra.
  - cbn [map]; rewrite !fsum_cons, IH; lra.
Qed.

Lemma fsum_exp_pos (xs : list R) : xs <> [] -> 0 < fsum (map exp xs).
Proof.
  intros Hne; destruct xs as [|x xs]; [congruence|]; clear Hne.
  revert x; induction xs as [|y xs IH]; intros x; cbn [map].
  - rewrite fsum_cons; unfold fsum; simpl.
    pose proof (exp_pos x); lra.
  - rewrite fsum_cons.
    pose proof (exp_pos x); pose proof (IH y) as Hy; cbn [map] in Hy; lra.
Qed.

Lemma softmax_row_sum_one (xs : list R) :
  xs <> [] -> fsum (softmax_row xs) = 1.
Proof.
  intros Hne; unfold softmax_row; cbn [fdiv fexp RScalar].
  rewrite fsum_div.
  pose proof (fsum_exp_pos xs Hne); field; lra.
Qed.

Lemma softmax_row_pos (xs : list R) (p : R) :
  In p (softmax_row xs) -> 0 < p.
Proof.
  unfold softmax_row; cbn [fdiv fexp RScalar]; intros Hin.
  apply in_map_iff in Hin; destruct Hin as [e [<- Hin]].
  assert (Hne : xs <> []) by (destruct xs; [destruct Hin | discriminate]).
  apply in_map_iff in Hin; destruct Hin as [x [<- _]].
  apply Rdiv_lt_0_compat; [apply exp_pos | now apply fsum_exp_pos].
Qed.
End SoftmaxReal.

(** C2: in exact arithmetic, on a logits tensor whose last axis is the
    (non-empty) vocabulary of the embedding table, the embedding projection
    is the matrix product of the softmax of the logits (over the last axis)
    with the table; every softmax row sums to one, and every row of the
    result is the sum of the table's rows weighted by those probabilities. *)
Theorem embed_inputs_softmax_weighted_sum
    (e : @embedding R) (logits : tensor R) (sh : list nat) (pe : bool)
    (Hwe : wf_embedding e)
    (Hs : shape logits = sh ++ [num_embeddings e])
    (Hwf : wf logits)
    (Hv : 0 < num_embeddings e) :
  exists out,
    outcome (embed_inputs e logits pe) = Ok out /\
    matmul (softmax logits) e = Ok out /\
    shape out = sh ++ [embedding_dim e] /\
    wf out /\
    forall r, r < numel sh ->
      let probs := nth r (rows (softmax logits)) [] in
      probs = softmax_row (nth r (rows logits) []) /\
      fsum probs = 1%R /\
      Forall (fun p => (0 < p)%R) probs /\
      nth r (rows out) [] =
        weighted_sum (embedding_dim e) probs (table_rows e).
Proof.
  eexists; split; [apply (embed_inputs_outcome _ _ _ sh Hs)|].
  split; [apply (matmul_ok (softmax logits) _ sh Hs)|].
  split; [reflexivity|].
  split; [apply (embed_inputs_wf _ _ sh Hs)|].
  intros r Hr probs.
  assert (Hrows : rows (softmax logits) = map softmax_row (rows logits))
    by (apply (softmax_rows _ sh _ Hs Hwf)).
  assert (Hlen : length (rows logits) = numel sh)
    by (apply (rows_length _ _ _ Hs)).
  assert (Hp : probs = softmax_row (nth r (rows logits) [])).
  { unfold probs; rewrite Hrows.
    rewrite (nth_indep _ [] (softmax_row [])) by (rewrite length_map; lia).
    apply map_nth. }
  assert (Hne : nth r (rows logits) [] <> []).
  { pose proof (rows_uniform _ _ _ Hs Hwf) as Hu.
    rewrite Forall_forall in Hu.
    assert (Hin : In (nth r (rows logits) []) (rows logits))
      by (apply nth_In; lia).
    specialize (Hu _ Hin).
    intros E; rewrite E in Hu; simpl in Hu; lia. }
  split; [exact Hp|].
  split; [rewrite Hp; now apply softmax_row_sum_one|].
  split.
  { rewrite Hp; apply Forall_forall; intros p; apply softmax_row_pos. }
  rewrite rows_concat.
  - rewrite (nth_indep _ [] (vecmat [] e))
      by (rewrite length_map, Hrows, length_map; lia).
    rewrite (map_nth (fun p => vecmat p e)).
    now apply vecmat_weighted_sum.
  - apply Forall_map, Forall_forall; intros; apply vecmat_length.
  - now rewrite length_map, Hrows, length_map.
Qed.

Lemma embed_inputs_softmax_weighted_sum_witness :
  exists out,
    outcome (embed_inputs (Embedding 2 1 [1; 3]%R)
               (Tensor [1; 2] [0; 0]%R) true) = Ok out /\
    shape out = [1; 1] /\
    fsum (nth 0 (rows (softmax (Tensor [1; 2] [0; 0]%R))) []) = 1%R.
Proof.
  destruct (embed_inputs_softmax_weighted_sum
              (Embedding 2 1 [1; 3]%R) (Tensor [1; 2] [0; 0]%R) [1] true)
    as [out (Ho & _ & Hsh & _ & Hrow)].
  - reflexivity.
  - reflexivity.
  - reflexivity.
  - simpl; lia.
  - exists out; split; [exact Ho|]; split; [exact Hsh|].
    destruct (Hrow 0) as (_ & Hsum & _); [simpl; lia | exact Hsum].
Defined.

(** ** Top-1 selection *)

Section Top1.
Context {F : Type} `{Scalar F}.

Lemma argmax_from_bound (xs : list F) best_i best i :
  best_i < i -> argmax_from best_i best i xs < i + length xs.
Proof.
  revert best_i best i; induction xs as [|x xs IH]; intros bi b i Hlt.
  - simpl; lia.
  - cbn [argmax_from length]; destruct (fleb x b).
    + specialize (IH bi b (S i)); lia.
    + specialize (IH i x (S i)); lia.
Qed.

Lemma top1_bound (xs : list F) :
  xs <> [] -> (0 <= top1 xs < Z.of_nat (length xs))%Z.
Proof.
  destruct xs as [|x xs]; [congruence|]; intros _.
  unfold top1; cbn [argmax_list length].
  pose proof (argmax_from_bound xs 0 x 1); lia.
Qed.

Lemma argmax_list_some (xs : list F) :
  xs <> [] -> argmax_list xs = Some (Z.to_nat (top1 xs)).
Proof.
  destruct xs as [|x xs]; [congruence|]; intros _.
  unfold top1; cbn [argmax_list]; now rewrite Nat2Z.id.
Qed.

(** When the comparison of scores is a total preorder, the selected index
    holds a greatest score, and it is the first index that does. *)
Section Order.
Hypothesis fleb_total : forall x y : F, fleb x y = true \/ fleb y x = true.
Hypothesis fleb_trans :
  forall x y z : F, fleb x y = true -> fleb y z = true -> fleb x z = true.

Lemma fleb_refl (x : F) : fleb x x = true.
Proof. destruct (fleb_total x x); assumption. Qed.

Lemma argmax_from_max (d : F) (xs pre : list F) best_i :
  best_i < length pre ->
  (forall j, j < length pre ->
     fleb (nth j pre d) (nth best_i pre d) = true) ->
  (forall j, j < best_i ->
     fleb (nth best_i pre d) (nth j pre d) = false) ->
  let r := argmax_from best_i (nth best_i pre d) (length pre) xs in
  (forall j, j < length (pre ++ xs) ->
     fleb (nth j (pre ++ xs) d) (nth r (pre ++ xs) d) = true) /\
  (forall j, j < r ->
     fleb (nth r (pre ++ xs) d) (nth j (pre ++ xs) d) = false).
Proof.
  revert pre best_i; induction xs as [|x xs IH];
    intros pre bi Hbi Hmax Hfirst; cbv zeta.
  - cbn [argmax_from]; rewrite app_nil_r; split; assumption.
  - cbn [argmax_from].
    replace (pre ++ x :: xs) with ((pre ++ [x]) ++ xs)
      by (now rewrite <- app_assoc).
    replace (S (length pre)) with (length (pre ++ [x]))
      by (rewrite length_app; simpl; lia).
    destruct (fleb x (nth bi pre d)) eqn:E.
    + replace (nth bi pre d) with (nth bi (pre ++ [x]) d)
        by (now rewrite app_nth1).
      apply IH.
      * rewrite length_app; simpl; lia.
      * intros j Hj; rewrite length_app in Hj; simpl in Hj.
        rewrite (app_nth1 pre [x] d Hbi).
        destruct (Nat.eq_dec j (length pre)) as [->|Hne].
        -- rewrite app_nth2, Nat.sub_diag by lia; exact E.
        -- rewrite app_nth1 by lia; apply Hmax; lia.
      * intros j Hj; rewrite !app_nth1 by lia; now apply Hfirst.
    + assert (Hx : nth (length pre) (pre ++ [x]) d = x)
        by (rewrite app_nth2, Nat.sub_diag by lia; reflexivity).
      assert (Hbx : fleb (nth bi pre d) x = true)
        by (destruct (fleb_total x (nth bi pre d)); congruence).
      pose proof (IH (pre ++ [x]) (length pre)) as IH'.
      rewrite Hx in IH'; apply IH'; clear IH'.
      * rewrite length_app; simpl; lia.
      * intros j Hj; rewrite length_app in Hj; simpl in Hj.
        destruct (Nat.eq_dec j (length pre)) as [->|Hne].
        -- rewrite Hx; apply fleb_refl.
        -- rewrite app_nth1 by lia.
           apply (fleb_trans _ (nth bi pre d)); [apply Hmax; lia | exact Hbx].
      * intros j Hj; rewrite app_nth1 by lia.
        destruct (fleb x (nth j pre d)) eqn:Ej; [|reflexivity].
        rewrite <- E; symmetry.
        apply (fleb_trans _ (nth j pre d)); [exact Ej | apply Hmax; lia].
Qed.

Lemma top1_max (d : F) (xs : list F) :
  xs <> [] ->
  let r := Z.to_nat (top1 xs) in
  r < length xs /\
  (forall j, j < length xs -> fleb (nth j xs d) (nth r xs d) = true) /\
  (forall j, j < r -> fleb (nth r xs d) (nth j xs d) = false).
Proof.
  intros Hne; cbv zeta; split; [pose proof (top1_bound xs Hne); lia|].
  destruct xs as [|x xs]; [congruence|].
  unfold top1; cbn [argmax_list]; rewrite Nat2Z.id.
  apply (argmax_from_max d xs [x] 0).
  - simpl; lia.
  - intros [|j] Hj; simpl in *; [apply fleb_refl | lia].
  - intros j Hj; lia.
Qed.

(** The first and the last index of a greatest score are selections a
    top-k may make. *)
Lemma first_greatest_in_range : topk_in_range (@first_greatest F _).
Proof.
  clear fleb_total fleb_trans.
  intros xs Hne; cbn [topk_index first_greatest].
  pose proof (top1_bound xs Hne); lia.
Qed.

Lemma first_greatest_greatest : topk_greatest (@first_greatest F _).
Proof.
  intros xs j Hj; cbn [topk_index first_greatest].
  assert (Hne : xs <> []) by (intros E; subst xs; simpl in Hj; lia).
  now apply (top1_max fzero xs Hne).
Qed.

Lemma last_greatest_in_range : topk_in_range (@last_greatest F _).
Proof.
  clear fleb_total fleb_trans.
  intros xs Hne; cbn [topk_index last_greatest].
  destruct xs as [|x xs]; [congruence|]; cbn [length]; lia.
Qed.

Lemma last_greatest_greatest : topk_greatest (@last_greatest F _).
Proof.
  intros xs j Hj; cbn [topk_index last_greatest].
  assert (Hne : rev xs <> []).
  { intros E; apply (f_equal (@length F)) in E.
    rewrite length_rev in E; simpl in E; lia. }
  destruct (top1_max fzero (rev xs) Hne) as (Hr & Hmax & _).
  rewrite length_rev in Hr, Hmax.
  set (r := Z.to_nat (top1 (rev xs))) in *.
  specialize (Hmax (length xs - S j) ltac:(lia)).
  rewrite !rev_nth in Hmax by lia.
  replace (length xs - S (length xs - S j)) with j in Hmax by lia.
  replace (length xs - 1 - r) with (length xs - S r) by lia.
  exact Hmax.
Qed.
End Order.
End Top1.

Lemma Zleb_total (x y : Z) :
  fleb (Scalar := ZScalar) x y = true \/ fleb (Scalar := ZScalar) y x = true.
Proof.
  cbn [fleb ZScalar].
  destruct (Z.leb_spec x y); [now left | right; apply Z.leb_le; lia].
Qed.

Lemma Zleb_trans (x y z : Z) :
  fleb (Scalar := ZScalar) x y = true ->
  fleb (Scalar := ZScalar) y z = true ->
  fleb (Scalar := ZScalar) x z = true.
Proof. cbn [fleb ZScalar]; rewrite !Z.leb_le; lia. Qed.

(** ** Transcript reconstruction *)

Lemma replace_newline_get (s : string) (n : nat) :
  String.get n (replace_newline s) =
  option_map (fun c => if Ascii.eqb c newline then " "%char else c)
             (String.get n s).
Proof.
  revert n; induction s as [|c s IH]; intros n; [reflexivity|].
  destruct n as [|n]; simpl; [reflexivity | apply IH].
Qed.

Lemma replace_newline_free (s : string) (n : nat) :
  String.get n (replace_newline s) <> Some newline.
Proof.
  rewrite replace_newline_get.
  destruct (String.get n s) as [c|]; simpl; [|discriminate].
  destruct (Ascii.eqb_spec c newline) as [->|Hne]; [discriminate|].
  intros E; inversion E; contradiction.
Qed.

Section GetText.
Context {F : Type} `{Scalar F} {K : TopK F}.

Lemma select_0_rank2 (T V : nat) (l : list F) (i : nat) :
  i < T ->
  select_0 i (Tensor [T; V] l) = Ok (Tensor [V] (chunk V i l)).
Proof.
  intros Hi; unfold select_0; cbn [shape data numel fold_right].
  destruct (Nat.ltb_spec i T); [|lia].
  now rewrite Nat.mul_1_r.
Qed.

Lemma rows_rank1 {A} (V : nat) (r : list A) :
  length r = V -> rows (Tensor [V] r) = [r].
Proof.
  intros Hr; unfold rows.
  cbn [shape data last removelast numel fold_right seq map].
  now rewrite chunk_0_all.
Qed.

Lemma greedy_rank1 (V : nat) (r : list F) :
  length r = V -> 0 < V ->
  _greedy (Tensor [V] r) = Ok (Tensor [1] [Z.of_nat (topk_index r)]).
Proof.
  intros Hr HV; unfold _greedy; cbn [shape last removelast app].
  destruct (Nat.eqb_spec V 0); [lia|].
  now rewrite rows_rank1.
Qed.

Lemma log_softmax_rank1 (V : nat) (r : list F) :
  length r = V ->
  log_softmax (Tensor [V] r) = Tensor [V] (log_softmax_row r).
Proof.
  intros Hr; unfold log_softmax; rewrite rows_rank1 by assumption.
  cbn; now rewrite app_nil_r.
Qed.

Lemma cat_0_rank1 {A} (d1 : list A) (x : A) :
  d1 <> [] ->
  cat 0 (Tensor [length d1] d1) (Tensor [1] [x]) =
  Ok (Tensor [length d1 + 1] (d1 ++ [x])).
Proof.
  intros Hne; unfold cat; cbn [shape data rank length].
  destruct (list_eq_dec Nat.eq_dec [length d1] [0]) as [E|_].
  { inversion E as [E']; destruct d1; [congruence | discriminate]. }
  destruct (list_eq_dec Nat.eq_dec [1] [0]) as [E|_]; [discriminate|].
  cbn [Nat.ltb Nat.leb negb orb Nat.eqb firstn skipn].
  destruct (list_eq_dec Nat.eq_dec [] []) as [_|N]; [|congruence].
  cbn [numel fold_right nth seq map concat app].
  rewrite !Nat.mul_1_r, app_nil_r.
  now rewrite chunk_0_all, chunk_0_all.
Qed.

Lemma index_0_rank1 {A} (V : nat) (l : list A) (k : Z) (d : A) :
  length l = V -> (0 <= k < Z.of_nat V)%Z ->
  index_0 k (Tensor [V] l) = Ok (Tensor [] [nth (Z.to_nat k) l d]).
Proof.
  intros Hl Hk; unfold index_0; cbn [shape data numel fold_right].
  destruct (Z.ltb_spec k 0); [lia|].
  destruct (Z.ltb_spec k 0); [lia|].
  destruct (Z.leb_spec (Z.of_nat V) k); [lia|]; cbn [orb].
  do 2 f_equal; unfold chunk; rewrite Nat.mul_1_r.
  assert (Hn : Z.to_nat k < length l) by lia.
  revert Hn; generalize (Z.to_nat k); clear; intros n.
  revert n; induction l as [|x l IH]; intros [|n] Hn; simpl in *;
    try lia; [reflexivity | apply IH; lia].
Qed.

Lemma text_body_step (T V : nat) (l : list F) (i : nat)
    (toks : list Z) (lp : F) :
  topk_in_range K ->
  length l = T * V -> 0 < V -> i < T ->
  text_body (Tensor [T; V] l) i (TextState (as_output toks) lp) =
  Ok (TextState (as_output (toks ++ [Z.of_nat (topk_index (chunk V i l))]))
                (fadd lp (step_log_prob (chunk V i l)))).
Proof.
  intros Hk Hl HV Hi; unfold text_body.
  assert (Hrow : length (chunk V i l) = V) by (apply chunk_length; nia).
  rewrite select_0_rank2 by assumption; cbn [rbind].
  generalize dependent (chunk V i l); intros row Hrow.
  assert (Hne : row <> []) by (intros E; rewrite E in Hrow; simpl in Hrow; lia).
  pose proof (Hk row Hne) as Hb; rewrite Hrow in Hb.
  rewrite greedy_rank1 by assumption; cbn [rbind output_so_far logp].
  set (tok := Z.of_nat (topk_index row)) in *.
  assert (Hcat : match as_output toks with
                 | Some acc => cat 0 acc (Tensor [1] [tok])
                 | None => Ok (Tensor [1] [tok])
                 end = Ok (Tensor [length (toks ++ [tok])]
                             (toks ++ [tok]))).
  { destruct toks as [|t toks]; [reflexivity|].
    cbn [as_output]; rewrite cat_0_rank1 by discriminate.
    now rewrite length_app. }
  rewrite Hcat; cbn [rbind item data shape numel fold_right Nat.eqb Nat.mul Nat.add].
  rewrite log_softmax_rank1 by assumption.
  rewrite (index_0_rank1 V _ _ fzero)
    by (unfold log_softmax_row; rewrite ?length_map, ?softmax_row_length;
        try assumption; unfold tok; lia).
  cbn [rbind item data shape numel fold_right Nat.eqb].
  do 2 f_equal.
  - destruct toks; reflexivity.
  - f_equal; unfold step_log_prob, log_softmax_row, tok.
    rewrite Nat2Z.id.
    rewrite (nth_indep _ fzero (flog fzero))
      by (rewrite length_map, softmax_row_length; lia).
    apply map_nth.
Qed.

Lemma text_loop (T V : nat) (l : list F) (idx : list nat)
    (toks : list Z) (lp : F) :
  topk_in_range K ->
  length l = T * V -> 0 < V ->
  Forall (fun i => i < T) idx ->
  for_index idx (text_body (Tensor [T; V] l)) (TextState (as_output toks) lp) =
  Ok (TextState
        (as_output
           (toks ++ map (fun i => Z.of_nat (topk_index (chunk V i l))) idx))
        (fold_left fadd (map (fun i => step_log_prob (chunk V i l)) idx) lp)).
Proof.
  intros Hk Hl HV Hall; revert toks lp.
  induction Hall as [|i idx Hi _ IH]; intros toks lp.
  - simpl; now rewrite app_nil_r.
  - cbn [for_index]; rewrite text_body_step by assumption.
    cbn [rbind]; rewrite IH; cbn [map fold_left].
    now rewrite <- app_assoc.
Qed.

Lemma text_loop_all (logits : tensor F) (T V : nat) :
  topk_in_range K ->
  shape logits = [T; V] -> wf logits -> 0 < V ->
  for_index (seq 0 T) (text_body logits) (TextState None fzero) =
  Ok (TextState (as_output (transcript_tokens (rows logits)))
                (fold_left fadd (map step_log_prob (rows logits)) fzero)).
Proof.
  intros Hk Hs Hwf HV; destruct logits as [sh l]; cbn [shape] in Hs; subst sh.
  unfold wf in Hwf; cbn [shape data numel fold_right] in Hwf.
  rewrite Nat.mul_1_r in Hwf.
  change (TextState None fzero) with (TextState (as_output []) fzero).
  rewrite (text_loop T V) by
    (try assumption; apply Forall_forall; intros i Hi; apply in_seq in Hi; lia).
  rewrite (rows_shape (Tensor [T; V] l) [T] V eq_refl).
  cbn [numel fold_right data app]; rewrite Nat.mul_1_r.
  unfold transcript_tokens; now rewrite !map_map.
Qed.

Lemma transcript_tokens_length (logits : tensor F) (T V : nat) :
  shape logits = [T; V] ->
  length (transcript_tokens (rows logits)) = T.
Proof.
  intros Hs; unfold transcript_tokens.
  rewrite length_map, (rows_length logits [T] V Hs); simpl; lia.
Qed.

Lemma get_text_from_logits_ok (logits : tensor F) decode (T V : nat) :
  topk_in_range K ->
  shape logits = [T; V] -> wf logits -> 0 < T -> 0 < V ->
  get_text_from_logits logits decode =
  Ok (transcript_text decode (rows logits),
      transcript_nll (rows logits),
      Tensor [T] (transcript_tokens (rows logits))).
Proof.
  intros Hk Hs Hwf HT HV; unfold get_text_from_logits, size_0.
  rewrite Hs; cbn [rbind].
  rewrite (text_loop_all logits T V Hk Hs Hwf HV); cbn [rbind output_so_far logp].
  pose proof (transcript_tokens_length logits T V Hs) as Hlen.
  destruct (transcript_tokens (rows logits)) as [|t toks] eqn:E;
    [simpl in Hlen; lia|].
  cbn [as_output tolist shape data rbind].
  unfold transcript_text, transcript_nll; rewrite E, Hlen; reflexivity.
Qed.
End GetText.

Section TranscriptClaims.
Context {F : Type} `{Scalar F} {K : TopK F}.

(** C6: on a logits sequence of at least one step over a non-empty
    vocabulary, transcript reconstruction returns the text, the total
    negative log-likelihood and the token ids, where the token of every
    step is the index the top-1 selection picks in the scores of the
    step, an index of a greatest score whichever the selection picks
    among equal ones; the likelihood is the negated sum over the steps of
    the log-probability of that token under the softmax of the step, and
    the text is the detokenizer's output for the selected ids with every
    newline replaced by a space. *)
Theorem get_text_from_logits_spec
    (logits : tensor F) (decode : list Z -> string) (T V : nat)
    (Hrange : topk_in_range K) (Hgreatest : topk_greatest K)
    (Hs : shape logits = [T; V]) (Hwf : wf logits)
    (HT : 0 < T) (HV : 0 < V) :
  let steps := rows logits in
  let ids := map (fun row => Z.of_nat (topk_index row)) steps in
  get_text_from_logits logits decode =
    Ok (replace_newline (decode ids),
        fneg (fold_left fadd
                (map (fun row =>
                        flog (nth (topk_index row) (softmax_row row) fzero))
                     steps)
                fzero),
        Tensor [T] ids) /\
  length steps = T /\
  (forall row, In row steps ->
     length row = V /\
     topk_index row < V /\
     forall j, j < V ->
       fleb (nth j row fzero) (nth (topk_index row) row fzero) = true) /\
  (forall n,
     String.get n (replace_newline (decode ids)) =
     option_map (fun c => if Ascii.eqb c newline then " "%char else c)
       (String.get n (decode ids))).
Proof.
  cbv zeta.
  assert (Hrows : forall row, In row (rows logits) ->
            length row = V /\ row <> []).
  { intros row Hin.
    pose proof (rows_uniform logits [T] V Hs Hwf) as Hu.
    rewrite Forall_forall in Hu; specialize (Hu row Hin).
    split; [exact Hu|]; intros E; subst row; simpl in Hu; lia. }
  split; [now apply (get_text_from_logits_ok logits decode T V)|].
  split; [rewrite (rows_length logits [T] V Hs); simpl; lia|].
  split.
  { intros row Hin; destruct (Hrows row Hin) as [Hlen Hne].
    split; [exact Hlen|]; rewrite <- Hlen.
    split; [now apply Hrange | intros j Hj; now apply Hgreatest]. }
  intros n; apply replace_newline_get.
Qed.

(** C10: transcript reconstruction needs at least one step.  On a logits
    sequence with at least one step (over a non-empty vocabulary) the
    loop leaves a token-id tensor in [output_so_far] and the call
    returns; on a sequence of zero steps [output_so_far] is still [None]
    after the loop and the call raises when it asks it for its list. *)
Theorem get_text_from_logits_needs_steps
    (logits : tensor F) (decode : list Z -> string) :
  (forall T V,
     topk_in_range K ->
     shape logits = [T; V] -> wf logits -> 0 < T -> 0 < V ->
     exists st out text nll,
       for_index (seq 0 T) (text_body logits) (TextState None fzero) = Ok st /\
       output_so_far st = Some out /\
       shape out = [T] /\
       get_text_from_logits logits decode = Ok (text, nll, out)) /\
  (forall rest, shape logits = 0 :: rest ->
     for_index (seq 0 0) (text_body logits) (TextState None fzero) =
       Ok (TextState None fzero) /\
     get_text_from_logits logits decode = Raise AttributeError).
Proof.
  split.
  - intros T V Hk Hs Hwf HT HV.
    pose proof (transcript_tokens_length logits T V Hs) as Hlen.
    eexists; exists (Tensor [T] (transcript_tokens (rows logits))).
    do 2 eexists.
    split; [apply (text_loop_all logits T V Hk Hs Hwf HV)|].
    split.
    { cbn [output_so_far].
      destruct (transcript_tokens (rows logits)); simpl in *; [lia|].
      now rewrite Hlen. }
    split; [reflexivity|].
    now apply (get_text_from_logits_ok logits decode T V).
  - intros rest Hs; split; [reflexivity|].
    unfold get_text_from_logits, size_0; rewrite Hs; reflexivity.
Qed.
End TranscriptClaims.

Lemma get_text_from_logits_spec_witness :
  get_text_from_logits (K := last_greatest)
    (Tensor [2; 3] [4; 4; 1; 7; 2; 7]%Z)
    (fun ids => String newline "ab"%string) =
  Ok (" ab"%string, 0%Z, Tensor [2] [1; 2]%Z).
Proof.
  destruct (get_text_from_logits_spec (K := last_greatest)
              (Tensor [2; 3] [4; 4; 1; 7; 2; 7]%Z)
              (fun ids => String newline "ab"%string) 2 3)
    as [Hrun _].
  - apply last_greatest_in_range.
  - apply (last_greatest_greatest Zleb_total Zleb_trans).
  - reflexivity.
  - reflexivity.
  - lia.
  - lia.
  - exact Hrun.
Defined.

Lemma get_text_from_logits_needs_steps_witness :
  (exists out text nll,
     get_text_from_logits (K := first_greatest) (Tensor [1; 2] [3; 5]%Z)
       (fun ids => "x"%string) = Ok (text, nll, out)) /\
  get_text_from_logits (K := first_greatest) (Tensor [0; 2] ([] : list Z))
    (fun ids => "x"%string) =
    Raise AttributeError.
Proof.
  split.
  - destruct (get_text_from_logits_needs_steps (K := first_greatest)
                (Tensor [1; 2] [3; 5]%Z) (fun ids => "x"%string))
      as [Hsome _].
    destruct (Hsome 1 2) as (st & out & text & nll & _ & _ & _ & Hrun);
      [apply first_greatest_in_range | reflexivity | reflexivity | lia | lia |].
    exists out, text, nll; exact Hrun.
  - destruct (get_text_from_logits_needs_steps (K := first_greatest)
                (Tensor [0; 2] ([] : list Z)) (fun ids => "x"%string))
      as [_ Hnone].
    destruct (Hnone [2]) as [_ Hraise]; [reflexivity | exact Hraise].
Defined.

(** ** Transcript reconstruction on the store *)

Section StoredText.
Context {F : Type} `{Scalar F} {K : TopK F}.

Lemma read_long_run (r : Stored.tref) (s : @Stored.store F) t :
  snd (Stored.read_long r s) = Ok t -> Stored.read_long r s = (s, Ok t).
Proof. intros <-; reflexivity. Qed.

Lemma read_float_run (r : Stored.tref) (s : @Stored.store F) t :
  snd (Stored.read_float r s) = Ok t -> Stored.read_float r s = (s, Ok t).
Proof. intros <-; reflexivity. Qed.

Lemma read_long_app (r : Stored.tref) (s new : @Stored.store F) t :
  snd (Stored.read_long r s) = Ok t ->
  snd (Stored.read_long r (s ++ new)) = Ok t.
Proof.
  unfold Stored.read_long; cbn [snd].
  destruct (nth_error s (Stored.base r)) as [c|] eqn:E; [|discriminate].
  rewrite nth_error_app1 by (apply nth_error_Some; congruence).
  now rewrite E.
Qed.

Lemma read_float_app (r : Stored.tref) (s new : @Stored.store F) t :
  snd (Stored.read_float r s) = Ok t ->
  snd (Stored.read_float r (s ++ new)) = Ok t.
Proof.
  unfold Stored.read_float; cbn [snd].
  destruct (nth_error s (Stored.base r)) as [c|] eqn:E; [|discriminate].
  rewrite nth_error_app1 by (apply nth_error_Some; congruence).
  now rewrite E.
Qed.

Lemma read_float_stored (r : Stored.tref) (s : @Stored.store F) t :
  snd (Stored.read_float r s) = Ok t ->
  exists xs, nth_error s (Stored.base r) = Some (Stored.FloatStorage xs) /\
             t = Stored.window r xs.
Proof.
  unfold Stored.read_float; cbn [snd].
  destruct (nth_error s (Stored.base r)) as [[xs|xs]|]; try discriminate.
  intros E; inversion E; now exists xs.
Qed.

Lemma read_new_long (s : @Stored.store F) (t : tensor Z) :
  length (data t) <= numel (shape t) ->
  snd (Stored.read_long (Stored.TRef (length s) 0 (shape t))
         (s ++ [Stored.LongStorage (data t)])) = Ok t.
Proof.
  intros Hfit; unfold Stored.read_long, Stored.window.
  cbn [snd Stored.base Stored.offset Stored.view_shape].
  rewrite nth_error_app2, Nat.sub_diag by lia; cbn [nth_error skipn].
  rewrite firstn_all2 by assumption; now destruct t.
Qed.

Lemma block_of_window {A} (m a b off : nat) (xs : list A) :
  a + m <= b ->
  firstn m (skipn a (firstn b (skipn off xs))) =
  firstn m (skipn (off + a) xs).
Proof.
  intros Hab.
  rewrite skipn_firstn_comm, firstn_firstn, skipn_skipn.
  rewrite Nat.min_l by lia.
  now rewrite (Nat.add_comm a off).
Qed.

Lemma window_select_0 {A} (i : nat) (r : Stored.tref) (xs : list A) :
  select_0 i (Stored.window r xs) =
  (v <~ Stored.view_select_0 i r ;; Ok (Stored.window v xs)).
Proof.
  unfold select_0, Stored.view_select_0, Stored.window; cbn [shape data].
  destruct (Stored.view_shape r) as [|n [|c rest]]; try reflexivity.
  destruct (Nat.ltb_spec i n) as [Hi|Hi]; [|reflexivity].
  cbn [rbind Stored.view_shape Stored.offset Stored.base].
  do 2 f_equal; unfold chunk.
  apply block_of_window.
  change (numel (n :: c :: rest)) with (n * numel (c :: rest)); nia.
Qed.

Lemma view_select_0_base (i : nat) (r v : Stored.tref) :
  Stored.view_select_0 i r = Ok v -> Stored.base v = Stored.base r.
Proof.
  unfold Stored.view_select_0.
  destruct (Stored.view_shape r) as [|n [|c rest]]; try discriminate.
  destruct (i <? n); [|discriminate].
  intros E; inversion E; reflexivity.
Qed.

Lemma index_0_fresh {A} (k : Z) (a : nat) (sh : list nat) (xs : list A) :
  index_0 k (Tensor sh xs) =
  (v <~ Stored.view_index_0 k (Stored.TRef a 0 sh) ;;
   Ok (Stored.window v xs)).
Proof.
  unfold index_0, Stored.view_index_0, Stored.window.
  cbn [shape data Stored.view_shape Stored.offset Stored.base].
  destruct sh as [|n rest]; [reflexivity|].
  destruct ((_ <? 0)%Z || _)%bool; reflexivity.
Qed.

Lemma view_index_0_base (k : Z) (r v : Stored.tref) :
  Stored.view_index_0 k r = Ok v -> Stored.base v = Stored.base r.
Proof.
  unfold Stored.view_index_0.
  destruct (Stored.view_shape r) as [|n rest]; [discriminate|].
  destruct ((_ <? 0)%Z || _)%bool; [discriminate|].
  intros E; inversion E; reflexivity.
Qed.

(** What [torch.topk] and [torch.cat] return stores as many elements as
    its shape announces. *)
Lemma greedy_fits (t : tensor F) (ids : tensor Z) :
  _greedy t = Ok ids -> length (data ids) <= numel (shape ids).
Proof.
  unfold _greedy; destruct (shape t) as [|n sh] eqn:Es.
  - intros E; injection E as <-; simpl; lia.
  - destruct (last (n :: sh) 0 =? 0); [discriminate|].
    intros E; injection E as <-; cbn [shape data].
    unfold rows; rewrite !length_map, length_seq, numel_app, Es.
    rewrite Nat.mul_1_r; apply Nat.le_refl.
Qed.

Lemma chunk_length_le {A} n i (l : list A) : length (chunk n i l) <= n.
Proof. unfold chunk; rewrite length_firstn; lia. Qed.

Lemma cat_0_fits {A} (t1 t2 t : tensor A) :
  length (data t1) <= numel (shape t1) ->
  length (data t2) <= numel (shape t2) ->
  cat 0 t1 t2 = Ok t -> length (data t) <= numel (shape t).
Proof.
  intros H1 H2; unfold cat.
  destruct (list_eq_dec Nat.eq_dec (shape t1) [0]);
    [intros E; inversion E; subst; assumption|].
  destruct (list_eq_dec Nat.eq_dec (shape t2) [0]);
    [intros E; inversion E; subst; assumption|].
  destruct (negb (0 <? rank t1) || negb (0 <? rank t2))%bool; [discriminate|].
  destruct (negb (rank t1 =? rank t2)); [discriminate|].
  destruct (list_eq_dec _ _ _); [|discriminate].
  destruct (list_eq_dec _ _ _); [|discriminate].
  intros E; injection E as <-; cbn [shape data firstn app].
  change (numel []) with 1; cbn [seq map concat].
  rewrite app_nil_r, length_app.
  set (a := nth 0 (shape t1) 0); set (b := nth 0 (shape t2) 0).
  set (rest := match shape t1 with [] => [] | _ :: l => l end).
  pose proof (chunk_length_le (a * numel rest) 0 (data t1)).
  pose proof (chunk_length_le (b * numel rest) 0 (data t2)).
  change (numel (a + b :: rest)) with ((a + b) * numel rest).
  nia.
Qed.

(** Running the calls on a store. *)
Lemma sbind_run {A B} (m : @Stored.ST F A) (f : A -> @Stored.ST F B)
    (s s' : @Stored.store F) (r : result A) :
  m s = (s', r) ->
  Stored.sbind m f s =
  match r with
  | Ok a => f a s'
  | Raise e => (s', Raise e)
  end.
Proof. intros E; unfold Stored.sbind; rewrite E; now destruct r. Qed.

Lemma sbind_slift {A B} (r : result A) (f : A -> @Stored.ST F B)
    (s : @Stored.store F) :
  Stored.sbind (Stored.slift r) f s =
  match r with
  | Ok a => f a s
  | Raise e => (s, Raise e)
  end.
Proof. now apply sbind_run. Qed.

Lemma greedy_run (r : Stored.tref) (s : @Stored.store F) (row : tensor F) :
  snd (Stored.read_float r s) = Ok row ->
  Stored._greedy r s =
  match _greedy row with
  | Ok ids => (s ++ [Stored.LongStorage (data ids)],
               Ok (Stored.TRef (length s) 0 (shape ids)))
  | Raise e => (s, Raise e)
  end.
Proof.
  intros Hr; unfold Stored._greedy.
  rewrite (sbind_run _ _ _ _ _ (read_float_run _ _ _ Hr)), sbind_slift.
  now destruct (_greedy row).
Qed.

Lemma cat_run (dim : nat) (r1 r2 : Stored.tref) (s : @Stored.store F)
    (t1 t2 : tensor Z) :
  snd (Stored.read_long r1 s) = Ok t1 ->
  snd (Stored.read_long r2 s) = Ok t2 ->
  Stored.cat dim r1 r2 s =
  match cat dim t1 t2 with
  | Ok t => (s ++ [Stored.LongStorage (data t)],
             Ok (Stored.TRef (length s) 0 (shape t)))
  | Raise e => (s, Raise e)
  end.
Proof.
  intros H1 H2; unfold Stored.cat.
  rewrite (sbind_run _ _ _ _ _ (read_long_run _ _ _ H1)).
  rewrite (sbind_run _ _ _ _ _ (read_long_run _ _ _ H2)), sbind_slift.
  now destruct (cat dim t1 t2).
Qed.

Lemma log_softmax_run (r : Stored.tref) (s : @Stored.store F)
    (row : tensor F) :
  snd (Stored.read_float r s) = Ok row ->
  Stored.log_softmax r s =
  (s ++ [Stored.FloatStorage (data (log_softmax row))],
   Ok (Stored.TRef (length s) 0 (shape (log_softmax row)))).
Proof.
  intros Hr; unfold Stored.log_softmax.
  now rewrite (sbind_run _ _ _ _ _ (read_float_run _ _ _ Hr)).
Qed.

Lemma item_long_run (r : Stored.tref) (s : @Stored.store F) (t : tensor Z) :
  snd (Stored.read_long r s) = Ok t -> Stored.item_long r s = (s, item t).
Proof.
  intros Hr; unfold Stored.item_long.
  rewrite (sbind_run _ _ _ _ _ (read_long_run _ _ _ Hr)); reflexivity.
Qed.

Lemma item_float_run (r : Stored.tref) (s : @Stored.store F) (t : tensor F) :
  snd (Stored.read_float r s) = Ok t -> Stored.item_float r s = (s, item t).
Proof.
  intros Hr; unfold Stored.item_float.
  rewrite (sbind_run _ _ _ _ _ (read_float_run _ _ _ Hr)); reflexivity.
Qed.

Lemma tolist_run (r : Stored.tref) (s : @Stored.store F) (t : tensor Z) :
  snd (Stored.read_long r s) = Ok t -> Stored.tolist r s = (s, tolist t).
Proof.
  intros Hr; unfold Stored.tolist.
  rewrite (sbind_run _ _ _ _ _ (read_long_run _ _ _ Hr)); reflexivity.
Qed.

(** The second half of the body of the loop: the log-probability of the
    selected token is read and added. *)
Lemma text_body_tail (s : @Stored.store F) (rv last out : Stored.tref)
    (row : tensor F) (ids t : tensor Z) (lp0 : F) :
  snd (Stored.read_float rv s) = Ok row ->
  snd (Stored.read_long last s) = Ok ids ->
  snd (Stored.read_long out s) = Ok t ->
  length (data t) <= numel (shape t) ->
  let run :=
    Stored.sbind (Stored.slift (Ok rv)) (fun row' =>
    Stored.sbind (Stored.log_softmax row') (fun lsm =>
    Stored.sbind (Stored.item_long last) (fun k =>
    Stored.sbind (Stored.slift (Stored.view_index_0 k lsm)) (fun lp =>
    Stored.sbind (Stored.item_float lp) (fun x =>
    Stored.sret (Stored.TextState (Some out) (fadd lp0 x))))))) s in
  fst run = s ++ [Stored.FloatStorage (data (log_softmax row))] /\
  match (k <~ item ids ;;
         lp <~ index_0 k (log_softmax row) ;;
         x <~ item lp ;;
         Ok (TextState (Some t) (fadd lp0 x))) with
  | Ok v => exists st, snd run = Ok st /\ holds_state (fst run) st v
  | Raise e => snd run = Raise e
  end.
Proof.
  intros Hrow Hlast Hout Hfit; cbv zeta.
  rewrite sbind_slift.
  rewrite (sbind_run _ _ _ _ _ (log_softmax_run _ _ _ Hrow)).
  cbv beta iota.
  rewrite (sbind_run _ _ _ _ _
             (item_long_run _ _ _
                (read_long_app last s
                   [Stored.FloatStorage (data (log_softmax row))] ids Hlast))).
  set (s' := s ++ [Stored.FloatStorage (data (log_softmax row))]).
  destruct (item ids) as [k|e]; cbn [rbind]; [|split; reflexivity].
  rewrite sbind_slift.
  pose proof (index_0_fresh k (length s) (shape (log_softmax row))
                (data (log_softmax row))) as Hk.
  change (Tensor (shape (log_softmax row)) (data (log_softmax row)))
    with (log_softmax row) in Hk.
  rewrite Hk; clear Hk.
  destruct (Stored.view_index_0 k _) as [lp|e] eqn:Ek; cbn [rbind];
    [|split; reflexivity].
  assert (Hlp : snd (Stored.read_float lp s') =
                Ok (Stored.window lp (data (log_softmax row)))).
  { unfold Stored.read_float; cbn [snd].
    rewrite (view_index_0_base _ _ _ Ek); cbn [Stored.base]; unfold s'.
    now rewrite nth_error_app2, Nat.sub_diag by lia. }
  rewrite (sbind_run _ _ _ _ _ (item_float_run _ _ _ Hlp)).
  destruct (item (Stored.window lp (data (log_softmax row)))) as [x|e];
    cbn [rbind]; [|split; reflexivity].
  split; [reflexivity|].
  eexists; split; [reflexivity|].
  split; [reflexivity|]; cbn [Stored.output_so_far output_so_far fst].
  split; [now apply read_long_app | exact Hfit].
Qed.

Lemma text_body_stored (s : @Stored.store F) (logits : Stored.tref)
    (L : tensor F) (i : nat) (st : @Stored.text_state F) (v : @text_state F) :
  snd (Stored.read_float logits s) = Ok L ->
  holds_state s st v ->
  exists new,
    fst (Stored.text_body logits i st s) = s ++ new /\
    match text_body L i v with
    | Ok v' =>
        exists st', snd (Stored.text_body logits i st s) = Ok st' /\
                    holds_state (s ++ new) st' v'
    | Raise e => snd (Stored.text_body logits i st s) = Raise e
    end.
Proof.
  intros Hread [Hlp Hout].
  destruct (read_float_stored _ _ _ Hread) as (xs & Hnth & ->).
  unfold text_body, Stored.text_body.
  rewrite window_select_0, sbind_slift.
  destruct (Stored.view_select_0 i logits) as [rv|e] eqn:Ev; cbn [rbind];
    [|exists []; rewrite app_nil_r; split; reflexivity].
  set (row := Stored.window rv xs).
  assert (Hrow : snd (Stored.read_float rv s) = Ok row).
  { unfold Stored.read_float; cbn [snd].
    now rewrite (view_select_0_base _ _ _ Ev), Hnth. }
  pose proof (greedy_run _ _ _ Hrow) as Hg.
  destruct (_greedy row) as [ids|e] eqn:Eg; cbn [rbind];
    rewrite (sbind_run _ _ _ _ _ Hg); clear Hg; cbv beta iota;
    [|exists []; rewrite app_nil_r; split; reflexivity].
  pose proof (greedy_fits _ _ Eg) as Hfit.
  set (s1 := s ++ [Stored.LongStorage (data ids)]).
  set (last := Stored.TRef (length s) 0 (shape ids)).
  assert (Hlast : snd (Stored.read_long last s1) = Ok ids)
    by (now apply read_new_long).
  assert (Hrow1 : snd (Stored.read_float rv s1) = Ok row)
    by (now apply read_float_app).
  destruct st as [[acc|] lp], v as [[ta|] lp']; cbn in Hlp, Hout;
    try contradiction; subst lp'; cbn [Stored.output_so_far output_so_far
                                       Stored.logp logp].
  - destruct Hout as [Hacc Hfa].
    pose proof (cat_run 0 _ _ _ _ _
                  (read_long_app acc s [Stored.LongStorage (data ids)] ta Hacc)
                  Hlast) as Hc.
    destruct (cat 0 ta ids) as [t|e] eqn:Ec; cbn [rbind];
      rewrite (sbind_run _ _ _ _ _ Hc); clear Hc; cbv beta iota;
      [|exists [Stored.LongStorage (data ids)]; split; reflexivity].
    pose proof (cat_0_fits _ _ _ Hfa Hfit Ec) as Hft.
    fold s1.
    set (s2 := s1 ++ [Stored.LongStorage (data t)]).
    set (out := Stored.TRef (length s1) 0 (shape t)).
    destruct (text_body_tail s2 rv last out row ids t lp)
      as [Hfst Hsnd];
      [now apply read_float_app | now apply read_long_app
      | now apply read_new_long | exact Hft |].
    exists ([Stored.LongStorage (data ids)] ++
            [Stored.LongStorage (data t)] ++
            [Stored.FloatStorage (data (log_softmax row))]).
    split; [rewrite Hfst; unfold s2, s1; now rewrite <- !app_assoc|].
    replace (s ++ [Stored.LongStorage (data ids)] ++
             [Stored.LongStorage (data t)] ++
             [Stored.FloatStorage (data (log_softmax row))])
      with (s2 ++ [Stored.FloatStorage (data (log_softmax row))])
      by (unfold s2, s1; now rewrite <- !app_assoc).
    rewrite <- Hfst; exact Hsnd.
  - rewrite (sbind_run _ _ s1 _ (Ok last) eq_refl); cbv beta iota.
    destruct (text_body_tail s1 rv last last row ids ids lp)
      as [Hfst Hsnd]; try assumption.
    exists ([Stored.LongStorage (data ids)] ++
            [Stored.FloatStorage (data (log_softmax row))]).
    split; [rewrite Hfst; unfold s1; now rewrite <- !app_assoc|].
    replace (s ++ [Stored.LongStorage (data ids)] ++
             [Stored.FloatStorage (data (log_softmax row))])
      with (s1 ++ [Stored.FloatStorage (data (log_softmax row))])
      by (unfold s1; now rewrite <- !app_assoc).
    rewrite <- Hfst; exact Hsnd.
Qed.

Lemma text_loop_stored (logits : Stored.tref) (L : tensor F)
    (idx : list nat) :
  forall (s : @Stored.store F) (st : @Stored.text_state F)
         (v : @text_state F),
    snd (Stored.read_float logits s) = Ok L ->
    holds_state s st v ->
    exists new,
      fst (Stored.for_index idx (Stored.text_body logits) st s) = s ++ new /\
      match for_index idx (text_body L) v with
      | Ok v' =>
          exists st',
            snd (Stored.for_index idx (Stored.text_body logits) st s) =
              Ok st' /\
            holds_state (s ++ new) st' v'
      | Raise e =>
          snd (Stored.for_index idx (Stored.text_body logits) st s) = Raise e
      end.
Proof.
  induction idx as [|i idx IH]; intros s st v Hread Hst.
  - exists []; rewrite app_nil_r; split; [reflexivity|].
    exists st; split; [reflexivity | exact Hst].
  - cbn [Stored.for_index for_index].
    destruct (text_body_stored s logits L i st v Hread Hst) as (n1 & Hf & Hs).
    rewrite (sbind_run _ _ _ _ _
               (surjective_pairing (Stored.text_body logits i st s))).
    rewrite Hf.
    destruct (text_body L i v) as [v1|e]; cbn [rbind].
    + destruct Hs as (st1 & -> & Hst1).
      destruct (IH (s ++ n1) st1 v1 (read_float_app _ _ _ _ Hread) Hst1)
        as (n2 & Hf2 & Hs2).
      exists (n1 ++ n2); rewrite app_assoc; split; assumption.
    + rewrite Hs; exists n1; split; reflexivity.
Qed.

Lemma get_text_from_logits_stored (s : @Stored.store F)
    (logits : Stored.tref) (L : tensor F) (decode : list Z -> string) :
  snd (Stored.read_float logits s) = Ok L ->
  exists new,
    fst (Stored.get_text_from_logits logits decode s) = s ++ new /\
    Stored.returns_as (s ++ new)
      (snd (Stored.get_text_from_logits logits decode s))
      (get_text_from_logits L decode).
Proof.
  intros Hread.
  assert (Hshape : shape L = Stored.view_shape logits).
  { destruct (read_float_stored _ _ _ Hread) as (xs & _ & ->); reflexivity. }
  unfold Stored.get_text_from_logits, get_text_from_logits.
  rewrite sbind_slift; unfold Stored.size_0, size_0; rewrite Hshape.
  destruct (Stored.view_shape logits) as [|n sh]; cbn [rbind];
    [exists []; rewrite app_nil_r; split; reflexivity|].
  destruct (text_loop_stored logits L (seq 0 n) s
              (Stored.TextState None fzero) (TextState None fzero) Hread)
    as (new & Hf & Hs); [split; exact I || reflexivity|].
  rewrite (sbind_run _ _ _ _ _
             (surjective_pairing
                (Stored.for_index (seq 0 n) (Stored.text_body logits)
                   (Stored.TextState None fzero) s))).
  rewrite Hf.
  destruct (for_index (seq 0 n) (text_body L) (TextState None fzero))
    as [v|e]; cbn [rbind].
  - destruct Hs as (st & -> & Hlp & Hout).
    destruct st as [[out|] lp], v as [[t|] lp']; cbn in Hlp, Hout;
      try contradiction; subst lp';
      cbn [Stored.output_so_far output_so_far Stored.logp logp].
    + destruct Hout as [Hout _].
      rewrite (sbind_run _ _ _ _ _ (tolist_run _ _ _ Hout)).
      exists new; destruct (tolist t) as [ids|e]; cbn [rbind].
      * split; [reflexivity|]; cbn [snd Stored.returns_as Stored.sret].
        repeat split; exact Hout.
      * split; reflexivity.
    + exists new; split; reflexivity.
  - rewrite Hs; exists new; split; reflexivity.
Qed.

Lemma returns_as_app (s new : @Stored.store F)
    (r : result (string * F * Stored.tref))
    (v : result (string * F * tensor Z)) :
  Stored.returns_as s r v -> Stored.returns_as (s ++ new) r v.
Proof.
  unfold Stored.returns_as.
  destruct r as [[[text nll] out]|e], v as [[[text' nll'] ids]|e'];
    try exact (fun x => x).
  intros (-> & -> & Hout); repeat split; now apply read_long_app.
Qed.

(** C8: transcript reconstruction only reads the tensors it is given and
    allocates the ones it builds.  Run twice in sequence on the same
    stored logits and with the same detokenizer, it leaves every storage
    that existed before as it was, the logits among them, and the two
    runs have the same outcome, that of the reconstruction on the value
    of the logits: the same text, the same negative log-likelihood and
    token-id tensors with the same contents, or the same exception.  On
    logits of at least one step over a non-empty vocabulary both runs
    return. *)
Theorem get_text_from_logits_idempotent
    (s : @Stored.store F) (logits : Stored.tref) (L : tensor F)
    (decode : list Z -> string)
    (Hstored : snd (Stored.read_float logits s) = Ok L) :
  let run1 := Stored.get_text_from_logits logits decode s in
  let run2 := Stored.get_text_from_logits logits decode (fst run1) in
  (exists new1 new2,
     fst run1 = s ++ new1 /\ fst run2 = s ++ new1 ++ new2) /\
  snd (Stored.read_float logits (fst run1)) = Ok L /\
  snd (Stored.read_float logits (fst run2)) = Ok L /\
  Stored.returns_as (fst run2) (snd run1) (get_text_from_logits L decode) /\
  Stored.returns_as (fst run2) (snd run2) (get_text_from_logits L decode) /\
  (forall T V,
     topk_in_range K ->
     shape L = [T; V] -> wf L -> 0 < T -> 0 < V ->
     exists text nll out1 out2 ids,
       snd run1 = Ok (text, nll, out1) /\
       snd run2 = Ok (text, nll, out2) /\
       snd (Stored.read_long out1 (fst run2)) = Ok ids /\
       snd (Stored.read_long out2 (fst run2)) = Ok ids).
Proof.
  cbv zeta.
  destruct (get_text_from_logits_stored s logits L decode Hstored)
    as (new1 & Hf1 & Hr1).
  rewrite Hf1.
  pose proof (read_float_app _ _ new1 _ Hstored) as Hstored1.
  destruct (get_text_from_logits_stored (s ++ new1) logits L decode Hstored1)
    as (new2 & Hf2 & Hr2).
  rewrite Hf2.
  pose proof (returns_as_app _ new2 _ _ Hr1) as Hr1'.
  split; [exists new1, new2; split; [reflexivity | now rewrite app_assoc]|].
  split; [exact Hstored1|].
  split; [now apply read_float_app|].
  split; [exact Hr1'|].
  split; [exact Hr2|].
  intros T V Hk Hs Hwf HT HV.
  rewrite (get_text_from_logits_ok L decode T V Hk Hs Hwf HT HV) in Hr1', Hr2.
  unfold Stored.returns_as in Hr1', Hr2.
  destruct (snd (Stored.get_text_from_logits logits decode s))
    as [[[text1 nll1] out1]|e1]; [|contradiction].
  destruct (snd (Stored.get_text_from_logits logits decode (s ++ new1)))
    as [[[text2 nll2] out2]|e2]; [|contradiction].
  destruct Hr1' as (-> & -> & Ho1), Hr2 as (-> & -> & Ho2).
  do 5 eexists; repeat split; eassumption.
Qed.
End StoredText.


Lemma get_text_from_logits_idempotent_witness :
  let s := [Stored.FloatStorage [3; 5; 4; 1]%Z] in
  let logits := Stored.TRef 0 0 [2; 2] in
  let decode := fun ids : list Z => "ok"%string in
  let run1 := Stored.get_text_from_logits (K := first_greatest)
                logits decode s in
  let run2 := Stored.get_text_from_logits (K := first_greatest)
                logits decode (fst run1) in
  exists out1 out2,
    snd run1 = Ok ("ok"%string, 0%Z, out1) /\
    snd run2 = Ok ("ok"%string, 0%Z, out2) /\
    out1 <> out2 /\
    snd (Stored.read_long out1 (fst run2)) = Ok (Tensor [2] [1; 0]%Z) /\
    snd (Stored.read_long out2 (fst run2)) = Ok (Tensor [2] [1; 0]%Z) /\
    firstn 1 (fst run2) = s.
Proof.
  cbv zeta.
  pose proof (get_text_from_logits_idempotent (K := first_greatest)
                [Stored.FloatStorage [3; 5; 4; 1]%Z]
                (Stored.TRef 0 0 [2; 2]) (Tensor [2; 2] [3; 5; 4; 1]%Z)
                (fun ids => "ok"%string) eq_refl) as Hrun.
  cbv zeta in Hrun.
  destruct Hrun as (_ & _ & _ & _ & _ & Hsame).
  destruct (Hsame 2 2) as (text & nll & out1 & out2 & ids & H1 & H2 & H3 & H4).
  - apply first_greatest_in_range.
  - reflexivity.
  - reflexivity.
  - lia.
  - lia.
  - vm_compute in H1; inversion H1; subst text nll out1.
    vm_compute in H2; inversion H2; subst out2.
    do 2 eexists.
    split; [reflexivity|].
    split; [reflexivity|].
    split; [discriminate|].
    split; [reflexivity|].
    split; reflexivity.
Defined.

(** The store is shared.  After [logits[1, :].zero_()], an in-place write
    through a view of the stored logits, the reconstruction reads the
    written scores: the transcript of the same tensor object is another
    one. *)
Example in_place_write_is_read :
  let s := [Stored.FloatStorage [0; 4; 1; 2; 7; 3]%Z] in
  let logits := Stored.TRef 0 0 [2; 3] in
  let decode := fun ids : list Z => ""%string in
  let run1 := Stored.get_text_from_logits (K := first_greatest)
                logits decode s in
  let run2 :=
    Stored.sbind (Stored.slift (Stored.view_select_0 1 logits)) (fun row =>
    Stored.sbind (Stored.zero_ row) (fun _ =>
    Stored.get_text_from_logits (K := first_greatest) logits decode))
      (fst run1) in
  Stored.returns_as (fst run1) (snd run1)
    (Ok (""%string, 0%Z, Tensor [2] [1; 1]%Z)) /\
  Stored.returns_as (fst run2) (snd run2)
    (Ok (""%string, 0%Z, Tensor [2] [1; 0]%Z)) /\
  nth_error (fst run2) 0 = Some (Stored.FloatStorage [0; 4; 1; 0; 0; 0]%Z).
Proof. cbv zeta; vm_compute; repeat split. Qed.

(** ** Soft decoding, step by step *)

Section SoftSteps.
Context {F : Type} `{Scalar F} {Past : Type}.
Variable model : @lm F Past.
Variable temperature : F.

Lemma soft_tail_outcome (p : option Past) (x : tensor F)
    (acc : option (tensor F)) :
  outcome (soft_tail model temperature p (Some x) acc) =
  (out <~ forward model p (InputsEmbeds x) ;;
   last <~ select_last_1 (logits out) ;;
   scaled <~ unsqueeze 1 (div_by temperature last) ;;
   acc' <~ append_step acc scaled ;;
   x' <~ outcome (embed_inputs (get_input_embeddings model) scaled false) ;;
   Ok (SoftState (past_key_values out) (Some x') (Some acc'))).
Proof.
  unfold soft_tail, call_embeds.
  rewrite outcome_bind, outcome_lift.
  destruct (forward model p (InputsEmbeds x)) as [out|e]; cbn [rbind];
    [|reflexivity].
  rewrite outcome_bind, outcome_lift.
  destruct (select_last_1 (logits out)) as [l|e]; cbn [rbind];
    [|reflexivity].
  rewrite outcome_bind, outcome_lift.
  destruct (unsqueeze 1 (div_by temperature l)) as [l'|e]; cbn [rbind];
    [|reflexivity].
  rewrite outcome_bind, outcome_lift; unfold append_step.
  destruct (match acc with Some a => cat 1 a l' | None => Ok l' end)
    as [acc'|e]; cbn [rbind]; [|reflexivity].
  rewrite outcome_bind.
  destruct (outcome (embed_inputs (get_input_embeddings model) l' false));
    reflexivity.
Qed.

(** Once a cached state is held, an iteration of either loop body is the
    shared tail on the input left by the previous iteration. *)
Lemma soft_body_cached (input_one_hot1 : tensor Z) (p : Past)
    (x : option (tensor F)) (acc : option (tensor F)) :
  soft_body model input_one_hot1 temperature (SoftState (Some p) x acc) =
  soft_tail model temperature (Some p) x acc.
Proof. unfold soft_body; cbn [past]; rewrite bind_ret_l; reflexivity. Qed.

Lemma embedding_body_cached (prompt_embedding : tensor F) (p : Past)
    (x : option (tensor F)) (acc : option (tensor F)) :
  embedding_body model temperature prompt_embedding (SoftState (Some p) x acc) =
  soft_tail model temperature (Some p) x acc.
Proof. reflexivity. Qed.

(** Without a cached state the one-hot loop body embeds the prompt again,
  whatever input the previous iteration left. *)
Remark soft_body_without_cache (input_one_hot1 : tensor Z)
  (x : option (tensor F)) (acc : option (tensor F)) :
soft_body model input_one_hot1 temperature (SoftState None x acc) =
soft_body model input_one_hot1 temperature (SoftState None None acc).
Proof. reflexivity. Qed.

Lemma cached_loop (body : @soft_state F Past -> M F (@soft_state F Past)) :
  (forall p x acc,
     body (SoftState (Some p) x acc) =
     soft_tail model temperature (Some p) x acc) ->
  returns_cache model ->
  forall n p x acc,
    rbind (outcome (for_range n body (SoftState (Some p) (Some x) acc)))
          (fun st => Ok (logits_so_far st)) =
    soft_steps model temperature n (Some p) x acc.
Proof.
  intros Hbody Hcache; induction n as [|n IH]; intros p x acc.
  - reflexivity.
  - rewrite outcome_for_range_S, Hbody, soft_tail_outcome.
    cbn [soft_steps].
    destruct (forward model (Some p) (InputsEmbeds x)) as [out|e] eqn:Eout;
      cbn [rbind]; [|reflexivity].
    destruct (select_last_1 (logits out)) as [l|e]; cbn [rbind];
      [|reflexivity].
    destruct (unsqueeze 1 (div_by temperature l)) as [l'|e]; cbn [rbind];
      [|reflexivity].
    destruct (append_step acc l') as [acc'|e]; cbn [rbind]; [|reflexivity].
    destruct (outcome (embed_inputs (get_input_embeddings model) l' false))
      as [x'|e]; cbn [rbind]; [|reflexivity].
    destruct (past_key_values out) as [p'|] eqn:Ep.
    + apply IH.
    + exfalso; exact (Hcache _ _ _ Eout Ep).
Qed.

(** The first iteration starts without cached state, on the input [x0]
    that the loop body prepares; the later ones are [cached_loop]. *)
Lemma first_then_cached (body : @soft_state F Past -> M F (@soft_state F Past))
    (x0 : tensor F) :
  outcome (body (soft_init Past)) =
    outcome (soft_tail model temperature None (Some x0) None) ->
  (forall p x acc,
     body (SoftState (Some p) x acc) =
     soft_tail model temperature (Some p) x acc) ->
  returns_cache model ->
  forall n,
    rbind (outcome (for_range (S n) body (soft_init Past)))
          (fun st => Ok (logits_so_far st)) =
    soft_steps model temperature (S n) None x0 None.
Proof.
  intros Hfirst Hbody Hcache n.
  rewrite outcome_for_range_S, Hfirst, soft_tail_outcome.
  cbn [soft_steps].
  destruct (forward model None (InputsEmbeds x0)) as [out|e] eqn:Eout;
    cbn [rbind]; [|reflexivity].
  destruct (select_last_1 (logits out)) as [l|e]; cbn [rbind];
    [|reflexivity].
  destruct (unsqueeze 1 (div_by temperature l)) as [l'|e]; cbn [rbind];
    [|reflexivity].
  destruct (append_step None l') as [acc'|e]; cbn [rbind]; [|reflexivity].
  destruct (outcome (embed_inputs (get_input_embeddings model) l' false))
    as [x'|e]; cbn [rbind]; [|reflexivity].
  destruct (past_key_values out) as [p'|] eqn:Ep.
  - now apply cached_loop.
  - exfalso; exact (Hcache _ _ _ Eout Ep).
Qed.

Lemma decode_outcome (body : @soft_state F Past -> M F (@soft_state F Past)) n :
  outcome (st <- for_range n body (soft_init Past) ;; ret (logits_so_far st)) =
  rbind (outcome (for_range n body (soft_init Past)))
        (fun st => Ok (logits_so_far st)).
Proof. now rewrite outcome_bind. Qed.

Lemma decode_with_embeddings_steps (input_one_hot1 : tensor Z) (n : nat) :
  returns_cache model ->
  outcome (decode_with_embeddings model (Z.of_nat (S n)) input_one_hot1
             temperature) =
  soft_decoding_spec model temperature (S n) (to_float input_one_hot1).
Proof.
  intros Hcache; unfold decode_with_embeddings, soft_decoding_spec.
  rewrite Nat2Z.id, decode_outcome.
  destruct (outcome (embed_inputs (get_input_embeddings model)
              (div_by temperature (to_float input_one_hot1)) true))
    as [x0|e] eqn:E0; cbn [rbind].
  - apply first_then_cached; try assumption.
    + unfold soft_body; cbn [soft_init past logits_so_far].
      rewrite outcome_bind, outcome_bind, E0; reflexivity.
    + intros; apply soft_body_cached.
  - rewrite outcome_for_range_S.
    unfold soft_body at 1; cbn [soft_init past].
    rewrite outcome_bind, outcome_bind, E0; reflexivity.
Qed.

Lemma decode_with_embedding_steps (prompt_embedding : tensor F) (n : nat) :
  returns_cache model ->
  outcome (decode_with_embedding model (Z.of_nat n) temperature
             prompt_embedding) =
  soft_steps model temperature n None prompt_embedding None.
Proof.
  intros Hcache; unfold decode_with_embedding.
  rewrite Nat2Z.id, decode_outcome.
  destruct n as [|n]; [reflexivity|].
  apply first_then_cached; try assumption; [reflexivity|].
  intros; apply embedding_body_cached.
Qed.
End SoftSteps.

(** ** The small models meet the interface *)

Lemma flat_map_length_const {A B} (f : A -> list B) (k : nat) (l : list A) :
  (forall x, length (f x) = k) -> length (flat_map f l) = length l * k.
Proof.
  intros Hf; induction l as [|x l IH]; [reflexivity|].
  cbn [flat_map length]; rewrite length_app, Hf, IH; lia.
Qed.

Lemma ramp_model_returns_cache (e : @embedding Z) :
  returns_cache (ramp_model e).
Proof.
  intros p x out Hout; destruct x; inversion Hout; discriminate.
Qed.

Lemma ramp_model_embeds_shape (e : @embedding Z) (B : nat) :
  respects_embeds_shape (ramp_model e) B 3.
Proof.
  intros p x s Hx Hwx Hs; eexists; split; [reflexivity|].
  cbn [logits shape data]; rewrite Hx; cbn [removelast app].
  split; [reflexivity|].
  unfold wf; cbn [shape data numel fold_right].
  rewrite (flat_map_length_const _ 3) by reflexivity.
  rewrite length_seq; lia.
Qed.

Lemma ramp_model_ids_shape (e : @embedding Z) :
  respects_ids_shape (ramp_model e) 3.
Proof.
  intros ids s Hids Hwf Hs; eexists; split; [reflexivity|].
  cbn [logits shape data]; rewrite Hids; split; [reflexivity|].
  unfold wf in *; rewrite Hids in Hwf; cbn [shape data numel fold_right] in *.
  rewrite (flat_map_length_const _ 3) by reflexivity.
  cbn [app fold_right]; lia.
Qed.

(** C4, as the code has it, for a model that hands back a cached state
    from every forward pass.  In the loops primed with a one-hot prompt
    ([decode_with_embeddings], [decode_with_one_hot]) step 0 divides the
    prompt by the temperature before the embedding projection; in
    [decode_with_embedding] the prompt embedding goes to the model as it
    is.  From there on, in all three, every step divides the last-position
    logits of the forward pass by the temperature, appends them, and embeds
    exactly the appended logits, with no further scaling, as the next
    input. *)
Theorem soft_decoding_steps {F : Type} `{Scalar F} {Past : Type}
    (model : @lm F Past) (temperature : F) (Hcache : returns_cache model) :
  (forall (length : Z) (input_one_hot1 : tensor Z), (1 <= length)%Z ->
     outcome (decode_with_embeddings model length input_one_hot1 temperature) =
       soft_decoding_spec model temperature (Z.to_nat length)
         (to_float input_one_hot1) /\
     outcome (decode_with_one_hot model length input_one_hot1 temperature) =
       soft_decoding_spec model temperature (Z.to_nat length)
         (to_float input_one_hot1)) /\
  (forall (length : Z) (prompt_embedding : tensor F),
     outcome (decode_with_embedding model length temperature prompt_embedding) =
       soft_steps model temperature (Z.to_nat length) None prompt_embedding None).
Proof.
  split.
  - intros length oh Hlen.
    destruct (Z.to_nat length) as [|n] eqn:En; [lia|].
    replace length with (Z.of_nat (S n)) by lia.
    split; now apply decode_with_embeddings_steps.
  - intros length pe.
    destruct (Z_le_gt_dec 0 length) as [Hpos|Hneg].
    + rewrite <- (Z2Nat.id length Hpos) at 1.
      now apply decode_with_embedding_steps.
    + unfold decode_with_embedding.
      replace (Z.to_nat length) with 0 by lia; reflexivity.
Qed.

Lemma soft_decoding_steps_witness :
  outcome (decode_with_embeddings (ramp_model ramp_table) 3
             (Tensor [1; 2; 3] [1; 0; 0; 0; 1; 0]%Z) 1%Z) =
    Ok (Some (Tensor [1; 3; 3] [0; 5; 1; 0; 5; 1; 0; 5; 1]%Z)) /\
  outcome (decode_with_embedding (ramp_model ramp_table) 2 1%Z
             (Tensor [1; 1; 2] [3; 5]%Z)) =
    Ok (Some (Tensor [1; 2; 3] [3; 2; 1; 0; 5; 1]%Z)).
Proof.
  destruct (soft_decoding_steps (ramp_model ramp_table) 1%Z
              (ramp_model_returns_cache ramp_table))
    as [Hsoft Hemb].
  split.
  - destruct (Hsoft 3%Z (Tensor [1; 2; 3] [1; 0; 0; 0; 1; 0]%Z)) as [E _];
      [lia|].
    rewrite E; reflexivity.
  - rewrite Hemb; reflexivity.
Defined.

(** C4, as stated, fails for [decode_with_embedding]: its step 0 neither
    divides the prompt embedding by the temperature nor projects it.  On a
    prompt embedding of dimension 2 and a vocabulary of 3 the loop returns
    its logits, while dividing and projecting the prompt first would stop
    at the product of a row of 2 probabilities with a table of 3 rows. *)
Lemma decode_with_embedding_counterexample :
  let model := zero_model (Embedding 3 2 [1; 0; 0; 1; 1; 1]%R) in
  let prompt_embedding := Tensor [1; 1; 2] [3; 5]%R in
  (exists acc,
     outcome (decode_with_embedding model 1 1%R prompt_embedding) =
       Ok (Some acc) /\ shape acc = [1; 1; 3]) /\
  soft_decoding_spec model 1%R 1 prompt_embedding = Raise RuntimeError /\
  outcome (decode_with_embedding model 1 1%R prompt_embedding) <>
    soft_decoding_spec model 1%R 1 prompt_embedding.
Proof.
  cbv zeta.
  assert (E : soft_decoding_spec
                (zero_model (Embedding 3 2 [1; 0; 0; 1; 1; 1]%R)) 1%R 1
                (Tensor [1; 1; 2] [3; 5]%R) = Raise RuntimeError)
    by reflexivity.
  assert (G : exists acc,
             outcome (decode_with_embedding
                        (zero_model (Embedding 3 2 [1; 0; 0; 1; 1; 1]%R)) 1
                        1%R (Tensor [1; 1; 2] [3; 5]%R)) = Ok (Some acc) /\
             shape acc = [1; 1; 3])
    by (eexists; split; reflexivity).
  split; [exact G|]; split; [exact E|].
  destruct G as [acc [G _]]; rewrite G, E; discriminate.
Qed.

(** ** Shapes along the decoding loops *)

Lemma concat_map_seq_length {A} (f : nat -> list A) n k :
  (forall i, i < n -> length (f i) = k) ->
  length (concat (map f (seq 0 n))) = n * k.
Proof.
  intros Hf; rewrite (concat_length_uniform _ k).
  - now rewrite length_map, length_seq.
  - apply Forall_map, Forall_forall; intros i Hi; apply in_seq in Hi.
    apply Hf; lia.
Qed.

Lemma select_last_1_rank3 {A} (t : tensor A) B s V :
  shape t = [B; s; V] -> 0 < s ->
  select_last_1 t =
  Ok (Tensor [B; V]
        (concat (map (fun i => chunk V (i * s + (s - 1)) (data t)) (seq 0 B)))).
Proof.
  intros Hs Hpos; unfold select_last_1; rewrite Hs.
  destruct (Nat.eqb_spec s 0); [lia|].
  cbn [numel fold_right]; now rewrite Nat.mul_1_r.
Qed.

Lemma select_last_1_wf {A} (t : tensor A) B s V :
  shape t = [B; s; V] -> wf t -> 0 < s ->
  wf (Tensor [B; V]
        (concat (map (fun i => chunk V (i * s + (s - 1)) (data t)) (seq 0 B)))).
Proof.
  intros Hs Hwf Hpos; unfold wf in *; cbn [shape data numel fold_right].
  rewrite Hs in Hwf; cbn [numel fold_right] in Hwf.
  rewrite (concat_map_seq_length _ B V); [lia|].
  intros i Hi; apply chunk_length; rewrite Hwf.
  replace (i * s + (s - 1) + 1) with ((i + 1) * s) by lia.
  rewrite Nat.mul_1_r, Nat.mul_assoc.
  apply Nat.mul_le_mono_r, Nat.mul_le_mono_r; lia.
Qed.

Lemma cat_1_ok {A} (t1 t2 : tensor A) b k1 k2 rest :
  shape t1 = b :: k1 :: rest -> shape t2 = b :: k2 :: rest ->
  cat 1 t1 t2 =
  Ok (Tensor (b :: k1 + k2 :: rest)
        (concat (map (fun o => chunk (k1 * numel rest) o (data t1) ++
                               chunk (k2 * numel rest) o (data t2))
                     (seq 0 b)))).
Proof.
  intros H1 H2; unfold cat, rank; rewrite H1, H2.
  destruct (list_eq_dec Nat.eq_dec (b :: k1 :: rest) [0]); [discriminate|].
  destruct (list_eq_dec Nat.eq_dec (b :: k2 :: rest) [0]); [discriminate|].
  cbn [length Nat.ltb Nat.leb negb orb firstn skipn nth].
  rewrite Nat.eqb_refl; cbn [negb].
  destruct (list_eq_dec Nat.eq_dec [b] [b]); [|congruence].
  destruct (list_eq_dec Nat.eq_dec rest rest); [|congruence].
  cbn [numel fold_right app]; now rewrite Nat.mul_1_r.
Qed.

Lemma cat_1_wf {A} (d1 d2 : list A) b k1 k2 rest :
  length d1 = b * (k1 * numel rest) ->
  length d2 = b * (k2 * numel rest) ->
  wf (Tensor (b :: k1 + k2 :: rest)
        (concat (map (fun o => chunk (k1 * numel rest) o d1 ++
                               chunk (k2 * numel rest) o d2)
                     (seq 0 b)))).
Proof.
  intros H1 H2; unfold wf; cbn [shape data].
  change (numel (b :: k1 + k2 :: rest)) with (b * ((k1 + k2) * numel rest)).
  rewrite (concat_map_seq_length _ b ((k1 + k2) * numel rest)); [reflexivity|].
  intros o Ho; rewrite length_app, !chunk_length by nia; lia.
Qed.

(** With a batch of one, concatenation along the time axis appends the
    storages. *)
Lemma cat_1_batch1 {A} (d1 d2 : list A) k1 k2 rest :
  length d1 = k1 * numel rest ->
  length d2 = k2 * numel rest ->
  cat 1 (Tensor (1 :: k1 :: rest) d1) (Tensor (1 :: k2 :: rest) d2) =
  Ok (Tensor (1 :: k1 + k2 :: rest) (d1 ++ d2)).
Proof.
  intros H1 H2.
  rewrite (cat_1_ok _ _ 1 k1 k2 rest) by reflexivity.
  cbn [seq map concat data]; rewrite app_nil_r.
  now rewrite !chunk_0_all.
Qed.

Section SoftShapes.
Context {F : Type} `{Scalar F} {Past : Type}.
Variable model : @lm F Past.
Variable temperature : F.
Variables B V s0 : nat.
Variable input_one_hot1 : tensor Z.


Hypothesis HV : num_embeddings (get_input_embeddings model) = V.
Hypothesis Hmodel : respects_embeds_shape model B V.
Hypothesis Hprompt : shape input_one_hot1 = [B; s0; V].
Hypothesis Hs0 : 0 < s0.

Lemma embed_inputs_rank3 (l : tensor F) b s pe :
  shape l = [b; s; V] ->
  exists x, outcome (embed_inputs (get_input_embeddings model) l pe) = Ok x /\
            shape x = [b; s; (embedding_dim (get_input_embeddings model))] /\ wf x.
Proof.
  intros Hs.
  assert (Hs' : shape l = [b; s] ++ [num_embeddings (get_input_embeddings model)])
    by (rewrite HV; exact Hs).
  eexists; split; [apply (embed_inputs_outcome (get_input_embeddings model) l pe [b; s] Hs')|].
  split; [reflexivity|].
  apply (embed_inputs_wf (get_input_embeddings model) l [b; s] Hs').
Qed.

Lemma soft_tail_inv (p : option Past) (x : tensor F) s k
    (acc : option (tensor F)) :
  shape x = [B; s; (embedding_dim (get_input_embeddings model))] -> wf x -> 0 < s ->
  records_steps B V k acc ->
  exists st, outcome (soft_tail model temperature p (Some x) acc) = Ok st /\
             soft_inv model B V (S k) st.
Proof.
  intros Hx Hwx Hs Hacc; rewrite soft_tail_outcome.
  destruct (Hmodel p x s Hx Hwx Hs) as (out & Hout & Hsh & Hwf).
  rewrite Hout; cbn [rbind].
  rewrite (select_last_1_rank3 _ B s V Hsh Hs); cbn [rbind].
  pose proof (select_last_1_wf _ B s V Hsh Hwf Hs) as Hwl.
  set (l := concat _) in *.
  change (unsqueeze 1 (div_by temperature (Tensor [B; V] l)))
    with (Ok (Tensor [B; 1; V] (map (fun x => fdiv x temperature) l))).
  cbn [rbind].
  assert (Hlen : length (map (fun x => fdiv x temperature) l) = B * (1 * V)).
  { rewrite length_map; unfold wf in Hwl; cbn in Hwl; lia. }
  set (l' := Tensor [B; 1; V] (map (fun x => fdiv x temperature) l)) in *.
  destruct (embed_inputs_rank3 l' B 1 false eq_refl) as (x' & Hx' & Hsx' & Hwx').
  assert (Hcat : exists acc', append_step acc l' = Ok acc' /\
                              shape acc' = [B; S k; V] /\ wf acc').
  { destruct acc as [a|]; cbn [records_steps append_step] in *.
    - destruct Hacc as (Hk & Hsa & Hwa).
      rewrite (cat_1_ok a l' B k 1 [V]) by (assumption || reflexivity).
      eexists; split; [reflexivity|]; split.
      + cbn [shape]; do 2 f_equal; lia.
      + apply cat_1_wf.
        * unfold wf in Hwa; rewrite Hsa in Hwa; exact Hwa.
        * cbn [data l' numel fold_right]; rewrite Hlen; lia.
    - subst k; exists l'; split; [reflexivity|]; split; [reflexivity|].
      unfold wf; cbn [shape data l' numel fold_right]; rewrite Hlen; lia. }
  destruct Hcat as (acc' & Hcat & Hsa' & Hwa').
  rewrite Hcat; cbn [rbind]; rewrite Hx'; cbn [rbind].
  eexists; split; [reflexivity|].
  unfold soft_inv; cbn [logits_so_far past inputs_embeds1 records_steps].
  split; [split; [lia | split; assumption]|].
  split; [lia|].
  intros _; exists x'; repeat split; assumption.
Qed.

Lemma soft_body_inv (k : nat) (st : @soft_state F Past) :
  soft_inv model B V k st ->
  exists st', outcome (soft_body model input_one_hot1 temperature st) = Ok st' /\
              soft_inv model B V (S k) st'.
Proof.
  intros (Hacc & Hzero & Hpos); unfold soft_body.
  rewrite outcome_bind.
  destruct (past st) as [p|] eqn:Ep.
  - destruct k as [|k]; [specialize (Hzero eq_refl); discriminate|].
    destruct (Hpos ltac:(lia)) as (x & Hx & Hsx & Hwx).
    rewrite outcome_ret, Hx; cbn [rbind].
    apply (soft_tail_inv (Some p) x 1 (S k)); try assumption; lia.
  - destruct (embed_inputs_rank3
                (div_by temperature (to_float input_one_hot1)) B s0 true)
      as (x0 & Hx0 & Hsx0 & Hwx0); [exact Hprompt|].
    rewrite outcome_bind, Hx0; cbn [rbind outcome ret snd].
    apply (soft_tail_inv None x0 s0 k); assumption.
Qed.

Lemma soft_loop_inv (n k : nat) (st : @soft_state F Past) :
  soft_inv model B V k st ->
  exists st',
    outcome (for_range n (soft_body model input_one_hot1 temperature) st) =
      Ok st' /\
    soft_inv model B V (k + n) st'.
Proof.
  revert k st; induction n as [|n IH]; intros k st Hinv.
  - exists st; rewrite Nat.add_0_r; split; [reflexivity | assumption].
  - destruct (soft_body_inv k st Hinv) as (st1 & H1 & Hinv1).
    destruct (IH (S k) st1 Hinv1) as (st' & H' & Hinv').
    exists st'; rewrite outcome_for_range_S, H1; cbn [rbind].
    split; [exact H' | now replace (k + S n) with (S k + n) by lia].
Qed.

Lemma soft_init_inv : soft_inv model B V 0 (soft_init Past).
Proof.
  clear HV Hmodel Hprompt Hs0.
  unfold soft_inv; cbn; repeat split; intros; lia.
Qed.
End SoftShapes.

(** C1: for a model that returns logits of the batch and vocabulary size
    for every input position, every temperature and every prompt of at
    least one position, the logits-so-far hold exactly [k] steps along the
    time axis after [k] iterations of the soft decoding loop (none before
    the first), every run of [n >= k] iterations passes through that state,
    and [decode_with_embeddings] and [decode_with_one_hot] called with
    [length >= 1] return a tensor with exactly [length] steps. *)
Theorem soft_decoding_length {F : Type} `{Scalar F} {Past : Type}
    (model : @lm F Past) (temperature : F) (B V s0 : nat)
    (input_one_hot1 : tensor Z)
    (HV : num_embeddings (get_input_embeddings model) = V)
    (Hmodel : respects_embeds_shape model B V)
    (Hprompt : shape input_one_hot1 = [B; s0; V])
    (Hs0 : 0 < s0) :
  let body := soft_body model input_one_hot1 temperature in
  (forall k, exists st,
     outcome (for_range k body (soft_init Past)) = Ok st /\
     records_steps B V k (logits_so_far st)) /\
  (forall n k, k <= n ->
     outcome (for_range n body (soft_init Past)) =
     rbind (outcome (for_range k body (soft_init Past)))
           (fun st => outcome (for_range (n - k) body st))) /\
  (forall length, (1 <= length)%Z ->
     exists acc,
       outcome (decode_with_embeddings model length input_one_hot1
                  temperature) = Ok (Some acc) /\
       outcome (decode_with_one_hot model length input_one_hot1
                  temperature) = Ok (Some acc) /\
       shape acc = [B; Z.to_nat length; V] /\
       nth 1 (shape acc) 0 = Z.to_nat length /\
       wf acc).
Proof.
  cbv zeta.
  assert (Hloop : forall k, exists st,
            outcome (for_range k (soft_body model input_one_hot1 temperature)
                       (soft_init Past)) = Ok st /\
            soft_inv model B V k st).
  { intros k.
    destruct (soft_loop_inv model temperature B V s0 input_one_hot1
                HV Hmodel Hprompt Hs0 k 0 (soft_init Past)
                (soft_init_inv model B V))
      as (st & Hst & Hinv).
    exists st; split; assumption. }
  split; [|split].
  - intros k; destruct (Hloop k) as (st & Hst & Hrec & _).
    exists st; split; assumption.
  - intros n k Hk.
    replace n with (k + (n - k)) at 1 by lia.
    apply outcome_for_range_add.
  - intros length Hlen.
    destruct (Hloop (Z.to_nat length)) as (st & Hst & Hrec & _).
    unfold records_steps in Hrec.
    destruct (logits_so_far st) as [acc|] eqn:Eacc; [|lia].
    destruct Hrec as (_ & Hsh & Hwf).
    exists acc; unfold decode_with_embeddings, decode_with_one_hot.
    rewrite outcome_bind, Hst; cbn [rbind]; rewrite outcome_ret, Eacc.
    repeat split; try assumption.
    rewrite Hsh; reflexivity.
Qed.

Lemma soft_decoding_length_witness :
  exists acc,
    outcome (decode_with_embeddings (ramp_model ramp_table) 4
               (Tensor [2; 1; 3] [0; 1; 0; 0; 0; 1]%Z) 7%Z) = Ok (Some acc) /\
    nth 1 (shape acc) 0 = 4.
Proof.
  destruct (soft_decoding_length (ramp_model ramp_table) 7%Z 2 3 1
              (Tensor [2; 1; 3] [0; 1; 0; 0; 0; 1]%Z))
    as (_ & _ & Hrun).
  - reflexivity.
  - apply ramp_model_embeds_shape.
  - reflexivity.
  - lia.
  - destruct (Hrun 4%Z) as (acc & Hacc & _ & _ & Htime & _); [lia|].
    exists acc; split; [exact Hacc | exact Htime].
Defined.

(** ** Arg-max decoding, step by step *)

Lemma last_map_seq {A} (f : nat -> A) (s : nat) (d : A) :
  0 < s -> last (map f (seq 0 s)) d = f (s - 1).
Proof.
  intros Hs; destruct s as [|s]; [lia|].
  rewrite seq_S, map_app; cbn [map]; rewrite last_last.
  f_equal; lia.
Qed.

Section ArgmaxSteps.
Context {F : Type} `{Scalar F} {Past : Type}.
Variable model : @lm F Past.
Variable V : nat.
Hypothesis HV : 0 < V.
Hypothesis Hmodel : respects_ids_shape model V.

Lemma next_logits_forward (ids : list Z) :
  ids <> [] ->
  exists out,
    forward model None (InputIds (Tensor [1; length ids] ids)) = Ok out /\
    shape (logits out) = [1; length ids; V] /\
    select_last_1 (logits out) = Ok (Tensor [1; V] (next_logits model ids)) /\
    length (next_logits model ids) = V.
Proof.
  intros Hne.
  assert (Hs : 0 < length ids) by (destruct ids; [congruence | simpl; lia]).
  destruct (Hmodel (Tensor [1; length ids] ids) (length ids) eq_refl)
    as (out & Hout & Hsh & Hwf); [unfold wf; simpl; lia | exact Hs |].
  exists out; split; [exact Hout|]; split; [exact Hsh|].
  assert (Hrow : next_logits model ids =
                 chunk V (length ids - 1) (data (logits out))).
  { unfold next_logits; rewrite Hout.
    rewrite (rows_shape (logits out) [1; length ids] V Hsh).
    cbn [numel fold_right]; rewrite Nat.mul_1_r, Nat.mul_1_l.
    now apply last_map_seq. }
  split.
  - rewrite (select_last_1_rank3 _ 1 (length ids) V Hsh Hs).
    cbn [seq map concat Nat.mul Nat.add]; now rewrite app_nil_r, Hrow.
  - rewrite Hrow; apply chunk_length.
    unfold wf in Hwf; rewrite Hwf, Hsh; cbn [numel fold_right]; nia.
Qed.

Lemma as_logits_snoc (steps : list (list F)) (row : list F) :
  Forall (fun r => length r = V) steps -> length row = V ->
  append_step (as_logits V steps) (Tensor [1; 1; V] row) =
  Ok (Tensor [1; length (steps ++ [row]); V] (concat (steps ++ [row]))).
Proof.
  intros Hall Hrow; destruct steps as [|r steps].
  - cbn; now rewrite app_nil_r.
  - cbn [as_logits append_step].
    rewrite cat_1_batch1.
    + rewrite length_app, concat_app; cbn [length concat].
      now rewrite app_nil_r.
    + rewrite (concat_length_uniform _ V Hall); cbn [numel fold_right]; lia.
    + cbn [numel fold_right]; lia.
Qed.

Lemma argmax_body_step (ids : list Z) (steps : list (list F)) :
  ids <> [] -> Forall (fun r => length r = V) steps ->
  let row := next_logits model ids in
  outcome (argmax_body model
             (ArgmaxState (Tensor [1; length ids] ids) (as_logits V steps))) =
  Ok (ArgmaxState
        (Tensor [1; length (ids ++ [top1 row])] (ids ++ [top1 row]))
        (as_logits V (steps ++ [row]))).
Proof.
  intros Hne Hall row.
  destruct (next_logits_forward ids Hne) as (out & Hout & Hsh & Hsel & Hlen).
  fold row in Hsel, Hlen.
  assert (Hrow : row <> []) by (intros E; rewrite E in Hlen; simpl in Hlen; lia).
  unfold argmax_body; cbn [input_ids1 am_logits_so_far].
  rewrite outcome_bind, outcome_lift, Hout; cbn [rbind].
  rewrite outcome_bind, outcome_lift, Hsel; cbn [rbind].
  change (unsqueeze 1 (Tensor [1; V] row)) with (Ok (Tensor [1; 1; V] row)).
  rewrite outcome_bind, outcome_lift; cbn [rbind].
  rewrite outcome_bind, outcome_lift.
  change (match as_logits V steps with
          | Some a => cat 1 a (Tensor [1; 1; V] row)
          | None => Ok (Tensor [1; 1; V] row)
          end) with (append_step (as_logits V steps) (Tensor [1; 1; V] row)).
  rewrite (as_logits_snoc steps row Hall Hlen); cbn [rbind].
  rewrite outcome_bind, outcome_lift.
  unfold argmax; cbn [data]; rewrite (argmax_list_some row Hrow).
  rewrite Z2Nat.id by (pose proof (top1_bound row Hrow); lia).
  cbn [rbind].
  change (unsqueeze 0 (Tensor [] [top1 row])) with (Ok (Tensor [1] [top1 row])).
  rewrite outcome_bind, outcome_lift; cbn [rbind].
  change (unsqueeze 0 (Tensor [1] [top1 row]))
    with (Ok (Tensor [1; 1] [top1 row])).
  rewrite outcome_bind, outcome_lift; cbn [rbind].
  rewrite outcome_bind, outcome_lift.
  rewrite cat_1_batch1 by (cbn [numel fold_right length]; lia).
  cbn [rbind]; rewrite outcome_ret.
  f_equal; f_equal.
  - rewrite length_app; reflexivity.
  - destruct steps; reflexivity.
Qed.

Lemma greedy_ids_nonempty (n : nat) (ids : list Z) :
  ids <> [] -> greedy_ids model n ids <> [].
Proof.
  revert ids; induction n as [|n IH]; intros ids Hne; cbn [greedy_ids];
    [assumption|].
  apply IH; destruct ids; discriminate.
Qed.

Lemma argmax_loop (n : nat) (ids : list Z) (steps : list (list F)) :
  ids <> [] -> Forall (fun r => length r = V) steps ->
  outcome (for_range n (argmax_body model)
             (ArgmaxState (Tensor [1; length ids] ids) (as_logits V steps))) =
  Ok (ArgmaxState
        (Tensor [1; length (greedy_ids model n ids)] (greedy_ids model n ids))
        (as_logits V (steps ++ greedy_steps model n ids))).
Proof.
  revert ids steps; induction n as [|n IH]; intros ids steps Hne Hall.
  - cbn [for_range greedy_ids greedy_steps]; now rewrite app_nil_r.
  - rewrite outcome_for_range_S, argmax_body_step by assumption.
    cbn [rbind greedy_ids greedy_steps].
    rewrite IH.
    + now rewrite <- app_assoc.
    + destruct ids; discriminate.
    + apply Forall_app; split; [assumption|].
      constructor; [|constructor].
      now destruct (next_logits_forward ids Hne) as (_ & _ & _ & _ & Hlen).
Qed.

Lemma greedy_steps_facts (n : nat) (ids : list Z) :
  ids <> [] ->
  greedy_ids model n ids = ids ++ map top1 (greedy_steps model n ids) /\
  length (greedy_steps model n ids) = n /\
  Forall (fun r => length r = V) (greedy_steps model n ids).
Proof.
  revert ids; induction n as [|n IH]; intros ids Hne;
    cbn [greedy_ids greedy_steps map length].
  - rewrite app_nil_r; repeat split; constructor.
  - destruct (IH (ids ++ [top1 (next_logits model ids)])) as (Hids & Hlen & Hall);
      [destruct ids; discriminate|].
    rewrite Hids, <- app_assoc; repeat split; [now rewrite Hlen|].
    constructor; [|assumption].
    now destruct (next_logits_forward ids Hne) as (_ & _ & _ & _ & Hl).
Qed.
End ArgmaxSteps.

(** C5: on a single prompt of at least one token, with a model that returns
    logits over a non-empty vocabulary for every position of a token-id
    sequence, every step of the arg-max loop runs the forward pass without
    cached state on all the token ids so far, appends the last-position
    logits to the logits-so-far, and appends their top-1 index to the token
    ids the next step runs on; after [length] steps the logits-so-far are
    returned.  When the comparison of scores is a total preorder the
    appended token holds a greatest score of its step. *)
Theorem argmax_decoding_steps {F : Type} `{Scalar F} {Past : Type}
    (model : @lm F Past) (V s0 : nat) (input_ids : tensor Z)
    (HV : 0 < V)
    (Hmodel : respects_ids_shape model V)
    (Hshape : shape input_ids = [1; s0])
    (Hwf : wf input_ids)
    (Hs0 : 0 < s0) :
  let prompt := data input_ids in
  (forall n,
     outcome (for_range n (argmax_body model) (ArgmaxState input_ids None)) =
     Ok (ArgmaxState (Tensor [1; s0 + n] (greedy_ids model n prompt))
                     (as_logits V (greedy_steps model n prompt)))) /\
  (forall length,
     outcome (decode_with_argmax model length input_ids) =
     Ok (as_logits V (greedy_steps model (Z.to_nat length) prompt))) /\
  (forall n,
     greedy_ids model n prompt =
       prompt ++ map top1 (greedy_steps model n prompt) /\
     length (greedy_steps model n prompt) = n /\
     Forall (fun row => length row = V) (greedy_steps model n prompt)) /\
  ((forall x y : F, fleb x y = true \/ fleb y x = true) ->
   (forall x y z : F,
      fleb x y = true -> fleb y z = true -> fleb x z = true) ->
   forall n row j, In row (greedy_steps model n prompt) -> j < V ->
     fleb (nth j row fzero) (nth (Z.to_nat (top1 row)) row fzero) = true).
Proof.
  cbv zeta; destruct input_ids as [sh ids]; cbn [shape data] in *; subst sh.
  unfold wf in Hwf; cbn [shape data numel fold_right] in Hwf.
  rewrite Nat.mul_1_r, Nat.mul_1_l in Hwf.
  assert (Hne : ids <> []) by (intros E; subst ids; simpl in Hwf; lia).
  assert (Hrun : forall n,
            outcome (for_range n (argmax_body model)
                       (ArgmaxState (Tensor [1; s0] ids) None)) =
            Ok (ArgmaxState (Tensor [1; s0 + n] (greedy_ids model n ids))
                            (as_logits V (greedy_steps model n ids)))).
  { intros n.
    pose proof (argmax_loop model V HV Hmodel n ids [] Hne (Forall_nil _)) as L.
    cbn [as_logits app] in L; rewrite Hwf in L; rewrite L.
    destruct (greedy_steps_facts model V HV Hmodel n ids Hne) as (Hids & Hlen & _).
    do 3 f_equal.
    rewrite Hids, length_app, length_map, Hlen, Hwf; reflexivity. }
  split; [exact Hrun|].
  split.
  { intros length; unfold decode_with_argmax.
    rewrite outcome_bind, Hrun; reflexivity. }
  split.
  { intros n; now apply (greedy_steps_facts model V HV Hmodel n ids). }
  intros Htot Htrans n row j Hin Hj.
  destruct (greedy_steps_facts model V HV Hmodel n ids Hne) as (_ & _ & Hall).
  rewrite Forall_forall in Hall; specialize (Hall row Hin).
  assert (Hrow : row <> []) by (intros E; subst row; simpl in Hall; lia).
  apply (top1_max Htot Htrans fzero row Hrow); lia.
Qed.

Lemma argmax_decoding_steps_witness :
  outcome (decode_with_argmax (ramp_model ramp_table) 3
             (Tensor [1; 2] [0; 4]%Z)) =
  Ok (Some (Tensor [1; 3; 3] [4; 1; 1; 0; 5; 1; 1; 4; 1]%Z)).
Proof.
  destruct (argmax_decoding_steps (ramp_model ramp_table) 3 2
              (Tensor [1; 2] [0; 4]%Z))
    as (_ & Hrun & _).
  - lia.
  - apply ramp_model_ids_shape.
  - reflexivity.
  - reflexivity.
  - lia.
  - rewrite Hrun; reflexivity.
Defined.

(** ** Running the loops *)

Example argmax_run :
  decode_with_argmax (ramp_model ramp_table) 3 (Tensor [1; 2] [0; 4]%Z) =
  ([], Ok (Some (Tensor [1; 3; 3] [4; 1; 1; 0; 5; 1; 1; 4; 1]%Z))).
Proof. reflexivity. Qed.

Example argmax_run_transcript :
  (acc <~ outcome (decode_with_argmax (ramp_model ramp_table) 3
                     (Tensor [1; 2] [0; 4]%Z)) ;;
   match acc with
   | Some t =>
       first <~ index_0 0 t ;;
       get_text_from_logits (K := first_greatest) first
         (fun ids => "text"%string)
   | None => Raise AttributeError
   end) =
  Ok ("text"%string, 0%Z, Tensor [3] [0; 1; 1]%Z).
Proof. reflexivity. Qed.

(** The arg-max loop appends a single token id per step: on a batch of two
    prompts the concatenation of the ids fails in the first iteration. *)
Example argmax_batch_of_two :
  decode_with_argmax (ramp_model ramp_table) 1 (Tensor [2; 2] [0; 4; 1; 1]%Z) =
  ([], Raise RuntimeError).
Proof. reflexivity. Qed.

(** The entropy of the prompt distribution is printed once, in the first
    iteration. *)
Example soft_run :
  decode_with_embeddings (ramp_model ramp_table) 3
    (Tensor [1; 2; 3] [1; 0; 0; 0; 1; 0]%Z) 1%Z =
  ([0%Z], Ok (Some (Tensor [1; 3; 3] [0; 5; 1; 0; 5; 1; 0; 5; 1]%Z))).
Proof. reflexivity. Qed.

Example soft_run_no_step :
  decode_with_embeddings (ramp_model ramp_table) 0
    (Tensor [1; 2; 3] [1; 0; 0; 0; 1; 0]%Z) 1%Z = ([], Ok None) /\
  decode_with_embeddings (ramp_model ramp_table) (-2)
    (Tensor [1; 2; 3] [1; 0; 0; 0; 1; 0]%Z) 1%Z = ([], Ok None).
Proof. split; reflexivity. Qed.

Example embedding_run :
  decode_with_embedding (ramp_model ramp_table) 2 1%Z
    (Tensor [1; 1; 2] [3; 5]%Z) =
  ([], Ok (Some (Tensor [1; 2; 3] [3; 2; 1; 0; 5; 1]%Z))).
Proof. reflexivity. Qed.

(** * Further properties of the code *)

(** ** What the loops print *)

Lemma printed_bind {O A B} (m : M O A) (f : A -> M O B) :
  printed (bind m f) =
  printed m ++ match outcome m with
               | Ok a => printed (f a)
               | Raise _ => []
               end.
Proof.
  destruct m as [out [a|e]]; unfold bind, printed, outcome; cbn [fst snd].
  - destruct (f a); reflexivity.
  - now rewrite app_nil_r.
Qed.

Lemma printed_bind_ret {O A B} (m : M O A) (g : A -> B) :
  printed (bind m (fun a => ret (g a))) = printed m.
Proof.
  rewrite printed_bind; destruct (outcome m); cbn; now rewrite app_nil_r.
Qed.

Lemma M_eta {O A} (m : M O A) : m = (printed m, outcome m).
Proof. destruct m; reflexivity. Qed.

Lemma printed_for_range_S {O S} n (body : S -> M O S) s :
  printed (for_range (Datatypes.S n) body s) =
  printed (body s) ++ match outcome (body s) with
                      | Ok s' => printed (for_range n body s')
                      | Raise _ => []
                      end.
Proof. simpl; apply printed_bind. Qed.

Section Printing.
Context {F : Type} `{Scalar F} {Past : Type}.
Variable model : @lm F Past.
Variable temperature : F.

Lemma embed_inputs_silent (e : embedding) (l : tensor F) :
  printed (embed_inputs e l false) = [].
Proof.
  unfold embed_inputs; rewrite printed_bind; destruct (matmul (softmax l) e);
    reflexivity.
Qed.

Lemma embed_inputs_prints (e : embedding) (l : tensor F) :
  printed (embed_inputs e l true) = [entropy (softmax l)].
Proof.
  unfold embed_inputs; rewrite printed_bind; destruct (matmul (softmax l) e);
    reflexivity.
Qed.

Lemma soft_tail_silent (p : option Past) (e acc : option (tensor F)) :
  printed (soft_tail model temperature p e acc) = [].
Proof.
  unfold soft_tail.
  rewrite printed_bind; cbn [printed lift fst outcome snd app].
  destruct (call_embeds model p e) as [out|]; [|reflexivity].
  rewrite printed_bind; cbn [printed lift fst outcome snd app].
  destruct (select_last_1 (logits out)) as [l|]; [|reflexivity].
  rewrite printed_bind; cbn [printed lift fst outcome snd app].
  destruct (unsqueeze 1 (div_by temperature l)) as [l'|]; [|reflexivity].
  rewrite printed_bind; cbn [printed lift fst outcome snd app].
  destruct (match acc with Some a => cat 1 a l' | None => Ok l' end);
    [|reflexivity].
  rewrite printed_bind, embed_inputs_silent; cbn [app].
  destruct (outcome (embed_inputs (get_input_embeddings model) l' false));
    reflexivity.
Qed.

Lemma soft_tail_keeps_cache (p : option Past) (e acc : option (tensor F))
    (st : soft_state Past) :
  returns_cache model ->
  outcome (soft_tail model temperature p e acc) = Ok st ->
  past st <> None.
Proof.
  intros Hcache; destruct e as [x|].
  - rewrite soft_tail_outcome.
    destruct (forward model p (InputsEmbeds x)) as [out|] eqn:Eout;
      cbn [rbind]; [|discriminate].
    destruct (select_last_1 (logits out)) as [l|]; cbn [rbind]; [|discriminate].
    destruct (unsqueeze 1 (div_by temperature l)) as [l'|]; cbn [rbind];
      [|discriminate].
    destruct (append_step acc l') as [acc'|]; cbn [rbind]; [|discriminate].
    destruct (outcome (embed_inputs (get_input_embeddings model) l' false));
      cbn [rbind]; [|discriminate].
    intros E; inversion E; cbn [past]; exact (Hcache _ _ _ Eout).
  - unfold soft_tail; rewrite outcome_bind; cbn; discriminate.
Qed.

Lemma cached_loop_silent (body : @soft_state F Past -> M F (@soft_state F Past)) :
  (forall p x acc,
     body (SoftState (Some p) x acc) =
     soft_tail model temperature (Some p) x acc) ->
  returns_cache model ->
  forall n st, past st <> None -> printed (for_range n body st) = [].
Proof.
  intros Hbody Hcache; induction n as [|n IH]; intros st Hp; [reflexivity|].
  destruct st as [[p|] x acc]; cbn [past] in Hp; [|congruence].
  rewrite printed_for_range_S, Hbody, soft_tail_silent; cbn [app].
  destruct (outcome (soft_tail model temperature (Some p) x acc)) as [st'|] eqn:E;
    [|reflexivity].
  apply IH; exact (soft_tail_keeps_cache _ _ _ _ Hcache E).
Qed.

Lemma argmax_body_silent (st : argmax_state) :
  printed (argmax_body model st) = [].
Proof.
  unfold argmax_body.
  repeat (rewrite printed_bind; cbn [printed lift ret fst outcome snd app];
          match goal with
          | |- match ?r with Ok _ => _ | Raise _ => _ end = _ =>
              destruct r; [|reflexivity]
          end).
  reflexivity.
Qed.

Lemma silent_loop {S} (body : S -> M F S) :
  (forall s, printed (body s) = []) ->
  forall n s, printed (for_range n body s) = [].
Proof.
  intros Hbody; induction n as [|n IH]; intros s; [reflexivity|].
  rewrite printed_for_range_S, Hbody; cbn [app].
  destruct (outcome (body s)); [apply IH | reflexivity].
Qed.

(** X1: the arg-max loop and the loop on a prompt embedding print nothing,
    whatever the model does; the one-hot loops, run for at least one step
    on a model that returns a cached state, print exactly one value, the
    entropy of the softmax of the prompt divided by the temperature, also
    when a later call fails. *)
Theorem decoding_loops_printed (length : Z) :
  (forall prompt_embedding,
     printed (decode_with_embedding model length temperature prompt_embedding)
       = []) /\
  (forall input_ids, printed (decode_with_argmax model length input_ids) = []) /\
  (returns_cache model -> (1 <= length)%Z ->
   forall input_one_hot1,
     printed (decode_with_embeddings model length input_one_hot1 temperature)
       = [entropy (softmax (div_by temperature (to_float input_one_hot1)))] /\
     printed (decode_with_one_hot model length input_one_hot1 temperature)
       = [entropy (softmax (div_by temperature (to_float input_one_hot1)))]).
Proof.
  split; [|split].
  - intros pe; unfold decode_with_embedding; rewrite printed_bind_ret.
    apply silent_loop; intros; apply soft_tail_silent.
  - intros ids; unfold decode_with_argmax; rewrite printed_bind_ret.
    apply silent_loop, argmax_body_silent.
  - intros Hcache Hlen oh.
    assert (G : printed (for_range (Z.to_nat length)
                          (soft_body model oh temperature) (soft_init Past)) =
                [entropy (softmax (div_by temperature (to_float oh)))]).
    { destruct (Z.to_nat length) as [|n] eqn:En; [lia|].
      rewrite printed_for_range_S.
      unfold soft_body at 1 2; cbn [soft_init past logits_so_far].
      rewrite !printed_bind, embed_inputs_prints, !outcome_bind.
      destruct (outcome (embed_inputs (get_input_embeddings model)
                  (div_by temperature (to_float oh)) true)) as [x0|];
        cbn [rbind outcome printed ret fst snd app]; [|reflexivity].
      rewrite soft_tail_silent; cbn [app].
      destruct (outcome (soft_tail model temperature None (Some x0) None))
        as [st|] eqn:E; cbn [app]; [|reflexivity].
      rewrite (cached_loop_silent (soft_body model oh temperature)
                 (soft_body_cached model temperature oh) Hcache n st
                 (soft_tail_keeps_cache _ _ _ _ Hcache E)).
      reflexivity. }
    unfold decode_with_embeddings, decode_with_one_hot.
    rewrite !printed_bind_ret; split; exact G.
Qed.

End Printing.

Lemma decoding_loops_printed_witness :
  printed (decode_with_embeddings (ramp_model ramp_table) 3
             (Tensor [1; 2; 3] [1; 0; 0; 0; 1; 0]%Z) 1%Z) = [0%Z].
Proof.
  destruct (decoding_loops_printed (ramp_model ramp_table) 1%Z 3)
    as (_ & _ & Hp).
  destruct (Hp (ramp_model_returns_cache ramp_table) ltac:(lia)
              (Tensor [1; 2; 3] [1; 0; 0; 0; 1; 0]%Z)) as [E _].
  rewrite E; reflexivity.
Defined.

(** ** The one-hot loops and the loop on a prompt embedding *)

Section LoopsAgree.
Context {F : Type} `{Scalar F} {Past : Type}.
Variable model : @lm F Past.
Variable temperature : F.
Variable input_one_hot1 : tensor Z.

Lemma soft_body_as_embedding_body (x0 : tensor F) (st : soft_state Past) :
  outcome (embed_inputs (get_input_embeddings model)
             (div_by temperature (to_float input_one_hot1)) true) = Ok x0 ->
  outcome (soft_body model input_one_hot1 temperature st) =
  outcome (embedding_body model temperature x0 st).
Proof.
  intros Hx0; unfold soft_body, embedding_body.
  rewrite outcome_bind.
  destruct (past st) as [p|].
  - reflexivity.
  - rewrite outcome_bind, Hx0; reflexivity.
Qed.

Lemma soft_loop_as_embedding_loop (x0 : tensor F) :
  outcome (embed_inputs (get_input_embeddings model)
             (div_by temperature (to_float input_one_hot1)) true) = Ok x0 ->
  forall n st,
    outcome (for_range n (soft_body model input_one_hot1 temperature) st) =
    outcome (for_range n (embedding_body model temperature x0) st).
Proof.
  intros Hx0; induction n as [|n IH]; intros st; [reflexivity|].
  rewrite !outcome_for_range_S, (soft_body_as_embedding_body x0 st Hx0).
  destruct (outcome (embedding_body model temperature x0 st)); cbn [rbind];
    [apply IH | reflexivity].
Qed.

(** X2: when the projection of the prompt (the one-hot prompt divided by
    the temperature, through [embed_inputs]) returns [x0], the one-hot
    loops return what [decode_with_embedding] returns on [x0], for every
    model and length; when the projection raises, the one-hot loops run for
    at least one step raise the same exception. *)
Theorem one_hot_loop_is_embedding_loop (length : Z) :
  (forall x0,
     outcome (embed_inputs (get_input_embeddings model)
                (div_by temperature (to_float input_one_hot1)) true) = Ok x0 ->
     outcome (decode_with_one_hot model length input_one_hot1 temperature) =
       outcome (decode_with_embedding model length temperature x0) /\
     outcome (decode_with_embeddings model length input_one_hot1 temperature) =
       outcome (decode_with_embedding model length temperature x0)) /\
  (forall e,
     outcome (embed_inputs (get_input_embeddings model)
                (div_by temperature (to_float input_one_hot1)) true) = Raise e ->
     (1 <= length)%Z ->
     outcome (decode_with_one_hot model length input_one_hot1 temperature) =
       Raise e /\
     outcome (decode_with_embeddings model length input_one_hot1 temperature) =
       Raise e).
Proof.
  split.
  - intros x0 Hx0.
    unfold decode_with_one_hot, decode_with_embeddings, decode_with_embedding.
    rewrite !outcome_bind, (soft_loop_as_embedding_loop x0 Hx0).
    split; reflexivity.
  - intros e He Hlen.
    unfold decode_with_one_hot, decode_with_embeddings.
    destruct (Z.to_nat length) as [|n] eqn:En; [lia|].
    assert (Hb : outcome (soft_body model input_one_hot1 temperature
                            (soft_init Past)) = Raise e).
    { unfold soft_body; cbn [soft_init past].
      rewrite !outcome_bind, He; reflexivity. }
    rewrite !outcome_bind, outcome_for_range_S, Hb; split; reflexivity.
Qed.
End LoopsAgree.

Lemma one_hot_loop_is_embedding_loop_witness :
  outcome (decode_with_one_hot (ramp_model ramp_table) 3
             (Tensor [1; 2; 3] [1; 0; 0; 0; 1; 0]%Z) 1%Z) =
  outcome (decode_with_embedding (ramp_model ramp_table) 3 1%Z
             (Tensor [1; 2; 2] [0; 0; 0; 0]%Z)) /\
  outcome (decode_with_one_hot (ramp_model ramp_table) 3
             (Tensor [1; 2; 4] [1; 0; 0; 0; 0; 1; 0; 0]%Z) 1%Z) =
  Raise RuntimeError.
Proof.
  split.
  - destruct (one_hot_loop_is_embedding_loop (ramp_model ramp_table) 1%Z
                (Tensor [1; 2; 3] [1; 0; 0; 0; 1; 0]%Z) 3) as [Hok _].
    destruct (Hok (Tensor [1; 2; 2] [0; 0; 0; 0]%Z)) as [E _];
      [reflexivity | exact E].
  - destruct (one_hot_loop_is_embedding_loop (ramp_model ramp_table) 1%Z
                (Tensor [1; 2; 4] [1; 0; 0; 0; 0; 1; 0; 0]%Z) 3) as [_ Hraise].
    destruct (Hraise RuntimeError) as [E _]; [reflexivity | lia | exact E].
Defined.

(** ** The arg-max loop on a batch *)

Lemma cat_1_batch_mismatch {A} (t1 : tensor A) (B s : nat) (x : A) :
  shape t1 = [B; s] -> 2 <= B ->
  cat 1 t1 (Tensor [1; 1] [x]) = Raise RuntimeError.
Proof.
  intros Hs HB; unfold cat, rank; rewrite Hs; cbn [shape].
  destruct (list_eq_dec Nat.eq_dec [B; s] [0]); [discriminate|].
  destruct (list_eq_dec Nat.eq_dec [1; 1] [0]); [discriminate|].
  cbn [length Nat.ltb Nat.leb negb orb Nat.eqb firstn].
  destruct (list_eq_dec Nat.eq_dec [B] [1]) as [E|_]; [|reflexivity].
  inversion E; lia.
Qed.

(** X3: the arg-max loop handles one prompt at a time.  On a batch of two
    or more prompts its first iteration fails, after the forward pass, when
    the single selected token id is concatenated to the batch of ids; the
    call raises and nothing is returned or printed. *)
Theorem argmax_batch_fails {F : Type} `{Scalar F} {Past : Type}
    (model : @lm F Past) (B V s0 : nat) (input_ids : tensor Z)
    (out : model_outputs Past) (length : Z)
    (HB : 2 <= B) (HV : 0 < V) (Hs0 : 0 < s0)
    (Hids : shape input_ids = [B; s0])
    (Hout : forward model None (InputIds input_ids) = Ok out)
    (Hshape : shape (logits out) = [B; s0; V])
    (Hwf : wf (logits out))
    (Hlen : (1 <= length)%Z) :
  decode_with_argmax model length input_ids = ([], Raise RuntimeError).
Proof.
  rewrite (M_eta (decode_with_argmax model length input_ids)).
  unfold decode_with_argmax; rewrite printed_bind_ret, outcome_bind.
  rewrite (silent_loop _ (argmax_body_silent model)).
  destruct (Z.to_nat length) as [|n] eqn:En; [lia|].
  rewrite outcome_for_range_S.
  assert (Hbody : outcome (argmax_body model (ArgmaxState input_ids None)) =
                  Raise RuntimeError).
  { unfold argmax_body; cbn [input_ids1 am_logits_so_far].
    rewrite outcome_bind, outcome_lift, Hout; cbn [rbind].
    rewrite outcome_bind, outcome_lift.
    rewrite (select_last_1_rank3 _ B s0 V Hshape Hs0); cbn [rbind].
    pose proof (select_last_1_wf _ B s0 V Hshape Hwf Hs0) as Hwl.
    set (l := concat _) in *.
    change (unsqueeze 1 (Tensor [B; V] l)) with (Ok (Tensor [B; 1; V] l)).
    rewrite outcome_bind, outcome_lift; cbn [rbind].
    rewrite outcome_bind, outcome_lift; cbn [rbind].
    rewrite outcome_bind, outcome_lift.
    assert (Hl : l <> []).
    { unfold wf in Hwl; cbn [shape data numel fold_right] in Hwl.
      intros E; rewrite E in Hwl; cbn [Datatypes.length] in Hwl; nia. }
    unfold argmax; cbn [data]; rewrite (argmax_list_some l Hl); cbn [rbind].
    set (tok := Z.of_nat _).
    change (unsqueeze 0 (Tensor [] [tok])) with (Ok (Tensor [1] [tok])).
    rewrite outcome_bind, outcome_lift; cbn [rbind].
    change (unsqueeze 0 (Tensor [1] [tok])) with (Ok (Tensor [1; 1] [tok])).
    rewrite outcome_bind, outcome_lift; cbn [rbind].
    rewrite outcome_bind, outcome_lift.
    now rewrite (cat_1_batch_mismatch input_ids B s0 tok Hids HB). }
  rewrite Hbody; reflexivity.
Qed.

Lemma argmax_batch_fails_witness :
  decode_with_argmax (ramp_model ramp_table) 5 (Tensor [2; 2] [0; 4; 1; 1]%Z) =
  ([], Raise RuntimeError).
Proof.
  eapply (argmax_batch_fails (ramp_model ramp_table) 2 3 2
            (Tensor [2; 2] [0; 4; 1; 1]%Z)).
  - lia.
  - lia.
  - lia.
  - reflexivity.
  - reflexivity.
  - reflexivity.
  - reflexivity.
  - lia.
Defined.

(** ** From the loops to the transcript *)

Lemma select_0_2_first {A} (t : tensor A) (B n V : nat) :
  shape t = [B; n; V] -> wf t -> 0 < B ->
  select_0_2 0 t = Ok (Tensor [n; V] (chunk (n * V) 0 (data t))) /\
  wf (Tensor [n; V] (chunk (n * V) 0 (data t))).
Proof.
  intros Hs Hwf HB; unfold select_0_2; rewrite Hs.
  destruct (Nat.ltb_spec 0 B); [|lia].
  cbn [numel fold_right]; rewrite Nat.mul_1_r; split; [reflexivity|].
  unfold wf in *; cbn [shape data numel fold_right].
  rewrite Hs in Hwf; cbn [numel fold_right] in Hwf.
  rewrite chunk_length; nia.
Qed.

Lemma as_logits_some {F : Type} (V n : nat) (steps : list (list F)) :
  Datatypes.length steps = n -> 0 < n ->
  as_logits V steps = Some (Tensor [1; n; V] (concat steps)).
Proof.
  intros <- Hn; destruct steps; [simpl in Hn; lia | reflexivity].
Qed.

Section Transcripts.
Context {F : Type} `{Scalar F} {K : TopK F} {Past : Type}.
Variable model : @lm F Past.
Variable decode : list Z -> string.

Hypothesis fleb_total : forall x y : F, fleb x y = true \/ fleb y x = true.
Hypothesis fleb_trans :
  forall x y z : F, fleb x y = true -> fleb y z = true -> fleb x z = true.
Hypothesis Hrange : topk_in_range K.
Hypothesis Hgreatest : topk_greatest K.

(** In a row with a single greatest score, the arg-max of the loop and
    the top-1 selection of the transcript pick the same index. *)
Lemma single_greatest_agree (row : list F) (i : nat) :
  i < Datatypes.length row ->
  (forall j, j < Datatypes.length row -> j <> i ->
     fleb (nth i row fzero) (nth j row fzero) = false) ->
  Z.of_nat (topk_index row) = top1 row.
Proof.
  intros Hi Hsingle.
  assert (Hne : row <> []) by (intros E; subst row; simpl in Hi; lia).
  assert (Hk : topk_index row = i).
  { destruct (Nat.eq_dec (topk_index row) i) as [E|N]; [exact E|].
    pose proof (Hsingle _ (Hrange row Hne) N) as Hlt.
    rewrite (Hgreatest row i Hi) in Hlt; discriminate. }
  destruct (top1_max fleb_total fleb_trans fzero row Hne) as (Hr & Hmax & _).
  assert (Ht : Z.to_nat (top1 row) = i).
  { destruct (Nat.eq_dec (Z.to_nat (top1 row)) i) as [E|N]; [exact E|].
    pose proof (Hsingle _ Hr N) as Hlt.
    rewrite (Hmax i Hi) in Hlt; discriminate. }
  pose proof (top1_bound row Hne); lia.
Qed.

(** X4: on a single prompt of at least one token (and a model as in C5),
    when the scores of every step have a single greatest one, the token
    ids that the transcript reads back from the logits returned by the
    arg-max loop are exactly the token ids that the loop appended to the
    prompt, one per step, whichever index the top-1 selection returns
    among equal scores; the text is the detokenizer's output for them,
    with newlines replaced. *)
Theorem argmax_transcript_tokens (V s0 : nat) (input_ids : tensor Z)
    (length : Z)
    (HV : 0 < V)
    (Hmodel : respects_ids_shape model V)
    (Hshape : shape input_ids = [1; s0])
    (Hwf : wf input_ids)
    (Hs0 : 0 < s0)
    (Hlen : (1 <= length)%Z)
    (Hsingle :
       forall row,
         In row (greedy_steps model (Z.to_nat length) (data input_ids)) ->
         exists i, i < Datatypes.length row /\
           forall j, j < Datatypes.length row -> j <> i ->
             fleb (nth i row fzero) (nth j row fzero) = false) :
  let n := Z.to_nat length in
  let steps := greedy_steps model n (data input_ids) in
  let toks := map top1 steps in
  outcome (argmax_transcript model length input_ids decode) =
    Ok (replace_newline (decode toks), transcript_nll steps, Tensor [n] toks) /\
  Datatypes.length toks = n /\
  outcome (for_range n (argmax_body model) (ArgmaxState input_ids None)) =
    Ok (ArgmaxState (Tensor [1; s0 + n] (data input_ids ++ toks))
                    (as_logits V steps)).
Proof.
  cbv zeta; destruct input_ids as [sh ids]; cbn [shape data] in *; subst sh.
  unfold wf in Hwf; cbn [shape data numel fold_right] in Hwf.
  rewrite Nat.mul_1_r, Nat.mul_1_l in Hwf.
  assert (Hne : ids <> []) by (intros E; subst ids; simpl in Hwf; lia).
  set (n := Z.to_nat length) in *.
  assert (Hn : 0 < n) by (unfold n; lia).
  destruct (greedy_steps_facts model V HV Hmodel n ids Hne)
    as (Hids & Hsteps & Hall).
  pose proof (argmax_loop model V HV Hmodel n ids [] Hne (Forall_nil _)) as L.
  cbn [as_logits app] in L; rewrite Hwf in L.
  assert (Hloop : outcome (for_range n (argmax_body model)
                             (ArgmaxState (Tensor [1; s0] ids) None)) =
                  Ok (ArgmaxState
                        (Tensor [1; s0 + n]
                           (ids ++ map top1 (greedy_steps model n ids)))
                        (as_logits V (greedy_steps model n ids)))).
  { rewrite L, Hids, length_app, length_map, Hsteps, Hwf; reflexivity. }
  split; [|split; [now rewrite length_map | exact Hloop]].
  unfold argmax_transcript, decode_with_argmax; fold n.
  rewrite outcome_bind, outcome_bind, Hloop; cbn [rbind outcome ret lift snd].
  cbn [am_logits_so_far].
  assert (Hsome : as_logits V (greedy_steps model n ids) =
                  Some (Tensor [1; n; V] (concat (greedy_steps model n ids)))).
  { now apply as_logits_some. }
  rewrite Hsome; cbn [first_transcript].
  assert (Hlen' : Datatypes.length (concat (greedy_steps model n ids)) = n * V).
  { rewrite (concat_length_uniform _ V Hall), Hsteps; reflexivity. }
  assert (Hsel : select_0_2 0
                   (Tensor [1; n; V] (concat (greedy_steps model n ids))) =
                 Ok (Tensor [n; V] (concat (greedy_steps model n ids)))).
  { destruct (select_0_2_first
                (Tensor [1; n; V] (concat (greedy_steps model n ids))) 1 n V)
      as [E _]; [reflexivity | unfold wf; cbn; lia | lia |].
    rewrite E; cbn [data]; now rewrite chunk_0_all. }
  rewrite Hsel; cbn [rbind].
  rewrite (get_text_from_logits_ok _ decode n V) by
    (try reflexivity; try assumption; unfold wf; cbn; lia).
  assert (R : rows (Tensor [n; V] (concat (greedy_steps model n ids))) =
              greedy_steps model n ids)
    by (apply (rows_concat _ [n] V Hall); cbn; lia).
  rewrite R.
  assert (Htoks : transcript_tokens (greedy_steps model n ids) =
                  map top1 (greedy_steps model n ids)).
  { unfold transcript_tokens; apply map_ext_in; intros row Hin.
    destruct (Hsingle row Hin) as (i & Hi & Hi').
    now apply (single_greatest_agree row i). }
  unfold transcript_text; rewrite Htoks; reflexivity.
Qed.
End Transcripts.

Lemma argmax_transcript_tokens_witness :
  outcome (argmax_transcript (K := last_greatest) (ramp_model ramp_table) 3
             (Tensor [1; 2] [0; 4]%Z) (fun ids => "text"%string)) =
  Ok ("text"%string, 0%Z, Tensor [3] [0; 1; 1]%Z).
Proof.
  destruct (argmax_transcript_tokens (K := last_greatest)
              (ramp_model ramp_table) (fun ids => "text"%string)
              Zleb_total Zleb_trans last_greatest_in_range
              (last_greatest_greatest Zleb_total Zleb_trans)
              3 2 (Tensor [1; 2] [0; 4]%Z) 3)
    as (Hrun & _).
  - lia.
  - apply ramp_model_ids_shape.
  - reflexivity.
  - reflexivity.
  - lia.
  - lia.
  - intros row Hin; vm_compute in Hin.
    destruct Hin as [<-|[<-|[<-|[]]]];
      [exists 0 | exists 1 | exists 1];
      (split; [simpl; lia|]);
      intros [|[|[|j]]] Hj Hne; simpl in Hj; try lia; reflexivity.
  - rewrite Hrun; reflexivity.
Defined.

(** Where scores are equal the two selections can part.  On a model whose
    logits are all zero the arg-max loop appends token 0 at every step,
    and a top-k that returns the last greatest index reads token 2 back
    from the very logits the loop returned. *)
Example argmax_transcript_tie :
  outcome (argmax_transcript (K := last_greatest) (zero_model ramp_table) 2
             (Tensor [1; 1] [1]%Z) (fun ids => "text"%string)) =
    Ok ("text"%string, 0%Z, Tensor [2] [2; 2]%Z) /\
  greedy_ids (zero_model ramp_table) 2 [1]%Z = [1; 0; 0]%Z.
Proof. split; reflexivity. Qed.

(** X5: with a model as in C1, a batch of at least one prompt over a
    non-empty vocabulary and [length >= 1], reading the transcript of the
    first prompt from what the soft loop returns does not fail: it returns
    exactly [length] token ids, all inside the vocabulary, and a text
    without newlines. *)
Theorem soft_transcript_returns {F : Type} `{Scalar F} {K : TopK F}
    {Past : Type}
    (model : @lm F Past) (decode : list Z -> string) (temperature : F)
    (B V s0 : nat) (input_one_hot : tensor Z) (length : Z)
    (Hrange : topk_in_range K)
    (HB : 0 < B) (HV0 : 0 < V)
    (HV : num_embeddings (get_input_embeddings model) = V)
    (Hmodel : respects_embeds_shape model B V)
    (Hprompt : shape input_one_hot = [B; s0; V])
    (Hs0 : 0 < s0)
    (Hlen : (1 <= length)%Z) :
  exists text nll ids,
    outcome (soft_transcript model length input_one_hot temperature decode) =
      Ok (text, nll, ids) /\
    shape ids = [Z.to_nat length] /\
    Datatypes.length (data ids) = Z.to_nat length /\
    Forall (fun x => (0 <= x < Z.of_nat V)%Z) (data ids) /\
    text = replace_newline (decode (data ids)) /\
    forall i, String.get i text <> Some newline.
Proof.
  set (n := Z.to_nat length).
  assert (Hn : 0 < n) by (unfold n; lia).
  destruct (soft_loop_inv model temperature B V s0 input_one_hot
              HV Hmodel Hprompt Hs0 n 0 (soft_init Past)
              (soft_init_inv model B V))
    as (st & Hst & Hrec & _).
  cbn [Nat.add] in Hrec; unfold records_steps in Hrec.
  destruct (logits_so_far st) as [acc|] eqn:Eacc; [|lia].
  destruct Hrec as (_ & Hsh & Hwf).
  destruct (select_0_2_first acc B n V Hsh Hwf HB) as [Hsel Hwf1].
  set (first := Tensor [n; V] (chunk (n * V) 0 (data acc))) in *.
  pose proof (get_text_from_logits_ok first decode n V Hrange eq_refl Hwf1
                Hn HV0) as Htext.
  pose proof (transcript_tokens_length first n V eq_refl) as Htoks.
  exists (transcript_text decode (rows first)), (transcript_nll (rows first)),
    (Tensor [n] (transcript_tokens (rows first))).
  split.
  { unfold soft_transcript, decode_with_embeddings; fold n.
    rewrite !outcome_bind, Hst; cbn [rbind outcome ret lift snd].
    rewrite Eacc; cbn [first_transcript]; rewrite Hsel; cbn [rbind].
    exact Htext. }
  split; [reflexivity|]; split; [exact Htoks|]; split.
  { cbn [data]; unfold transcript_tokens; apply Forall_map.
    pose proof (rows_uniform first [n] V eq_refl Hwf1) as Hu.
    eapply Forall_impl; [|exact Hu]; cbv beta; intros row Hrow.
    assert (Hne : row <> [])
      by (intros E; rewrite E in Hrow; simpl in Hrow; lia).
    pose proof (Hrange row Hne); lia. }
  split; [reflexivity|].
  intros i; apply replace_newline_free.
Qed.

Lemma soft_transcript_returns_witness :
  exists text nll ids,
    outcome (soft_transcript (K := first_greatest) (ramp_model ramp_table) 3
               (Tensor [1; 2; 3] [1; 0; 0; 0; 1; 0]%Z) 1%Z
               (fun ids => "text"%string)) = Ok (text, nll, ids) /\
    shape ids = [3].
Proof.
  destruct (soft_transcript_returns (K := first_greatest)
              (ramp_model ramp_table)
              (fun ids => "text"%string) 1%Z 1 3 2
              (Tensor [1; 2; 3] [1; 0; 0; 0; 1; 0]%Z) 3)
    as (text & nll & ids & Hrun & Hsh & _).
  - apply first_greatest_in_range.
  - lia.
  - lia.
  - reflexivity.
  - apply ramp_model_embeds_shape.
  - reflexivity.
  - lia.
  - lia.
  - exists text, nll, ids; split; [exact Hrun | exact Hsh].
Defined.

(** X6: called with a length of zero or less, every loop returns [None]
    (not an empty tensor) without running the model or printing, whatever
    the model and the prompt are; reading a transcript from that result
    raises. *)
Theorem no_step_returns_none {F : Type} `{Scalar F} {K : TopK F}
    {Past : Type}
    (model : @lm F Past) (decode : list Z -> string) (temperature : F)
    (length : Z) (Hlen : (length <= 0)%Z) :
  (forall input_one_hot,
     decode_with_embeddings model length input_one_hot temperature =
       ([], Ok None) /\
     decode_with_one_hot model length input_one_hot temperature =
       ([], Ok None) /\
     soft_transcript model length input_one_hot temperature decode =
       ([], Raise TypeError)) /\
  (forall prompt_embedding,
     decode_with_embedding model length temperature prompt_embedding =
       ([], Ok None)) /\
  (forall input_ids,
     decode_with_argmax model length input_ids = ([], Ok None) /\
     argmax_transcript model length input_ids decode = ([], Raise TypeError)).
Proof.
  assert (E : Z.to_nat length = 0) by lia.
  unfold soft_transcript, argmax_transcript, decode_with_embeddings,
    decode_with_one_hot, decode_with_embedding, decode_with_argmax.
  rewrite E; repeat split.
Qed.

Lemma no_step_returns_none_witness :
  decode_with_argmax (ramp_model ramp_table) (-1) (Tensor [1; 2] [0; 4]%Z) =
  ([], Ok None).
Proof.
  destruct (no_step_returns_none (K := first_greatest)
              (ramp_model ramp_table)
              (fun ids => "text"%string) 1%Z (-1)) as (_ & _ & Harg);
    [lia|].
  destruct (Harg (Tensor [1; 2] [0; 4]%Z)) as [E _]; exact E.
Defined.

(** ** One-hot construction outside its domain *)

Lemma scatter_fold_raise b d b' c' idx v e (ps : list nat) :
  fold_left (scatter_cell b d b' c' idx v) ps (Raise e) = Raise e.
Proof. induction ps as [|p ps IH]; [reflexivity | exact IH]. Qed.

Lemma scatter_fold_out_of_range b d b' c' idx v (ps : list nat) cur :
  Exists (fun p => ~ (0 <= nth p idx 0 < Z.of_nat d)%Z) ps ->
  fold_left (scatter_cell b d b' c' idx v) ps (Ok cur) = Raise RuntimeError.
Proof.
  intros Hex; revert cur; induction ps as [|p ps IH]; intros cur;
    [inversion Hex|].
  cbn [fold_left]; unfold scatter_cell at 2; cbn [rbind].
  destruct ((nth p idx 0 <? 0) || (Z.of_nat d <=? nth p idx 0))%Z eqn:E.
  - apply scatter_fold_raise.
  - apply IH; inversion Hex as [? ? Hbad|? ? Hrest]; subst; [|assumption].
    exfalso; apply Hbad.
    apply orb_false_iff in E; destruct E as [E1 E2].
    apply Z.ltb_ge in E1; apply Z.leb_gt in E2; lia.
Qed.

Lemma unsqueeze_last {A} (t : tensor A) :
  unsqueeze (-1) t = Ok (Tensor (shape t ++ [1]) (data t)).
Proof.
  unfold unsqueeze, rank.
  destruct (Z.ltb_spec (-1) (- (Z.of_nat (length (shape t)) + 1))); [lia|].
  destruct (Z.ltb_spec (Z.of_nat (length (shape t))) (-1)); [lia|].
  cbn [orb]; destruct (Z.ltb_spec (-1) 0); [|lia].
  replace (Z.to_nat (-1 + Z.of_nat (length (shape t)) + 1))
    with (length (shape t)) by lia.
  now rewrite firstn_all, skipn_all.
Qed.

(** X7: one-hot construction checks its token ids and its rank.  On a
    tensor of rank two it raises as soon as one id lies outside [[0, d)],
    and when the vocabulary size [d] is negative; on a non-empty tensor of
    rank three or more it raises for every [d >= 0], since the index
    built from it no longer has the rank of the result. *)
Theorem one_hot_rejects (d : Z) :
  (forall a b l,
     Datatypes.length l = a * b ->
     Exists (fun x => ~ (0 <= x < d)%Z) l ->
     one_hot (Tensor [a; b] l) d = Raise RuntimeError) /\
  (forall t, (d < 0)%Z -> one_hot t d = Raise RuntimeError) /\
  (forall a b c rest l,
     (0 <= d)%Z -> numel (a :: b :: c :: rest) <> 0 ->
     one_hot (Tensor (a :: b :: c :: rest) l) d = Raise RuntimeError).
Proof.
  split; [|split].
  - intros a b l Hl Hex.
    unfold one_hot; rewrite one_hot_loop_rank2; cbn [shape].
    unfold zeros_long; destruct (Z.ltb_spec d 0); [reflexivity|].
    cbn [rbind]; rewrite unsqueeze_last; cbn [rbind shape data app].
    unfold scatter_2; cbn [shape data numel fold_right].
    assert (Hab : a * b <> 0).
    { intros E; rewrite E in Hl; destruct l; [inversion Hex | discriminate]. }
    rewrite !Nat.mul_1_r.
    destruct (Nat.eqb_spec (a * b) 0); [contradiction|].
    rewrite !Nat.leb_refl; cbn [andb].
    rewrite scatter_fold_out_of_range; [reflexivity|].
    apply Exists_exists in Hex; destruct Hex as (x & Hin & Hbad).
    destruct (In_nth l x 0%Z Hin) as (p & Hp & Hx).
    apply Exists_exists; exists p; split.
    + apply in_seq; lia.
    + rewrite Hx; intros Hr; apply Hbad; lia.
  - intros t Hd; unfold one_hot.
    destruct (one_hot_loop_exits t) as (t' & Ht' & Hrank & _).
    rewrite Ht'; unfold rank in Hrank.
    destruct (shape t') as [|a [|b sh]]; cbn [length] in Hrank; try lia.
    unfold zeros_long; destruct (Z.ltb_spec d 0); [reflexivity | lia].
  - intros a b c rest l Hd Hne.
    unfold one_hot; rewrite one_hot_loop_rank2; cbn [shape].
    unfold zeros_long; destruct (Z.ltb_spec d 0); [lia|].
    cbn [rbind]; rewrite unsqueeze_last; cbn [rbind shape data].
    unfold scatter_2; cbn [shape data].
    rewrite numel_app, Nat.mul_1_r.
    destruct (Nat.eqb_spec (numel (a :: b :: c :: rest)) 0); [contradiction|].
    cbn [app]; destruct rest; reflexivity.
Qed.

Lemma one_hot_rejects_witness :
  one_hot (Tensor [1; 3] [1; 5; 3]%Z) 5 = Raise RuntimeError /\
  one_hot (Tensor [1; 1; 2] [0; 1]%Z) 5 = Raise RuntimeError.
Proof.
  destruct (one_hot_rejects 5) as (Hrange & _ & Hrank).
  split.
  - apply (Hrange 1 3); [reflexivity|].
    apply Exists_cons_tl, Exists_cons_hd; lia.
  - apply Hrank; [lia | cbn; lia].
Defined.

(** ** The likelihood of a transcript, in exact arithmetic *)

Section RealFacts.
Local Open Scope R_scope.
Context {K : TopK R}.

Lemma fsum_nonneg (l : list R) :
  Forall (fun x => 0 <= x) l -> 0 <= fsum l.
Proof.
  induction 1 as [|x l Hx _ IH]; [unfold fsum; simpl; lra|].
  rewrite fsum_cons; lra.
Qed.

Lemma fsum_ge_member (l : list R) (x : R) :
  Forall (fun y => 0 <= y) l -> In x l -> x <= fsum l.
Proof.
  induction 1 as [|y l Hy Hall IH]; intros Hin; [destruct Hin|].
  rewrite fsum_cons; pose proof (fsum_nonneg l Hall).
  destruct Hin as [->|Hin]; [lra | specialize (IH Hin); lra].
Qed.

Lemma softmax_row_le_one (xs : list R) (p : R) :
  In p (softmax_row xs) -> p <= 1.
Proof.
  unfold softmax_row; cbn [fdiv fexp RScalar]; intros Hin.
  apply in_map_iff in Hin; destruct Hin as [e [<- Hin]].
  assert (Hne : xs <> []) by (destruct xs; [destruct Hin | discriminate]).
  pose proof (fsum_exp_pos xs Hne) as Hpos.
  assert (Hle : e <= fsum (map exp xs)).
  { apply fsum_ge_member; [|exact Hin].
    apply Forall_map, Forall_forall; intros x _.
    pose proof (exp_pos x); lra. }
  apply (Rmult_le_reg_r (fsum (map exp xs))); [exact Hpos|].
  unfold Rdiv; rewrite Rmult_assoc, Rinv_l by lra; lra.
Qed.

Lemma ln_prob_nonpos (p : R) : 0 < p -> p <= 1 -> ln p <= 0.
Proof.
  intros Hp Hle; destruct (Rle_lt_or_eq_dec p 1 Hle) as [Hlt|Heq].
  - pose proof (ln_increasing p 1 Hp Hlt) as Hln; rewrite ln_1 in Hln; lra.
  - rewrite Heq, ln_1; lra.
Qed.

Lemma fold_left_Rplus_nonpos (l : list R) :
  Forall (fun x => x <= 0) l -> fold_left Rplus l 0 <= 0.
Proof.
  induction 1 as [|x l Hx _ IH]; [simpl; lra|].
  change (fold_left Rplus (x :: l) 0) with (fsum (x :: l)).
  rewrite fsum_cons; unfold fsum; cbn [fadd fzero RScalar]; lra.
Qed.

Lemma step_log_prob_nonpos (row : list R) :
  topk_in_range K -> row <> [] -> step_log_prob row <= 0.
Proof.
  intros Hk Hne; unfold step_log_prob; cbn [flog fzero RScalar].
  pose proof (Hk row Hne) as Hb.
  assert (Hin : In (nth (topk_index row) (softmax_row row) 0)
                   (softmax_row row))
    by (apply nth_In; rewrite softmax_row_length; lia).
  apply ln_prob_nonpos;
    [eapply softmax_row_pos | eapply softmax_row_le_one]; exact Hin.
Qed.

(** X9: in exact arithmetic the negative log-likelihood returned by
    transcript reconstruction is never negative, whichever index the
    top-1 selection returns: every step adds the logarithm of a
    probability. *)
Theorem transcript_nll_nonneg (logits : tensor R) (decode : list Z -> string)
    (T V : nat)
    (Hrange : topk_in_range K)
    (Hs : shape logits = [T; V]) (Hwf : wf logits)
    (HT : (0 < T)%nat) (HV : (0 < V)%nat) :
  exists text nll ids,
    get_text_from_logits logits decode = Ok (text, nll, ids) /\
    0 <= nll.
Proof.
  do 3 eexists; split;
    [apply (get_text_from_logits_ok logits decode T V Hrange Hs Hwf HT HV)|].
  unfold transcript_nll; cbn [fneg fadd fzero RScalar].
  assert (Hsum : fold_left Rplus (map step_log_prob (rows logits)) 0 <= 0).
  { apply fold_left_Rplus_nonpos, Forall_map.
    pose proof (rows_uniform logits [T] V Hs Hwf) as Hu.
    eapply Forall_impl; [|exact Hu]; cbv beta; intros row Hrow.
    apply step_log_prob_nonpos; [exact Hrange|].
    intros E; rewrite E in Hrow; simpl in Hrow; lia. }
  lra.
Qed.
End RealFacts.

Lemma transcript_nll_nonneg_witness :
  exists text nll ids,
    get_text_from_logits (K := last_greatest) (Tensor [1; 2] [0; 1]%R)
      (fun ids => "x"%string) =
      Ok (text, nll, ids) /\
    (0 <= nll)%R.
Proof.
  apply (transcript_nll_nonneg (K := last_greatest) (Tensor [1; 2] [0; 1]%R)
           (fun ids => "x"%string) 1 2);
    [apply last_greatest_in_range | reflexivity | reflexivity | lia | lia].
Defined.

(** ** The returned text *)

(** X12: whenever transcript reconstruction returns, the token ids it
    returns form a tensor of rank one, and the text is the detokenizer's
    output for them with every newline replaced by a space: it has the
    length of that output and holds no newline. *)
Theorem get_text_from_logits_text {F : Type} `{Scalar F} {K : TopK F}
    (logits : tensor F) (decode : list Z -> string)
    (text : string) (nll : F) (ids : tensor Z)
    (Hrun : get_text_from_logits logits decode = Ok (text, nll, ids)) :
  rank ids = 1 /\
  text = replace_newline (decode (data ids)) /\
  String.length text = String.length (decode (data ids)) /\
  forall i, String.get i text <> Some newline.
Proof.
  unfold get_text_from_logits in Hrun.
  destruct (size_0 logits) as [n|]; cbn [rbind] in Hrun; [|discriminate].
  destruct (for_index (seq 0 n) (text_body logits) (TextState None fzero))
    as [st|]; cbn [rbind] in Hrun; [|discriminate].
  destruct (output_so_far st) as [out|]; [|discriminate].
  unfold tolist in Hrun.
  destruct (shape out) as [|k [|? ?]] eqn:Esh; cbn [rbind] in Hrun;
    try discriminate.
  inversion Hrun; subst; clear Hrun.
  split; [unfold rank; now rewrite Esh|].
  split; [reflexivity|].
  split; [|intros i; apply replace_newline_free].
  generalize (decode (data ids)); intros s.
  induction s as [|c s IH]; [reflexivity | cbn; now rewrite IH].
Qed.

Lemma get_text_from_logits_text_witness :
  String.length " ab" = 3 /\
  forall i, String.get i " ab"%string <> Some newline.
Proof.
  assert (Hrun : get_text_from_logits (K := last_greatest)
                   (Tensor [2; 3] [0; 4; 1; 7; 2; 3]%Z)
                   (fun ids => String newline "ab"%string) =
                 Ok (" ab"%string, 0%Z, Tensor [2] [1; 0]%Z))
    by reflexivity.
  destruct (get_text_from_logits_text _ _ _ _ _ Hrun)
    as (_ & _ & Hlen & Hfree).
  split; [exact Hlen | exact Hfree].
Defined.

(** ** Transcript reconstruction outside its domain *)

(** X13: transcript reconstruction raises on logits that lack a vocabulary
    axis to select from: on a tensor of rank zero, on a tensor of rank one
    with at least one step (it indexes two axes), and on a tensor of rank
    two with at least one step and an empty vocabulary (there is no top-1
    entry). *)
Theorem get_text_from_logits_rejects {F : Type} `{Scalar F} {K : TopK F}
    (decode : list Z -> string) (l : list F) (T : nat) (HT : 0 < T) :
  get_text_from_logits (Tensor [] l) decode = Raise IndexError /\
  get_text_from_logits (Tensor [T] l) decode = Raise IndexError /\
  get_text_from_logits (Tensor [T; 0] l) decode = Raise RuntimeError.
Proof.
  destruct T as [|T]; [lia|].
  repeat split.
Qed.

Lemma get_text_from_logits_rejects_witness :
  get_text_from_logits (K := first_greatest) (Tensor [2] [3; 4]%Z)
    (fun ids => "x"%string) =
  Raise IndexError.
Proof.
  destruct (get_text_from_logits_rejects (K := first_greatest)
              (fun ids => "x"%string)
              [3; 4]%Z 2) as (_ & E & _); [lia | exact E].
Defined.

(** ** The one-hot loop on a model without cached state *)

Section Uncached.
Context {F : Type} `{Scalar F} {Past : Type}.
Variable model : @lm F Past.
Variable temperature : F.
Variables V s0 : nat.
Variable input_one_hot1 : tensor Z.
Variable x0 : tensor F.
Variable out : @model_outputs F Past.

Hypothesis HV0 : 0 < V.
Hypothesis HV : num_embeddings (get_input_embeddings model) = V.
Hypothesis Hnever :
  forall p x o, forward model p x = Ok o -> past_key_values o = None.
Hypothesis Hx0 :
  outcome (embed_inputs (get_input_embeddings model)
             (div_by temperature (to_float input_one_hot1)) true) = Ok x0.
Hypothesis Hout : forward model None (InputsEmbeds x0) = Ok out.
Hypothesis Hshape : shape (logits out) = [1; s0; V].
Hypothesis Hwf : wf (logits out).
Hypothesis Hs0 : 0 < s0.

Lemma uncached_body (row : list F) (k : nat) (st : soft_state Past) :
  row = map (fun x => fdiv x temperature)
            (chunk V (s0 - 1) (data (logits out))) ->
  past st = None ->
  logits_so_far st = as_logits V (repeat row k) ->
  exists st',
    outcome (soft_body model input_one_hot1 temperature st) = Ok st' /\
    past st' = None /\
    logits_so_far st' = as_logits V (repeat row (S k)).
Proof.
  intros Hrow Hpast Hacc; destruct st as [p x acc]; cbn [past logits_so_far] in *.
  subst p acc.
  assert (Hlen : Datatypes.length row = V).
  { rewrite Hrow, length_map; apply chunk_length.
    unfold wf in Hwf; rewrite Hwf, Hshape; cbn [numel fold_right].
    replace (s0 - 1 + 1) with s0 by lia; lia. }
  unfold soft_body; cbn [past logits_so_far inputs_embeds1].
  rewrite outcome_bind, outcome_bind, Hx0; cbn [rbind outcome ret snd].
  rewrite soft_tail_outcome, Hout; cbn [rbind].
  rewrite (select_last_1_rank3 _ 1 s0 V Hshape Hs0); cbn [rbind].
  cbn [seq map concat Nat.mul Nat.add]; rewrite app_nil_r.
  change (unsqueeze 1 (div_by temperature
                         (Tensor [1; V] (chunk V (s0 - 1) (data (logits out))))))
    with (Ok (Tensor [1; 1; V]
                (map (fun x => fdiv x temperature)
                     (chunk V (s0 - 1) (data (logits out)))))).
  rewrite <- Hrow; cbn [rbind].
  rewrite (as_logits_snoc V HV0 (repeat row k) row)
    by (try assumption; apply Forall_forall; intros r Hr;
        apply repeat_spec in Hr; now subst r).
  cbn [rbind].
  destruct (embed_inputs_rank3 model V HV (Tensor [1; 1; V] row) 1 1 false
              eq_refl) as (x' & Hx' & _).
  rewrite Hx'; cbn [rbind].
  eexists; split; [reflexivity|]; cbn [past logits_so_far].
  split; [exact (Hnever _ _ _ Hout)|].
  rewrite <- repeat_cons; reflexivity.
Qed.

Lemma uncached_loop (row : list F) :
  row = map (fun x => fdiv x temperature)
            (chunk V (s0 - 1) (data (logits out))) ->
  forall n k st,
    past st = None ->
    logits_so_far st = as_logits V (repeat row k) ->
    exists st',
      outcome (for_range n (soft_body model input_one_hot1 temperature) st) =
        Ok st' /\
      logits_so_far st' = as_logits V (repeat row (k + n)).
Proof.
  intros Hrow; induction n as [|n IH]; intros k st Hpast Hacc.
  - exists st; rewrite Nat.add_0_r; split; [reflexivity | exact Hacc].
  - destruct (uncached_body row k st Hrow Hpast Hacc) as (st1 & H1 & Hp1 & Ha1).
    destruct (IH (S k) st1 Hp1 Ha1) as (st' & H' & Ha').
    exists st'; rewrite outcome_for_range_S, H1; cbn [rbind].
    split; [exact H' | now replace (k + S n) with (S k + n) by lia].
Qed.

(** X14: on a model that returns no cached state the one-hot loops never
    feed the generated logits back.  Every iteration finds [past] equal to
    [None], embeds the prompt again and runs the model on it, so the [n]
    recorded steps are [n] copies of the same logits: the last-position
    logits of the prompt, divided by the temperature. *)
Theorem uncached_loop_repeats (n : nat) (Hn : 0 < n) :
  let row := map (fun x => fdiv x temperature)
                 (chunk V (s0 - 1) (data (logits out))) in
  outcome (decode_with_embeddings model (Z.of_nat n) input_one_hot1
             temperature) =
    Ok (Some (Tensor [1; n; V] (concat (repeat row n)))) /\
  outcome (decode_with_one_hot model (Z.of_nat n) input_one_hot1
             temperature) =
    Ok (Some (Tensor [1; n; V] (concat (repeat row n)))).
Proof.
  cbv zeta.
  set (row := map (fun x => fdiv x temperature)
                  (chunk V (s0 - 1) (data (logits out)))).
  destruct (uncached_loop row eq_refl n 0 (soft_init Past) eq_refl eq_refl)
    as (st & Hst & Hacc).
  cbn [Nat.add] in Hacc.
  rewrite (as_logits_some V n (repeat row n) (repeat_length row n) Hn) in Hacc.
  unfold decode_with_embeddings, decode_with_one_hot.
  rewrite Nat2Z.id, outcome_bind, Hst; cbn [rbind outcome ret snd].
  rewrite Hacc; split; reflexivity.
Qed.
End Uncached.

Lemma uncached_loop_repeats_witness :
  outcome (decode_with_embeddings (without_cache (ramp_model ramp_table)) 3
             (Tensor [1; 2; 3] [1; 0; 0; 0; 1; 0]%Z) 1%Z) =
  Ok (Some (Tensor [1; 3; 3] [0; 5; 1; 0; 5; 1; 0; 5; 1]%Z)).
Proof.
  destruct (uncached_loop_repeats (without_cache (ramp_model ramp_table)) 1%Z
              3 2 (Tensor [1; 2; 3] [1; 0; 0; 0; 1; 0]%Z)
              (Tensor [1; 2; 2] [0; 0; 0; 0]%Z)
              (ModelOutputs (Tensor [1; 2; 3] [0; 5; 1; 0; 5; 1]%Z) None))
    with (n := 3) as [E _].
  - lia.
  - reflexivity.
  - intros p x o Ho; cbn in Ho.
    destruct x; inversion Ho; reflexivity.
  - reflexivity.
  - reflexivity.
  - reflexivity.
  - reflexivity.
  - lia.
  - lia.
  - exact E.
Defined.

(** ** Shapes through the embedding projection *)

(** X15: [embed_inputs] replaces the last axis of the logits, which has to
    be the number of rows of the table, by the embedding dimension and
    keeps the leading axes; on any other last axis, and on a tensor of rank
    zero, it raises, after the entropy has been printed when asked for. *)
Theorem embed_inputs_shapes {F : Type} `{Scalar F}
    (e : @embedding F) (logits : tensor F) (pe : bool) :
  (forall sh, shape logits = sh ++ [num_embeddings e] ->
     exists out,
       outcome (embed_inputs e logits pe) = Ok out /\
       shape out = sh ++ [embedding_dim e] /\
       wf out) /\
  (forall sh v, shape logits = sh ++ [v] -> v <> num_embeddings e ->
     outcome (embed_inputs e logits pe) = Raise RuntimeError) /\
  (shape logits = [] ->
     outcome (embed_inputs e logits pe) = Raise RuntimeError) /\
  printed (embed_inputs e logits pe) =
    (if pe then [entropy (softmax logits)] else []).
Proof.
  split; [|split; [|split]].
  - intros sh Hs; eexists; split; [apply (embed_inputs_outcome e logits pe sh Hs)|].
    split; [reflexivity | apply (embed_inputs_wf e logits sh Hs)].
  - intros sh v Hs Hv; unfold embed_inputs.
    rewrite outcome_bind, outcome_lift; unfold matmul; cbn [softmax shape].
    rewrite Hs, last_last.
    destruct (Nat.eqb_spec v (num_embeddings e)); [contradiction|].
    destruct (sh ++ [v]) eqn:E; [destruct sh; discriminate|].
    destruct pe; reflexivity.
  - intros Hs; unfold embed_inputs.
    rewrite outcome_bind, outcome_lift; unfold matmul; cbn [softmax shape].
    rewrite Hs; destruct pe; reflexivity.
  - destruct pe; [apply embed_inputs_prints | apply embed_inputs_silent].
Qed.

Lemma embed_inputs_shapes_witness :
  outcome (embed_inputs ramp_table (Tensor [2; 2] [0; 1; 2; 3]%Z) true) =
    Raise RuntimeError /\
  exists out,
    outcome (embed_inputs ramp_table (Tensor [1; 3] [0; 1; 2]%Z) true) =
      Ok out /\ shape out = [1; 2].
Proof.
  split.
  - destruct (embed_inputs_shapes ramp_table (Tensor [2; 2] [0; 1; 2; 3]%Z)
                true) as (_ & Hbad & _).
    apply (Hbad [2] 2); [reflexivity | cbn; lia].
  - destruct (embed_inputs_shapes ramp_table (Tensor [1; 3] [0; 1; 2]%Z)
                true) as (Hok & _).
    destruct (Hok [1] eq_refl) as (out & Ho & Hs & _).
    exists out; split; [exact Ho | exact Hs].
Defined.

(** ** The length of the loop on a prompt embedding *)

Section EmbeddingShapes.
Context {F : Type} `{Scalar F} {Past : Type}.
Variable model : @lm F Past.
Variable temperature : F.
Variables B V s0 : nat.
Variable prompt_embedding : tensor F.

Hypothesis HV : num_embeddings (get_input_embeddings model) = V.
Hypothesis Hmodel : respects_embeds_shape model B V.
Hypothesis Hprompt :
  shape prompt_embedding =
  [B; s0; embedding_dim (get_input_embeddings model)].
Hypothesis Hwfp : wf prompt_embedding.
Hypothesis Hs0 : 0 < s0.

Lemma embedding_body_inv (k : nat) (st : soft_state Past) :
  soft_inv model B V k st ->
  exists st',
    outcome (embedding_body model temperature prompt_embedding st) = Ok st' /\
    soft_inv model B V (S k) st'.
Proof.
  intros (Hacc & Hzero & Hpos); unfold embedding_body.
  destruct (past st) as [p|] eqn:Ep.
  - destruct k as [|k]; [specialize (Hzero eq_refl); discriminate|].
    destruct (Hpos ltac:(lia)) as (x & Hx & Hsx & Hwx).
    rewrite Hx.
    apply (soft_tail_inv model temperature B V s0 HV Hmodel Hs0
             (Some p) x 1 (S k)); try assumption; lia.
  - apply (soft_tail_inv model temperature B V s0 HV Hmodel Hs0 None
             prompt_embedding s0 k); assumption.
Qed.

Lemma embedding_loop_inv (n k : nat) (st : soft_state Past) :
  soft_inv model B V k st ->
  exists st',
    outcome (for_range n (embedding_body model temperature prompt_embedding)
               st) = Ok st' /\
    soft_inv model B V (k + n) st'.
Proof.
  revert k st; induction n as [|n IH]; intros k st Hinv.
  - exists st; rewrite Nat.add_0_r; split; [reflexivity | assumption].
  - destruct (embedding_body_inv k st Hinv) as (st1 & H1 & Hinv1).
    destruct (IH (S k) st1 Hinv1) as (st' & H' & Hinv').
    exists st'; rewrite outcome_for_range_S, H1; cbn [rbind].
    split; [exact H' | now replace (k + S n) with (S k + n) by lia].
Qed.

(** X16: for a model as in C1 and a well-formed prompt embedding of at
    least one position, [decode_with_embedding] called with [length >= 1]
    returns logits with exactly [length] steps along the time axis, for
    every temperature, and after [k] iterations its logits-so-far hold
    exactly [k] steps. *)
Theorem decode_with_embedding_length :
  (forall k, exists st,
     outcome (for_range k
                (embedding_body model temperature prompt_embedding)
                (soft_init Past)) = Ok st /\
     records_steps B V k (logits_so_far st)) /\
  (forall length, (1 <= length)%Z ->
     exists acc,
       outcome (decode_with_embedding model length temperature
                  prompt_embedding) = Ok (Some acc) /\
       shape acc = [B; Z.to_nat length; V] /\
       wf acc).
Proof.
  assert (Hloop : forall k, exists st,
            outcome (for_range k
                       (embedding_body model temperature prompt_embedding)
                       (soft_init Past)) = Ok st /\
            soft_inv model B V k st).
  { intros k.
    destruct (embedding_loop_inv k 0 (soft_init Past) (soft_init_inv model B V))
      as (st & Hst & Hinv).
    exists st; split; assumption. }
  split.
  - intros k; destruct (Hloop k) as (st & Hst & Hrec & _).
    exists st; split; assumption.
  - intros length Hlen.
    destruct (Hloop (Z.to_nat length)) as (st & Hst & Hrec & _).
    unfold records_steps in Hrec.
    destruct (logits_so_far st) as [acc|] eqn:Eacc; [|lia].
    destruct Hrec as (_ & Hsh & Hwf).
    exists acc; unfold decode_with_embedding.
    rewrite outcome_bind, Hst; cbn [rbind]; rewrite outcome_ret, Eacc.
    repeat split; assumption.
Qed.
End EmbeddingShapes.

Lemma decode_with_embedding_length_witness :
  exists acc,
    outcome (decode_with_embedding (ramp_model ramp_table) 4 1%Z
               (Tensor [1; 1; 2] [3; 5]%Z)) = Ok (Some acc) /\
    shape acc = [1; 4; 3].
Proof.
  destruct (decode_with_embedding_length (ramp_model ramp_table) 1%Z 1 3 1
              (Tensor [1; 1; 2] [3; 5]%Z))
    as (_ & Hrun).
  - reflexivity.
  - apply ramp_model_embeds_shape.
  - reflexivity.
  - reflexivity.
  - lia.
  - destruct (Hrun 4%Z) as (acc & Hacc & Hsh & _); [lia|].
    exists acc; split; [exact Hacc | exact Hsh].
Defined.

(** ** The embedded inputs of the query *)

(** X17: in [query_via_embeddings], for one prompt of [s] token ids inside
    the vocabulary, the embedded input built through [one_hot] and
    [embed_inputs] keeps the batch axis (shape [1 x s x D]), while the
    looked-up and squeezed one loses it: it has shape [s x D] for a prompt
    of two or more tokens and shape [D] for a prompt of one token (for an
    embedding dimension of two or more).  The looked-up input holds the
    table's rows of the token ids, unchanged. *)
Theorem query_inputs_shapes {F : Type} `{Scalar F}
    (e : @embedding F) (input_ids : tensor Z) (s : nat)
    (Hshape : shape input_ids = [1; s])
    (Hwf : wf input_ids)
    (Hvocab : in_vocab (Z.of_nat (num_embeddings e)) input_ids)
    (HD : 2 <= embedding_dim e) :
  exists x1 x3,
    inputs_embeds_squeezed e input_ids = Ok x1 /\
    outcome (input_embeddings2 e input_ids (Z.of_nat (num_embeddings e))) =
      Ok x3 /\
    shape x3 = [1; s; embedding_dim e] /\
    (2 <= s -> shape x1 = [s; embedding_dim e]) /\
    (s = 1 -> shape x1 = [embedding_dim e]) /\
    data x1 =
      flat_map (fun x => chunk (embedding_dim e) (Z.to_nat x) (weight e))
               (data input_ids).
Proof.
  destruct input_ids as [sh l]; unfold wf, in_vocab in *.
  cbn [shape data] in *; subst sh.
  cbn [numel fold_right] in Hwf; rewrite Nat.mul_1_r, Nat.mul_1_l in Hwf.
  assert (Hall : forallb
            (fun x => (0 <=? x)%Z && (x <? Z.of_nat (num_embeddings e))%Z) l =
            true).
  { apply forallb_forall; intros x Hx.
    rewrite Forall_forall in Hvocab; specialize (Hvocab x Hx).
    apply andb_true_iff; split; [apply Z.leb_le | apply Z.ltb_lt]; lia. }
  assert (Hoh : one_hot (Tensor [1; s] l) (Z.of_nat (num_embeddings e)) =
                Ok (Tensor [1; s; num_embeddings e]
                      (concat (map (indicator (num_embeddings e)) l)))).
  { rewrite one_hot_rank2, Nat2Z.id; try reflexivity; try lia; assumption. }
  eexists; eexists; split.
  { unfold inputs_embeds_squeezed, lookup; cbn [data shape].
    rewrite Hall; reflexivity. }
  split.
  { unfold input_embeddings2; rewrite outcome_bind, outcome_lift, Hoh.
    cbn [rbind].
    apply (embed_inputs_outcome e _ false [1; s]); reflexivity. }
  split; [reflexivity|].
  assert (Hne : (embedding_dim e =? 1) = false) by (apply Nat.eqb_neq; lia).
  unfold squeeze; cbn [shape data app filter Nat.eqb negb].
  rewrite Hne; cbn [negb].
  split; [|split; [|reflexivity]].
  - intros Hs; replace (s =? 1) with false by (symmetry; apply Nat.eqb_neq; lia).
    reflexivity.
  - intros ->; reflexivity.
Qed.

Lemma query_inputs_shapes_witness :
  exists x1 x3,
    inputs_embeds_squeezed ramp_table (Tensor [1; 2] [0; 2]%Z) = Ok x1 /\
    outcome (input_embeddings2 ramp_table (Tensor [1; 2] [0; 2]%Z) 3) =
      Ok x3 /\
    shape x3 = [1; 2; 2] /\ shape x1 = [2; 2] /\ data x1 = [4; 0; 1; 1]%Z.
Proof.
  destruct (query_inputs_shapes ramp_table (Tensor [1; 2] [0; 2]%Z) 2)
    as (x1 & x3 & H1 & H3 & Hs3 & Hs1 & _ & Hd).
  - reflexivity.
  - reflexivity.
  - unfold in_vocab; cbn; repeat constructor; lia.
  - cbn; lia.
  - exists x1, x3; split; [exact H1|]; split; [exact H3|].
    split; [exact Hs3|]; split; [apply Hs1; lia | rewrite Hd; reflexivity].
Defined.

(** ** What the soft loop feeds the model *)

Section NextInput.
Context {F : Type} `{Scalar F} {Past : Type}.
Variable model : @lm F Past.
Variable temperature : F.
Variable input_one_hot1 : tensor Z.

Lemma soft_body_keeps_cache (st st' : soft_state Past) :
  returns_cache model ->
  outcome (soft_body model input_one_hot1 temperature st) = Ok st' ->
  past st' <> None.
Proof.
  intros Hcache; unfold soft_body; rewrite outcome_bind.
  destruct (outcome (match past st with
                     | Some _ => ret (inputs_embeds1 st)
                     | None =>
                         e <- embed_inputs (get_input_embeddings model)
                                (div_by temperature (to_float input_one_hot1))
                                true ;;
                         ret (Some e)
                     end)) as [e|]; cbn [rbind]; [|discriminate].
  apply soft_tail_keeps_cache; exact Hcache.
Qed.

Lemma soft_loop_keeps_cache (k : nat) (st0 st : soft_state Past) :
  returns_cache model ->
  outcome (for_range (S k) (soft_body model input_one_hot1 temperature) st0) =
    Ok st ->
  past st <> None.
Proof.
  intros Hcache; replace (S k) with (k + 1) by lia.
  rewrite outcome_for_range_add.
  destruct (outcome (for_range k _ st0)) as [sk|]; cbn [rbind]; [|discriminate].
  rewrite outcome_for_range_S.
  destruct (outcome (soft_body model input_one_hot1 temperature sk))
    as [s1|] eqn:E; cbn [rbind for_range outcome ret snd]; [|discriminate].
  intros E1; inversion E1; subst.
  exact (soft_body_keeps_cache sk st Hcache E).
Qed.

(** X18: with a model as in C1 that returns a cached state, after every
    iteration of the one-hot loop the state holds a cached state and an
    embedded input of exactly one position per prompt, and the next
    iteration passes these to the model unchanged: the prompt is encoded
    in the first iteration only. *)
Theorem soft_loop_next_input (B V s0 : nat)
    (HV : num_embeddings (get_input_embeddings model) = V)
    (Hmodel : respects_embeds_shape model B V)
    (Hprompt : shape input_one_hot1 = [B; s0; V])
    (Hs0 : 0 < s0)
    (Hcache : returns_cache model) (k : nat) :
  exists st p x,
    outcome (for_range (S k) (soft_body model input_one_hot1 temperature)
               (soft_init Past)) = Ok st /\
    past st = Some p /\
    inputs_embeds1 st = Some x /\
    shape x = [B; 1; embedding_dim (get_input_embeddings model)] /\
    wf x /\
    soft_body model input_one_hot1 temperature st =
      soft_tail model temperature (Some p) (Some x) (logits_so_far st).
Proof.
  destruct (soft_loop_inv model temperature B V s0 input_one_hot1
              HV Hmodel Hprompt Hs0 (S k) 0 (soft_init Past)
              (soft_init_inv model B V))
    as (st & Hst & _ & _ & Hpos).
  destruct (Hpos ltac:(lia)) as (x & Hx & Hsx & Hwx).
  pose proof (soft_loop_keeps_cache k (soft_init Past) st Hcache Hst) as Hp.
  destruct (past st) as [p|] eqn:Ep; [|congruence].
  exists st, p, x; repeat split; try assumption.
  destruct st as [p' x' acc]; cbn [past inputs_embeds1 logits_so_far] in *.
  subst p' x'; apply soft_body_cached.
Qed.
End NextInput.

Lemma soft_loop_next_input_witness :
  exists st p x,
    outcome (for_range 2
               (soft_body (ramp_model ramp_table)
                  (Tensor [1; 2; 3] [1; 0; 0; 0; 1; 0]%Z) 1%Z)
               (soft_init unit)) = Ok st /\
    past st = Some p /\
    inputs_embeds1 st = Some x /\
    shape x = [1; 1; 2].
Proof.
  destruct (soft_loop_next_input (ramp_model ramp_table) 1%Z
              (Tensor [1; 2; 3] [1; 0; 0; 0; 1; 0]%Z) 1 3 2)
    with (k := 1) as (st & p & x & Hst & Hp & Hx & Hs & _).
  - reflexivity.
  - apply ramp_model_embeds_shape.
  - reflexivity.
  - lia.
  - apply ramp_model_returns_cache.
  - exists st, p, x; repeat split; assumption.
Defined.
